(** * TypeChat embeddings: vector search and bounded top-N selection

    A shallow embedding of the embeddings module of the repository
    (classes [Embedding], [VectorizedList] and [TopNCollection]), with the
    properties of it that the specification states and further properties
    that the code has; and of two pieces of the code around it, the class
    [EventHistory] and the function [parseAndValidateJsonText].

    Modelling decisions, in the order of the source file:

    - a JavaScript [number] that is a score is an IEEE 754 binary64 value:
      Rocq's primitive [float], compared with the primitive comparisons
      (every comparison with a NaN operand is false, as in JavaScript);
    - a [number] that is a count or an index is a [nat]; [i >> 1] is the
      integer half of [i], as it is for the indices below 2^31 that an
      array can have in practice;
    - [T | undefined] is [option T], with [None] for [undefined];
    - the functions imported from [./vectormath] are not among the sources:
      they are the fields of a record [VectorMath] that the definitions
      take as a parameter;
    - an [Embedding] is the list of the components its [Float32Array]
      stores, with its flag; a number is rounded to single precision when
      it is stored ([Float32.round]), and read back as it was stored;
    - an [IScoredValue] is a mutable object that [TopNCollection] stores by
      reference: the state of a collection carries the objects allocated so
      far and the array [_items] holds references into them;
    - a JavaScript array is a list of slots, an empty slot reading as
      [undefined]; a write past the end extends the array;
    - the methods of [TopNCollection] are computations in a state and
      exception monad: an exception carries the state at the point of the
      throw; loops take fuel, and a separate result [OutOfFuel] keeps them
      total (on the states the constructor and [add] reach, the methods
      never produce it: [add_spec], [sortDescending_spec]);
    - an [EventHistory] is the list of its events and its counter; the
      time that [new Date()] reads is an argument of [append]; a
      generator is the list of the values it yields when run to its end;
    - a string is the list of its UTF-16 code units; [JSON.parse] and the
      diagnostics of the TypeScript compiler are parameters. *)

From Stdlib Require Import ZArith Floats Lia ZifyNat String.
From stdpp Require Import base option list sorting.

#[local] Set Warnings "-inexact-float".

Ltac Zify.zify_post_hook ::= Z.to_euclidean_division_equations.

(* ================================================================== *)
(** * Definitions *)
(* ================================================================== *)

(** ** JavaScript numbers *)

Module Number.

(** [Number.MIN_VALUE]: the smallest positive double, 2^-1074. *)
Definition MIN_VALUE : float := 0x1p-1074%float.

Definition isNaN (x : float) : bool := negb (PrimFloat.eqb x x).

(** The relational operators [<], [<=], [>], [>=] of the language. *)
Definition lt (x y : float) : bool := PrimFloat.ltb x y.
Definition le (x y : float) : bool := PrimFloat.leb x y.
Definition gt (x y : float) : bool := PrimFloat.ltb y x.
Definition ge (x y : float) : bool := PrimFloat.leb y x.

End Number.

(** ** Single precision *)

Module Float32.

(** The number a [Float32Array] holds once [x] was stored in it: [x]
    rounded to the nearest binary32 value, ties going to the even
    mantissa, and to an infinity beyond the range; zeros, infinities and
    NaN are kept.  This is [Math.fround]; the result is a binary64 value
    again, as the language reads it. *)
Definition round (x : float) : float :=
  match Prim2SF x with
  | S754_finite s m e =>
      SF2Prim (binary_normalize 24 128 (if s then Z.neg m else Z.pos m) e s)
  | _ => x
  end.

End Float32.

(** ** Exceptions and the state-and-exception monad *)

Inductive exn : Type :=
| TypeError
| ArgumentException (message : string).

Inductive outcome (S A : Type) : Type :=
| Ok (a : A) (s : S)
| Throw (e : exn) (s : S)
| OutOfFuel.
Arguments Ok {S A} a s.
Arguments Throw {S A} e s.
Arguments OutOfFuel {S A}.

Definition M (S A : Type) : Type := S -> outcome S A.

Definition ret {S A} (a : A) : M S A := fun s => Ok a s.

Definition bind {S A B} (c : M S A) (k : A -> M S B) : M S B :=
  fun s =>
    match c s with
    | Ok a s' => k a s'
    | Throw e s' => Throw e s'
    | OutOfFuel => OutOfFuel
    end.

Definition throw {S A} (e : exn) : M S A := fun s => Throw e s.

Definition diverge {S A} : M S A := fun _ => OutOfFuel.

Declare Scope js_scope.
Delimit Scope js_scope with js.
Notation "x <- c1 ;; c2" := (bind c1 (fun x => c2))
  (at level 100, c1 at next level, right associativity) : js_scope.
Notation "c1 ;; c2" := (bind c1 (fun _ => c2))
  (at level 100, right associativity) : js_scope.

(** ** JavaScript arrays *)

Section Arrays.
Context {A : Type}.

(** [a[i]]: [undefined] out of range. *)
Definition array_get (a : list (option A)) (i : nat) : option A :=
  default None (a !! i).

(** [a[i] = x]: in range the slot is replaced; at or past the end the
    array grows, the slots in between staying empty. *)
Definition array_set (a : list (option A)) (i : nat) (x : option A)
  : list (option A) :=
  if i <? length a then <[i := x]> a
  else a ++ replicate (i - length a) None ++ [x].

(** [a.push(x)] *)
Definition array_push (a : list (option A)) (x : option A)
  : list (option A) :=
  a ++ [x].

(** [a.length = n] *)
Definition array_set_length (a : list (option A)) (n : nat)
  : list (option A) :=
  take n a ++ replicate (n - length a) None.
End Arrays.

(** ** The vector kernels of [./vectormath] *)

Record VectorMath : Type := mkVectorMath {
  euclideanLength32 : list float -> float;
  dot32 : list float -> list float -> float;
  cosineSimilarity32 : list float -> list float -> float;
  normalize32 : list float -> list float
}.

(** ** class Embedding *)

Module Embedding.

(** The components of the [Float32Array] and the private flag. *)
Record t : Type := mk {
  components : list float;
  _normalized : bool
}.

(** [super(vector)] stores each number of [vector] in the array. *)
Definition new (v : list float) : t :=
  {| components := Float32.round <$> v; _normalized := false |}.

Definition isNormalized (this : t) : bool := _normalized this.

Section Methods.
Variable vector : VectorMath.

Definition euclideanLength (this : t) : float :=
  if _normalized this then 1.0%float
  else euclideanLength32 vector (components this).

Definition dotProduct (this other : t) : float :=
  dot32 vector (components this) (components other).

Definition cosineSimilarity (this other : t) : float :=
  if _normalized this && _normalized other
  then dot32 vector (components this) (components other)
  else cosineSimilarity32 vector (components this) (components other).

(** [normalize] updates the object in place: the result is its new
    state. *)
Definition normalize (this : t) : t :=
  if negb (_normalized this)
  then {| components := normalize32 vector (components this);
          _normalized := true |}
  else this.
End Methods.

End Embedding.

(** ** interface IScoredValue *)

Record IScoredValue (T : Type) : Type := {
  value : option T;
  score : float
}.
Arguments value {T} _.
Arguments score {T} _.

(** ** class TopNCollection *)

Module TopNCollection.

(** A reference to an [IScoredValue] object: its index among the
    objects allocated so far. *)
Abbreviation ref := nat (only parsing).

Record t (T : Type) : Type := mk {
  objects : list (IScoredValue T);
  _items : list (option ref);
  _count : nat;
  _maxCount : nat
}.
Arguments mk {T} _ _ _ _.
Arguments objects {T} _.
Arguments _items {T} _.
Arguments _count {T} _.
Arguments _maxCount {T} _.

Section Methods.
Context {T : Type}.
Local Open Scope js_scope.

Local Abbreviation state := (t T).
Local Abbreviation Js := (M state).

(** *** Field and object access *)

Definition get_count : Js nat := fun s => Ok (_count s) s.
Definition get_maxCount : Js nat := fun s => Ok (_maxCount s) s.
Definition set_count (n : nat) : Js unit :=
  fun s => Ok tt (mk (objects s) (_items s) n (_maxCount s)).

(** [this._count++] and [this._count--] *)
Definition incr_count : Js unit := n <- get_count ;; set_count (n + 1).
Definition decr_count : Js unit := n <- get_count ;; set_count (n - 1).

(** [this._items[i]] *)
Definition items_get (i : nat) : Js (option ref) :=
  fun s => Ok (array_get (_items s) i) s.

(** [this._items[i] = x] *)
Definition items_set (i : nat) (x : option ref) : Js unit :=
  fun s =>
    Ok tt (mk (objects s) (array_set (_items s) i x) (_count s)
             (_maxCount s)).

(** [this._items.push(x)] *)
Definition items_push (x : option ref) : Js unit :=
  fun s =>
    Ok tt (mk (objects s) (array_push (_items s) x) (_count s)
             (_maxCount s)).

(** An object literal [{ value: v, score: sc }]: a fresh object. *)
Definition alloc (o : IScoredValue T) : Js (option ref) :=
  fun s =>
    Ok (Some (length (objects s)))
       (mk (objects s ++ [o]) (_items s) (_count s) (_maxCount s)).

(** [x.score]; a [TypeError] when [x] is [undefined].  A reference
    always names an allocated object; the lookup failing is mapped to
    the same error to keep the function total. *)
Definition score_of (x : option ref) : Js float :=
  fun s =>
    match x with
    | None => Throw TypeError s
    | Some r =>
        match objects s !! r with
        | Some o => Ok (score o) s
        | None => Throw TypeError s
        end
    end.

(** [x.value = v] and [x.score = sc] *)
Definition update_object (x : option ref)
    (f : IScoredValue T -> IScoredValue T) : Js unit :=
  fun s =>
    match x with
    | None => Throw TypeError s
    | Some r =>
        match objects s !! r with
        | Some o =>
            Ok tt (mk (<[r := f o]> (objects s)) (_items s) (_count s)
                     (_maxCount s))
        | None => Throw TypeError s
        end
    end.

Definition set_value (x : option ref) (v : option T) : Js unit :=
  update_object x (fun o => {| value := v; score := score o |}).

Definition set_score (x : option ref) (sc : float) : Js unit :=
  update_object x (fun o => {| value := value o; score := sc |}).

(** *** The constructor *)

(** The state the constructor body builds: the sentinel object in
    slot 0. *)
Definition fresh (maxCount : nat) : state :=
  {| objects := [ {| value := None; score := Number.MIN_VALUE |} ];
     _items := [Some 0];
     _count := 0;
     _maxCount := maxCount |}.

(** Modelled from the spec: [Validator.greaterThan] of [./core] is not
    among the sources; the capacity is "validated positive at
    construction" and a non-positive one is an invalid argument. *)
Definition new (maxCount : nat) : exn + state :=
  if 0 <? maxCount then inr (fresh maxCount)
  else inl (ArgumentException "maxCount").

(** *** Accessors *)

Definition count : Js nat := get_count.

Definition get (index : nat) : Js (option ref) := items_get (index + 1).

Definition top : Js (option ref) := items_get 1.

(** *** upHeap *)

(** The [while] loop of [upHeap]; the result is the final [i]. *)
Fixpoint upHeap_loop (fuel : nat) (item : option ref) (i parent : nat)
  : Js nat :=
  match fuel with
  | O => diverge
  | S fuel' =>
      if 0 <? parent then
        p <- items_get parent ;;
        pscore <- score_of p ;;
        iscore <- score_of item ;;
        if Number.gt pscore iscore then
          p' <- items_get parent ;;
          items_set i p' ;;
          upHeap_loop fuel' item parent (Nat.shiftr parent 1)
        else ret i
      else ret i
  end.

Definition upHeap (startAt : nat) : Js unit :=
  item <- items_get startAt ;;
  i <- upHeap_loop (S startAt) item startAt (Nat.shiftr startAt 1) ;;
  items_set i item.

(** *** downHeap *)

(** The [while] loop of [downHeap]; the result is the final [i]. *)
Fixpoint downHeap_loop (fuel : nat) (item : option ref)
    (maxParent i : nat) : Js nat :=
  match fuel with
  | O => diverge
  | S fuel' =>
      if i <=? maxParent then
        let iChild := i + i in
        c <- items_get iChild ;;
        childScore <- score_of c ;;
        n <- get_count ;;
        smaller <-
          (if iChild <? n then
             c1 <- items_get (iChild + 1) ;;
             c1score <- score_of c1 ;;
             if Number.gt childScore c1score then
               c1' <- items_get (iChild + 1) ;;
               c1score' <- score_of c1' ;;
               ret (iChild + 1, c1score')
             else ret (iChild, childScore)
           else ret (iChild, childScore)) ;;
        let '(iChild, childScore) := smaller in
        iscore <- score_of item ;;
        if Number.le iscore childScore then ret i
        else
          c' <- items_get iChild ;;
          items_set i c' ;;
          downHeap_loop fuel' item maxParent iChild
      else ret i
  end.

Definition downHeap (startAt : nat) : Js unit :=
  n <- get_count ;;
  let maxParent := Nat.shiftr n 1 in
  item <- items_get startAt ;;
  i <- downHeap_loop (S n) item maxParent startAt ;;
  items_set i item.

(** *** removeTop *)

Definition removeTop : Js (option ref) :=
  n <- get_count ;;
  if n =? 0 then throw (ArgumentException "Empty queue")
  else
    item <- items_get 1 ;;
    last <- items_get n ;;
    items_set 1 last ;;
    decr_count ;;
    downHeap 1 ;;
    ret item.

(** *** add *)

(** The early [return] ends the call; on the two other paths the call
    ends with [this.upHeap(this._count)]. *)
Definition add (v : option T) (sc : float) : Js unit :=
  n <- get_count ;;
  m <- get_maxCount ;;
  if n =? m then
    t <- top ;;
    tscore <- score_of t ;;
    if Number.lt sc tscore then ret tt
    else
      scoredValue <- removeTop ;;
      set_value scoredValue v ;;
      set_score scoredValue sc ;;
      incr_count ;;
      k <- count ;;
      items_set k scoredValue ;;
      k' <- get_count ;;
      upHeap k'
  else
    incr_count ;;
    o <- alloc {| value := v; score := sc |} ;;
    items_push o ;;
    k' <- get_count ;;
    upHeap k'.

(** *** clear *)

Definition clear : Js unit :=
  fun s =>
    Ok tt (mk (objects s) (array_set_length (_items s) 1) (_count s)
             (_maxCount s)).

(** *** sortDescending *)

(** The [while] loop of [sortDescending]; [i] is the local of the same
    name.  It starts at [_count] and both go down by one at each turn, so
    that [i--] never takes it below zero. *)
Fixpoint sortDescending_loop (fuel : nat) (i : nat) : Js unit :=
  match fuel with
  | O => diverge
  | S fuel' =>
      n <- get_count ;;
      if 0 <? n then
        item <- removeTop ;;
        items_set i item ;;
        sortDescending_loop fuel' (i - 1)
      else ret tt
  end.

Definition sortDescending : Js unit :=
  n <- get_count ;;
  sortDescending_loop (S n) n ;;
  set_count n.

(** *** Sequences of calls and observation *)

(** [add] called on each candidate in turn. *)
Fixpoint add_all (cs : list (option T * float)) : Js unit :=
  match cs with
  | [] => ret tt
  | (v, sc) :: cs' => add v sc ;; add_all cs'
  end.

(** The object a slot refers to. *)
Definition deref (s : state) (x : option ref) : option (IScoredValue T) :=
  r ← x; objects s !! r.

(** What [get(index)] returns in state [s], read through the
    reference. *)
Definition get_value (s : state) (index : nat)
  : option (IScoredValue T) :=
  deref s (array_get (_items s) (index + 1)).

(** The occupants [get(0)], ..., [get(count - 1)]. *)
Definition retained (s : state) : list (IScoredValue T) :=
  omap (get_value s) (seq 0 (_count s)).

End Methods.

End TopNCollection.

(** ** class VectorizedList *)

Module VectorizedList.

Record t (T : Type) : Type := mk {
  _items : list T;
  _embeddings : list Embedding.t
}.
Arguments mk {T} _ _.
Arguments _items {T} _.
Arguments _embeddings {T} _.

Section Methods.
Context {T : Type} (vector : VectorMath).
Local Open Scope js_scope.

Definition new : t T := mk [] [].

(** Modelled from the spec: [Validator.exists] of [./core] is not among
    the sources; [add] "fails with an InvalidArgument condition if
    embedding is absent/undefined".  The embedding is normalized in place:
    the list holds the caller's object in its normalized state. *)
Definition add (this : t T) (item : T) (embedding : option Embedding.t)
  : exn + t T :=
  match embedding with
  | None => inl (ArgumentException "embedding")
  | Some e =>
      inr (mk (_items this ++ [item])
              (_embeddings this ++ [Embedding.normalize vector e]))
  end.

Definition get (this : t T) (index : nat) : option T := _items this !! index.

Definition embedding (this : t T) (index : nat) : option Embedding.t :=
  _embeddings this !! index.

(** The [for] loop of [nearest] from index [i] on: [embeddings] are the
    entries [this._embeddings[i]], [this._embeddings[i + 1]], ...; the
    result is the final [iNearest]. *)
Fixpoint nearest_loop (other : Embedding.t) (embeddings : list Embedding.t)
    (i : nat) (bestScore : float) (iNearest : Z) : Z :=
  match embeddings with
  | [] => iNearest
  | e :: rest =>
      let score := Embedding.cosineSimilarity vector e other in
      if Number.ge score bestScore
      then nearest_loop other rest (i + 1) score (Z.of_nat i)
      else nearest_loop other rest (i + 1) bestScore iNearest
  end.

(** [this._items[iNearest]] is [undefined] for the index -1. *)
Definition nearest (this : t T) (other : Embedding.t) : option T :=
  let iNearest :=
    nearest_loop other (_embeddings this) 0 Number.MIN_VALUE (-1) in
  if (iNearest <? 0)%Z then None else _items this !! Z.to_nat iNearest.

(** The values the generator [similar] yields, in order. *)
Fixpoint similar_loop (this : t T) (other : Embedding.t) (minScore : float)
    (embeddings : list Embedding.t) (i : nat) : list (IScoredValue T) :=
  match embeddings with
  | [] => []
  | e :: rest =>
      let score := Embedding.cosineSimilarity vector e other in
      if Number.ge score minScore
      then {| value := _items this !! i; score := score |}
             :: similar_loop this other minScore rest (i + 1)
      else similar_loop this other minScore rest (i + 1)
  end.

Definition similar (this : t T) (other : Embedding.t) (minScore : float)
  : list (IScoredValue T) :=
  similar_loop this other minScore (_embeddings this) 0.

(** The [for] loop of [search] from index [i] on, acting on [matches]. *)
Fixpoint search_loop (this : t T) (other : Embedding.t) (minScore : float)
    (embeddings : list Embedding.t) (i : nat)
  : M (TopNCollection.t T) unit :=
  match embeddings with
  | [] => ret tt
  | e :: rest =>
      let score := Embedding.cosineSimilarity vector e other in
      (if Number.ge score minScore
       then TopNCollection.add (_items this !! i) score
       else ret tt) ;;
      search_loop this other minScore rest (i + 1)
  end.

(** [minScore] is optional and defaults to [Number.MIN_VALUE]; the
    collection returned is the final state of [matches]. *)
Definition search (this : t T) (other : Embedding.t)
    (matches : TopNCollection.t T) (minScore : option float)
  : outcome (TopNCollection.t T) unit :=
  search_loop this other (default Number.MIN_VALUE minScore)
    (_embeddings this) 0 matches.

Definition searchTopN (this : t T) (other : Embedding.t) (topNCount : nat)
    (minScore : option float) : exn + outcome (TopNCollection.t T) unit :=
  match TopNCollection.new topNCount with
  | inl e => inl e
  | inr matches => inr (search this other matches minScore)
  end.

End Methods.

End VectorizedList.

(** ** The vector kernels, from their description *)

Module SpecVectorMath.
Local Open Scope float_scope.

(** Modelled from the spec: [dot32] of [./vectormath] is not among the
    sources; "dotProduct(a, b): sum of elementwise products".  The
    arithmetic is binary64, as on numbers read from a [Float32Array]. *)
Definition dot32 (a b : list float) : float :=
  fold_left (fun sum xy => sum + xy.1 * xy.2) (zip a b) 0.

(** Modelled from the spec: [euclideanLength32] of [./vectormath] is not
    among the sources; "euclideanLength(v): sqrt of sum of squares". *)
Definition euclideanLength32 (a : list float) : float :=
  PrimFloat.sqrt (dot32 a a).

(** Modelled from the spec: [cosineSimilarity32] of [./vectormath] is not
    among the sources; "dotProduct(a,b) / (euclideanLength(a) *
    euclideanLength(b))". *)
Definition cosineSimilarity32 (a b : list float) : float :=
  dot32 a b / (euclideanLength32 a * euclideanLength32 b).

(** Modelled from the spec: [normalize32] of [./vectormath] is not among
    the sources; "in-place scale by 1/euclideanLength(v)".  The scaled
    components are stored in the array, which rounds them to single
    precision. *)
Definition normalize32 (a : list float) : list float :=
  let len := euclideanLength32 a in
  (fun x => Float32.round (x / len)) <$> a.

Definition vector : VectorMath :=
  mkVectorMath euclideanLength32 dot32 cosineSimilarity32 normalize32.

End SpecVectorMath.

(** ** class EventHistory *)

Module EventHistory.

(** interface AgentEvent; the sequence number is a natural number. *)
Record AgentEvent (T Date : Type) : Type := {
  seqNumber : nat;
  createDate : Date;
  lastUsed : option Date;
  data : T
}.
Arguments seqNumber {T Date} _.
Arguments createDate {T Date} _.
Arguments lastUsed {T Date} _.
Arguments data {T Date} _.

Record t (T Date : Type) : Type := mk {
  _history : list (AgentEvent T Date);
  _seqNumber : nat
}.
Arguments mk {T Date} _ _.
Arguments _history {T Date} _.
Arguments _seqNumber {T Date} _.

Section Methods.
Context {T Date : Type}.

Definition new : t T Date := mk [] 0.

Definition count (this : t T Date) : nat := length (_history this).

Definition get (this : t T Date) (index : nat)
  : option (AgentEvent T Date) :=
  _history this !! index.

(** [new Date()] reads the clock: the time read is the argument [now]. *)
Definition append (this : t T Date) (now : Date) (d : T) : t T Date :=
  let seq := _seqNumber this + 1 in
  mk (_history this
        ++ [ {| seqNumber := seq; createDate := now; lastUsed := None;
                data := d |} ])
     seq.

(** The loop [for (let i = length - 1; i >= 0; --i)] of [allEvents], with
    [k] turns left: [i] is [k - 1]. *)
Fixpoint newest_first (history : list (AgentEvent T Date)) (k : nat)
  : list (option (AgentEvent T Date)) :=
  match k with
  | O => []
  | S i => history !! i :: newest_first history i
  end.

(** The loop [for (let i = 0; i < length; ++i)] of [allEvents], with [k]
    turns left. *)
Fixpoint oldest_first (history : list (AgentEvent T Date)) (i k : nat)
  : list (option (AgentEvent T Date)) :=
  match k with
  | O => []
  | S k' => history !! i :: oldest_first history (i + 1) k'
  end.

(** The values the generator [allEvents] yields when it is run to its
    end with no other call in between; [orderByNewest] is optional and
    defaults to [true]. *)
Definition allEvents (this : t T Date) (orderByNewest : option bool)
  : list (option (AgentEvent T Date)) :=
  if default true orderByNewest
  then newest_first (_history this) (length (_history this))
  else oldest_first (_history this) 0 (length (_history this)).

(** [a.splice(0, deleteCount)] for an integer [deleteCount]: the number
    of entries removed is [deleteCount] clamped between 0 and the
    length. *)
Definition array_splice_0 {A} (a : list A) (deleteCount : Z) : list A :=
  drop (Z.to_nat (Z.min (Z.max deleteCount 0) (Z.of_nat (length a)))) a.

(** [trim(count)] for an integer [count]. *)
Definition trim (this : t T Date) (count : Z) : t T Date :=
  if (Z.of_nat (length (_history this)) <=? count)%Z
  then mk [] (_seqNumber this)
  else mk (array_splice_0 (_history this) count) (_seqNumber this).

End Methods.

End EventHistory.

(** ** JavaScript strings *)

Module JsString.

(** A string is the sequence of its UTF-16 code units. *)
Abbreviation t := (list N) (only parsing).

(** The string of a literal of the source, all of whose characters are
    ASCII. *)
Definition of_literal (s : string) : t :=
  Ascii.N_of_ascii <$> list_ascii_of_string s.

(** [text.indexOf(c)] for a search string of one code unit [c], from
    index [i] on: the first index where [c] is, or -1. *)
Fixpoint indexOf_from (text : t) (c : N) (i : Z) : Z :=
  match text with
  | [] => (-1)%Z
  | u :: rest => if (u =? c)%N then i else indexOf_from rest c (i + 1)
  end.

Definition indexOf (text : t) (c : N) : Z := indexOf_from text c 0.

(** [text.lastIndexOf(c)] for a search string of one code unit [c]: the
    last index where [c] is, or -1; [found] is the last one seen before
    index [i]. *)
Fixpoint lastIndexOf_from (text : t) (c : N) (i found : Z) : Z :=
  match text with
  | [] => found
  | u :: rest =>
      lastIndexOf_from rest c (i + 1) (if (u =? c)%N then i else found)
  end.

Definition lastIndexOf (text : t) (c : N) : Z :=
  lastIndexOf_from text c 0 (-1).

(** [text.substring(start, end)] for integers: both are clamped to the
    string and exchanged if [start] is the greater. *)
Definition substring (text : t) (start end_ : Z) : t :=
  let len := Z.of_nat (length text) in
  let s := Z.min (Z.max start 0) len in
  let e := Z.min (Z.max end_ 0) len in
  let from := Z.min s e in
  let to := Z.max s e in
  take (Z.to_nat (to - from)) (drop (Z.to_nat from) text).

(** [parts.join(sep)] *)
Fixpoint join (parts : list t) (sep : t) : t :=
  match parts with
  | [] => []
  | [p] => p
  | p :: rest => p ++ sep ++ join rest sep
  end.

End JsString.

(** ** validate.ts *)

Module Validate.

(** [new Error(message)], and the error [JSON.parse] throws. *)
Inductive error : Type :=
| Error (message : JsString.t)
| SyntaxError.

Section Functions.
(** The values of JSON, [JSON.parse], and the messages of the semantic
    diagnostics that the TypeScript compiler reports for the program
    [validateJsonObject] builds from its three arguments: these belong to
    the language and to the compiler, and are parameters here. *)
Context {json : Type}.
Variable JSON_parse : JsString.t -> error + json.
Variable semanticDiagnostics :
  json -> JsString.t -> JsString.t -> list JsString.t.

(** The code unit 10 is the line feed of the literals. *)
Definition validateJsonObject (j : json) (schema typeName : JsString.t)
  : error + json :=
  let diagnostics := semanticDiagnostics j schema typeName in
  if negb (length diagnostics =? 0)
  then inl (Error (JsString.of_literal "JSON instance does not match schema:"
                     ++ [10%N] ++ JsString.join diagnostics [10%N]))
  else inr j.

(** The code units 123 and 125 are the braces. *)
Definition parseAndValidateJsonText (text schema typeName : JsString.t)
  : error + json :=
  let start := JsString.indexOf text 123%N in
  let end_ := JsString.lastIndexOf text 125%N in
  if negb ((0 <=? start)%Z && (start <? end_)%Z)
  then inl (Error (JsString.of_literal "Response is not a JSON string"))
  else
    match JSON_parse (JsString.substring text start (end_ + 1)) with
    | inl e => inl e
    | inr j =>
        match validateJsonObject j schema typeName with
        | inl e => inl e
        | inr _ => inr j
        end
    end.

End Functions.

End Validate.

(* ================================================================== *)
(** * The vocabulary of the properties *)
(* ================================================================== *)

(** ** Binary heaps in arrays *)

Section HeapOrder.
Context {A : Type} `{!Inhabited A} (R : relation A).

(** The array with the entries at [i] and [j] exchanged. *)
Definition swap (l : list A) (i j : nat) : list A :=
  <[i := l !!! j]> (<[j := l !!! i]> l).

(** Positions 1, ..., n form a binary heap: each entry is above its parent
    in the order [R]. *)
Definition heap_ordered (l : list A) (n : nat) : Prop :=
  forall c, 2 <= c <= n -> R (l !!! (c / 2)) (l !!! c).

(** A heap but for the entry at [i], which may be below its parent. *)
Definition up_inv (l : list A) (n i : nat) : Prop :=
  (forall c, 2 <= c <= n -> c <> i -> R (l !!! (c / 2)) (l !!! c)) /\
  (forall c, 2 <= c <= n -> c / 2 = i -> 2 <= i ->
             R (l !!! (i / 2)) (l !!! c)).

(** A heap but for the entry at [i], which may be above its children. *)
Definition down_inv (l : list A) (n i : nat) : Prop :=
  (forall c, 2 <= c <= n -> c / 2 <> i -> R (l !!! (c / 2)) (l !!! c)) /\
  (forall c, 2 <= c <= n -> c / 2 = i -> 2 <= i ->
             R (l !!! (i / 2)) (l !!! c)).

(** The entry at [i] moves up, one exchange with its parent at a time,
    until it is at the root or not below its parent. *)
Inductive swims : list A -> nat -> list A -> Prop :=
| swims_stop l i :
    i / 2 = 0 \/ R (l !!! (i / 2)) (l !!! i) -> swims l i l
| swims_step l i l' :
    1 <= i / 2 -> R (l !!! i) (l !!! (i / 2)) ->
    swims (swap l i (i / 2)) (i / 2) l' -> swims l i l'.

(** The entry at [i] moves down a heap of [n] entries, one exchange with
    its least child at a time, until no child is below it. *)
Inductive sinks (n : nat) : list A -> nat -> list A -> Prop :=
| sinks_stop l i :
    (forall c, 2 <= c <= n -> c / 2 = i -> R (l !!! i) (l !!! c)) ->
    sinks n l i l
| sinks_step l i j l' :
    2 <= j <= n -> j / 2 = i ->
    (forall c, 2 <= c <= n -> c / 2 = i -> c <> j -> R (l !!! j) (l !!! c)) ->
    R (l !!! j) (l !!! i) ->
    sinks n (swap l i j) j l' -> sinks n l i l'.

(** The entries at positions 1, ..., n. *)
Definition seg (l : list A) (n : nat) : list A := take n (drop 1 l).

End HeapOrder.

(** ** Collections *)

Section Collections.
Context {T : Type}.
Implicit Types (σ : list (IScoredValue T)) (r : nat) (s : TopNCollection.t T).
Implicit Types (cs : list (option T * float)).

(** The score of the object a reference names. *)
Definition key σ r : float := default 0%float (score <$> σ !! r).

Definition le_key σ : relation nat :=
  fun a b => Number.le (key σ a) (key σ b) = true.

(** [b] does not compare below [a]: what a failed [<] tells, also when one
    of the scores is NaN. *)
Definition ngt_key σ : relation nat :=
  fun a b => Number.lt (key σ b) (key σ a) = false.

(** The reference names an allocated object. *)
Definition valid σ r : Prop := is_Some (σ !! r).

(** The score of the object is a number. *)
Definition numeric σ r : Prop := Number.isNaN (key σ r) = false.

(** The objects the references of a list name. *)
Definition objs σ (l : list nat) : list (IScoredValue T) :=
  omap (fun r => σ !! r) l.

(** The references held in the slots of [_items]. *)
Definition slots s : list nat := omap id (TopNCollection._items s).

(** What the constructor and [add] maintain, whatever the scores:
    [_items] holds the sentinel and [_count] occupied slots, each with an
    object of its own, and [_count] is within the capacity. *)
Definition wf s : Prop :=
  TopNCollection._items s = Some <$> slots s /\
  length (slots s) = S (TopNCollection._count s) /\
  NoDup (slots s) /\
  Forall (valid (TopNCollection.objects s)) (slots s) /\
  TopNCollection._count s <= TopNCollection._maxCount s /\
  0 < TopNCollection._maxCount s.

(** The heap order of the occupied positions, over scores that are
    numbers. *)
Definition ordered s : Prop :=
  Forall (numeric (TopNCollection.objects s)) (slots s) /\
  heap_ordered (le_key (TopNCollection.objects s)) (slots s)
    (TopNCollection._count s).

(** The object [add] stores for a candidate. *)
Definition candidate (c : option T * float) : IScoredValue T :=
  {| value := c.1; score := c.2 |}.

(** The score of the candidate is a number. *)
Definition numeric_candidate (c : option T * float) : Prop :=
  Number.isNaN c.2 = false.

Definition lt_score : relation (IScoredValue T) :=
  fun a b => Number.lt (score a) (score b) = true.

(** Each candidate scores strictly more than the one before it. *)
Definition increasing cs : Prop := Sorted lt_score (candidate <$> cs).

End Collections.

(** ** Searches *)

Section Searches.
Context {T : Type} (vector : VectorMath).

(** The candidates [search] passes to [add]: the items from index [i] on
    whose score is at least [minScore], each with its score. *)
Fixpoint fed (this : VectorizedList.t T) (other : Embedding.t)
    (minScore : float)
    (embeddings : list Embedding.t) (i : nat) : list (option T * float) :=
  match embeddings with
  | [] => []
  | e :: rest =>
      let score := Embedding.cosineSimilarity vector e other in
      if Number.ge score minScore
      then (VectorizedList._items this !! i, score)
             :: fed this other minScore rest (i + 1)
      else fed this other minScore rest (i + 1)
  end.

End Searches.

(** ** Reachable collections *)

Section Reachable.
Context {T : Type}.

(** The sentinel object the constructor stores in slot 0. *)
Definition sentinel : IScoredValue T :=
  {| value := None; score := Number.MIN_VALUE |}.

(** The states a caller reaches without [clear]: the constructor, followed
    by calls of [add] and [sortDescending] in any order. *)
Inductive reachable : TopNCollection.t T -> Prop :=
| reachable_new maxCount s :
    TopNCollection.new maxCount = inr s -> reachable s
| reachable_add s v sc s' :
    reachable s -> TopNCollection.add v sc s = Ok tt s' -> reachable s'
| reachable_sortDescending s s' :
    reachable s -> TopNCollection.sortDescending s = Ok tt s' ->
    reachable s'.

(** The object store holds the sentinel, named by slot 0, and one object
    for each slot of [_items]. *)
Definition store_inv (s : TopNCollection.t T) : Prop :=
  slots s !! 0 = Some 0 /\
  TopNCollection.objects s !! 0 = Some sentinel /\
  length (TopNCollection.objects s) = length (slots s).

End Reachable.

(** ** Lists of embeddings *)

Section Lists.
Context {T : Type} (vector : VectorMath).

(** [add] called on each entry in turn; every embedding is present. *)
Fixpoint add_each (this : VectorizedList.t T)
    (entries : list (T * Embedding.t)) : exn + VectorizedList.t T :=
  match entries with
  | [] => inr this
  | (item, e) :: rest =>
      match VectorizedList.add vector this item (Some e) with
      | inl err => inl err
      | inr this' => add_each this' rest
      end
  end.

(** The scored value [similar] builds for the entry at index [i]. *)
Definition scored (this : VectorizedList.t T) (other : Embedding.t)
    (i : nat) (e : Embedding.t) : IScoredValue T :=
  {| value := VectorizedList._items this !! i;
     score := Embedding.cosineSimilarity vector e other |}.

(** The collection of capacity 1 that holds the entry of index [iNearest]
    with the score [best]; the new collection for the index -1. *)
Definition top1 (this : VectorizedList.t T) (best : float) (iNearest : Z)
  : TopNCollection.t T :=
  if (iNearest <? 0)%Z then TopNCollection.fresh 1
  else TopNCollection.mk
         [sentinel; {| value := VectorizedList._items this !! Z.to_nat iNearest;
                       score := best |}]
         [Some 0; Some 1] 1 1.

End Lists.

(** ** Histories *)

Section Histories.
Context {T Date : Type}.

(** A call of a method of [EventHistory] that changes it. *)
Inductive call : Type :=
| Append (now : Date) (d : T)
| Trim (count : Z).

Definition run_call (this : EventHistory.t T Date) (c : call)
  : EventHistory.t T Date :=
  match c with
  | Append now d => EventHistory.append this now d
  | Trim count => EventHistory.trim this count
  end.

(** The history after a sequence of calls on a new one. *)
Definition run (calls : list call) : EventHistory.t T Date :=
  fold_left run_call calls EventHistory.new.

(** The number of [append] calls among the calls. *)
Fixpoint appends (calls : list call) : nat :=
  match calls with
  | [] => 0
  | Append _ _ :: rest => S (appends rest)
  | Trim _ :: rest => appends rest
  end.

(** The sequence numbers of the events kept are consecutive and end at
    the counter. *)
Definition numbered (this : EventHistory.t T Date) : Prop :=
  forall i e,
    EventHistory._history this !! i = Some e ->
    EventHistory.seqNumber e + length (EventHistory._history this)
    = EventHistory._seqNumber this + i + 1.

End Histories.

(** ** Sample inputs *)

Module Samples.
Import TopNCollection.
Local Open Scope float_scope.
Local Open Scope string_scope.

(** The candidates of the scenario of the specification. *)
Definition scenario : list (option string * float) :=
  [(Some "A", 0.1); (Some "B", 0.5); (Some "C", 0.3); (Some "D", 0.9);
   (Some "E", 0.2)].

(** Five candidates with strictly increasing scores. *)
Definition rising : list (option string * float) :=
  [(Some "A", 0.1); (Some "B", 0.2); (Some "C", 0.3); (Some "D", 0.5);
   (Some "E", 0.9)].

(** [0 / 0], the number that is not a number. *)
Definition NaN : float := 0 / 0.

(** A candidate whose score is NaN, followed by one that scores 1. *)
Definition with_NaN : list (option string * float) :=
  [(Some "A", NaN); (Some "B", 1)].

(** A candidate whose score is NaN, between one that scores 1 and one that
    scores 0.5. *)
Definition NaN_between : list (option string * float) :=
  [(Some "A", 1); (Some "B", NaN); (Some "C", 0.5)].

(** A collection of capacity 1 holding ("A", 1). *)
Definition full_A : t string :=
  {| objects := [ {| value := None; score := Number.MIN_VALUE |};
                  {| value := Some "A"; score := 1 |} ];
     _items := [Some 0%nat; Some 1%nat];
     _count := 1;
     _maxCount := 1 |}.

(** The list of the scenario of the specification: "x" at [1, 0, 0] and
    "y" at [0, 1, 0], as [add] stores them. *)
Definition xy : VectorizedList.t string :=
  {| VectorizedList._items := ["x"; "y"];
     VectorizedList._embeddings :=
       [ {| Embedding.components := [1; 0; 0];
            Embedding._normalized := true |};
         {| Embedding.components := [0; 1; 0];
            Embedding._normalized := true |} ] |}.

(** A list holding "y" at [0, 1, 0] alone. *)
Definition only_y : VectorizedList.t string :=
  {| VectorizedList._items := ["y"];
     VectorizedList._embeddings :=
       [ {| Embedding.components := [0; 1; 0];
            Embedding._normalized := true |} ] |}.

(** The query [1, 0, 0]. *)
Definition query : Embedding.t := Embedding.new [1; 0; 0].

End Samples.

Module FurtherSamples.
Import TopNCollection Samples.
Local Open Scope float_scope.
Local Open Scope string_scope.

(** The collection of capacity 3 after the candidates of the scenario:
    the object of "A" was taken over for "D". *)
Definition full_CBD : t string :=
  {| objects := [ {| value := None; score := Number.MIN_VALUE |};
                  {| value := Some "D"; score := 0.9 |};
                  {| value := Some "B"; score := 0.5 |};
                  {| value := Some "C"; score := 0.3 |} ];
     _items := [Some 0%nat; Some 3%nat; Some 2%nat; Some 1%nat];
     _count := 3;
     _maxCount := 3 |}.

(** The same collection after [sortDescending]. *)
Definition sorted_DBC : t string :=
  {| objects := objects full_CBD;
     _items := [Some 0%nat; Some 1%nat; Some 2%nat; Some 3%nat];
     _count := 3;
     _maxCount := 3 |}.

(** The sentinel and the objects of three entries. *)
Definition three : list (IScoredValue string) :=
  [ {| value := None; score := Number.MIN_VALUE |};
    {| value := Some "B"; score := 0.5 |};
    {| value := Some "D"; score := 0.9 |};
    {| value := Some "C"; score := 0.3 |} ].

(** A list holding "first" and "second", both at [1, 0, 0]. *)
Definition twins : VectorizedList.t string :=
  {| VectorizedList._items := ["first"; "second"];
     VectorizedList._embeddings :=
       [ {| Embedding.components := [1; 0; 0];
            Embedding._normalized := true |};
         {| Embedding.components := [1; 0; 0];
            Embedding._normalized := true |} ] |}.

End FurtherSamples.

(* ================================================================== *)
(** * Lemmas *)
(* ================================================================== *)

(** ** The order of numbers *)

Ltac sf_cases :=
  repeat match goal with
  | |- context [Z.compare ?a ?b] => destruct (Z.compare_spec a b)
  | |- context [Pos.compare_cont Eq ?a ?b] =>
      change (Pos.compare_cont Eq a b) with (Pos.compare a b);
      destruct (Pos.compare_spec a b)
  end; simpl; try congruence; try lia.

Lemma SFleb_trans a b c :
  SFleb a b = true -> SFleb b c = true -> SFleb a c = true.
Proof.
  unfold SFleb, SFcompare.
  destruct a as [[]|[]| |[] ma ea], b as [[]|[]| |[] mb eb],
    c as [[]|[]| |[] mc ec];
    try (intros; congruence); try reflexivity; sf_cases.
Qed.

Lemma SFcompare_refl a : a <> S754_nan -> SFcompare a a = Some Eq.
Proof.
  destruct a as [[]|[]| |[] m e]; simpl; try congruence;
    rewrite Z.compare_refl;
    change (Pos.compare_cont Eq m m) with (Pos.compare m m);
    rewrite Pos.compare_refl; reflexivity.
Qed.

Lemma SFltb_false_leb a b :
  a <> S754_nan -> b <> S754_nan -> SFltb a b = false -> SFleb b a = true.
Proof.
  unfold SFleb, SFltb, SFcompare.
  destruct a as [[]|[]| |[] ma ea], b as [[]|[]| |[] mb eb];
    try (intros; congruence); try reflexivity; sf_cases.
Qed.

Lemma SFltb_leb a b : SFltb a b = true -> SFleb a b = true.
Proof. unfold SFltb, SFleb. destruct (SFcompare a b) as [[]|]; congruence. Qed.

Lemma SFleb_ltb_false a b : SFleb a b = true -> SFltb b a = false.
Proof.
  unfold SFleb, SFltb, SFcompare.
  destruct a as [[]|[]| |[] ma ea], b as [[]|[]| |[] mb eb];
    try (intros; congruence); try reflexivity; sf_cases.
Qed.

Lemma SFleb_not_nan a b :
  SFleb a b = true -> a <> S754_nan /\ b <> S754_nan.
Proof.
  unfold SFleb, SFcompare.
  destruct a as [[]|[]| |[] ma ea], b as [[]|[]| |[] mb eb];
    intros; split; congruence.
Qed.

Lemma number_isNaN_false x : Number.isNaN x = false <-> Prim2SF x <> S754_nan.
Proof.
  unfold Number.isNaN. rewrite FloatAxioms.eqb_spec. unfold SFeqb. split.
  - intros H E. rewrite E in H. discriminate.
  - intros H. rewrite SFcompare_refl by assumption. reflexivity.
Qed.

Lemma number_le_trans x y z :
  Number.le x y = true -> Number.le y z = true -> Number.le x z = true.
Proof. unfold Number.le. rewrite !FloatAxioms.leb_spec. apply SFleb_trans. Qed.

Lemma number_le_refl x : Number.isNaN x = false -> Number.le x x = true.
Proof.
  intros H. apply number_isNaN_false in H. unfold Number.le.
  rewrite FloatAxioms.leb_spec.
  unfold SFleb. rewrite SFcompare_refl by assumption. reflexivity.
Qed.

Lemma number_lt_false_le x y :
  Number.isNaN x = false -> Number.isNaN y = false ->
  Number.lt x y = false -> Number.le y x = true.
Proof.
  unfold Number.lt, Number.le.
  rewrite FloatAxioms.ltb_spec, FloatAxioms.leb_spec, !number_isNaN_false.
  apply SFltb_false_leb.
Qed.

Lemma number_lt_le x y : Number.lt x y = true -> Number.le x y = true.
Proof.
  unfold Number.lt, Number.le.
  rewrite FloatAxioms.ltb_spec, FloatAxioms.leb_spec. apply SFltb_leb.
Qed.

Lemma number_le_lt_false x y : Number.le x y = true -> Number.lt y x = false.
Proof.
  unfold Number.lt, Number.le.
  rewrite FloatAxioms.ltb_spec, FloatAxioms.leb_spec. apply SFleb_ltb_false.
Qed.

Lemma number_le_not_nan x y :
  Number.le x y = true -> Number.isNaN x = false /\ Number.isNaN y = false.
Proof.
  unfold Number.le. rewrite FloatAxioms.leb_spec, !number_isNaN_false.
  apply SFleb_not_nan.
Qed.

Lemma number_le_false_le x y :
  Number.isNaN x = false -> Number.isNaN y = false ->
  Number.le x y = false -> Number.le y x = true.
Proof.
  intros Hx Hy H. destruct (Number.lt y x) eqn:E.
  - by apply number_lt_le.
  - rewrite (number_lt_false_le y x) in H; done.
Qed.

Lemma SFltb_asym a b : SFltb a b = true -> SFltb b a = false.
Proof.
  unfold SFltb, SFcompare.
  destruct a as [[]|[]| |[] ma ea], b as [[]|[]| |[] mb eb];
    try (intros; congruence); try reflexivity; sf_cases.
Qed.

Lemma SFleb_ltb_ltb a b c :
  SFleb a b = true -> SFltb c b = false -> SFltb c a = false.
Proof.
  unfold SFleb, SFltb, SFcompare.
  destruct a as [[]|[]| |[] ma ea], b as [[]|[]| |[] mb eb],
    c as [[]|[]| |[] mc ec];
    try (intros; congruence); try reflexivity; sf_cases.
Qed.

Lemma number_lt_asym x y : Number.lt x y = true -> Number.lt y x = false.
Proof. unfold Number.lt. rewrite !FloatAxioms.ltb_spec. apply SFltb_asym. Qed.

Lemma number_le_nlt_nlt x y z :
  Number.le x y = true -> Number.lt z y = false -> Number.lt z x = false.
Proof.
  unfold Number.lt, Number.le.
  rewrite !FloatAxioms.ltb_spec, FloatAxioms.leb_spec. apply SFleb_ltb_ltb.
Qed.

Lemma number_le_false_nlt x y : Number.le x y = false -> Number.lt x y = false.
Proof.
  intros H. destruct (Number.lt x y) eqn:E; [|done].
  apply number_lt_le in E. congruence.
Qed.

Lemma number_lt_not_nan x y :
  Number.lt x y = true -> Number.isNaN x = false /\ Number.isNaN y = false.
Proof. intros H. by apply number_le_not_nan, number_lt_le. Qed.

Lemma SFltb_trans a b c :
  SFltb a b = true -> SFltb b c = true -> SFltb a c = true.
Proof.
  unfold SFltb, SFcompare.
  destruct a as [[]|[]| |[] ma ea], b as [[]|[]| |[] mb eb],
    c as [[]|[]| |[] mc ec];
    try (intros; congruence); try reflexivity; sf_cases.
Qed.

Lemma number_lt_trans x y z :
  Number.lt x y = true -> Number.lt y z = true -> Number.lt x z = true.
Proof. unfold Number.lt. rewrite !FloatAxioms.ltb_spec. apply SFltb_trans. Qed.

Lemma SFeqb_ltb_false a b : SFeqb a b = true -> SFltb a b = false.
Proof. unfold SFeqb, SFltb. destruct (SFcompare a b) as [[]|]; congruence. Qed.

Lemma number_eqb_lt_false x y :
  PrimFloat.eqb x y = true -> Number.lt x y = false.
Proof.
  unfold Number.lt. rewrite FloatAxioms.eqb_spec, FloatAxioms.ltb_spec.
  apply SFeqb_ltb_false.
Qed.


(** ** Heaps in arrays *)

Section HeapOrderFacts.
Context {A : Type} `{!Inhabited A} (R : relation A).
Implicit Types l : list A.

Lemma length_swap l i j : length (swap l i j) = length l.
Proof. unfold swap. by rewrite !length_insert. Qed.

Lemma lookup_total_swap l i j k :
  i < length l -> j < length l ->
  swap l i j !!! k =
    if decide (k = i) then l !!! j
    else if decide (k = j) then l !!! i else l !!! k.
Proof.
  intros Hi Hj. unfold swap.
  destruct (decide (k = i)) as [->|Hki].
  - rewrite list_lookup_total_insert_eq; [done|]. by rewrite length_insert.
  - rewrite list_lookup_total_insert_ne by done.
    destruct (decide (k = j)) as [->|Hkj].
    + by rewrite list_lookup_total_insert_eq.
    + by rewrite list_lookup_total_insert_ne.
Qed.

Lemma lookup_swap_other l i j k :
  k <> i -> k <> j -> swap l i j !! k = l !! k.
Proof.
  intros. unfold swap. by rewrite !list_lookup_insert_ne.
Qed.

Lemma list_split_two (l : list A) i j :
  i < j -> j < length l ->
  exists l1 x l2 y l3,
    l = l1 ++ x :: l2 ++ y :: l3 /\ length l1 = i /\ j = i + S (length l2).
Proof.
  intros Hij Hj.
  destruct (lookup_lt_is_Some_2 l j Hj) as [y Hy].
  assert (Hx' : is_Some (take j l !! i)).
  { apply lookup_lt_is_Some_2. rewrite length_take. lia. }
  destruct Hx' as [x Hx].
  exists (take i (take j l)), x, (drop (S i) (take j l)), y, (drop (S j) l).
  split; [|split].
  - rewrite app_comm_cons, app_assoc, (take_drop_middle _ i x Hx).
    by rewrite (take_drop_middle _ j y Hy).
  - rewrite !length_take. lia.
  - rewrite length_drop, length_take. lia.
Qed.

Lemma swap_Permutation l i j :
  i < length l -> j < length l -> swap l i j ≡ₚ l.
Proof.
  assert (Hlt : forall i j, i < j -> j < length l -> swap l i j ≡ₚ l).
  { clear i j. intros i j Hij Hj. unfold swap.
    destruct (list_split_two l i j Hij Hj)
      as (l1 & x & l2 & y & l3 & -> & Hl1 & ->).
    assert (Hx : (l1 ++ x :: l2 ++ y :: l3) !!! i = x).
    { apply list_lookup_total_correct.
      rewrite lookup_app_r by lia. by rewrite Hl1, Nat.sub_diag. }
    assert (Hy : (l1 ++ x :: l2 ++ y :: l3) !!! (i + S (length l2)) = y).
    { apply list_lookup_total_correct.
      rewrite lookup_app_r by lia.
      replace (i + S (length l2) - length l1) with (S (length l2)) by lia.
      simpl. rewrite lookup_app_r by lia. by rewrite Nat.sub_diag. }
    rewrite Hx, Hy.
    rewrite (insert_app_r_alt l1 _ (i + S (length l2))) by lia.
    replace (i + S (length l2) - length l1) with (S (length l2)) by lia.
    simpl. rewrite (insert_app_r_alt l2) by lia. rewrite Nat.sub_diag. simpl.
    rewrite insert_app_r_alt by lia. rewrite Hl1, Nat.sub_diag. simpl.
    f_equiv. rewrite <-!Permutation_middle. apply Permutation_swap. }
  intros Hi Hj. destruct (Nat.lt_trichotomy i j) as [?|[->|?]].
  - by apply Hlt.
  - unfold swap. rewrite list_insert_insert_eq.
    rewrite list_insert_id; [done|]. by apply list_lookup_lookup_total_lt.
  - rewrite <-(Hlt j i) at 2 by done. unfold swap.
    by rewrite list_insert_insert_ne by lia.
Qed.

Context `{!Transitive R}.

Lemma up_inv_step l n i :
  i < length l -> 2 <= i ->
  up_inv R l n i -> R (l !!! i) (l !!! (i / 2)) ->
  up_inv R (swap l i (i / 2)) n (i / 2).
Proof.
  intros Hi Hi2 [Hpc Hgc] Hlt.
  assert (Hp : i / 2 < length l) by lia.
  assert (i / 2 < i) by lia.
  split.
  - intros c Hc Hne. rewrite !lookup_total_swap by done.
    repeat case_decide; subst; try lia; eauto.
    etrans; [apply Hlt|]. replace (i / 2) with (c / 2) by lia.
    apply Hpc; lia.
  - intros c Hc Hci Hi4. rewrite !lookup_total_swap by done.
    repeat case_decide; subst; try lia.
    + apply Hpc; lia.
    + etrans; [apply (Hpc (i / 2)); lia|]. rewrite <-Hci. apply Hpc; lia.
Qed.

Lemma up_inv_exit l n i :
  up_inv R l n i -> i / 2 = 0 \/ R (l !!! (i / 2)) (l !!! i) ->
  heap_ordered R l n.
Proof.
  intros [Hpc _] Hstop c Hc. destruct (decide (c = i)) as [->|]; [|eauto].
  destruct Hstop; [lia|done].
Qed.

Lemma heap_ordered_up_inv l n :
  heap_ordered R l n -> up_inv R l (S n) (S n).
Proof.
  intros Hh. split.
  - intros c Hc Hne. apply Hh. lia.
  - intros c Hc Hci _. lia.
Qed.

Lemma heap_ordered_up_inv_pred l n :
  heap_ordered R l (n - 1) -> up_inv R l n n.
Proof.
  intros Hh. split.
  - intros c Hc Hne. apply Hh. lia.
  - intros c Hc Hci _. lia.
Qed.

Lemma swims_length l i l' : swims R l i l' -> length l' = length l.
Proof.
  induction 1 as [|l i l' ? ? ? IH]; [done|]. by rewrite IH, length_swap.
Qed.

Lemma swims_Permutation l i l' :
  i < length l -> swims R l i l' -> l' ≡ₚ l.
Proof.
  intros Hi Hs. induction Hs as [|l i l' ? ? ? IH]; [done|].
  rewrite IH by (rewrite length_swap; lia).
  apply swap_Permutation; lia.
Qed.

Lemma swims_unchanged l i l' k :
  swims R l i l' -> k = 0 \/ i < k -> l' !! k = l !! k.
Proof.
  intros Hs. induction Hs as [|l i l' ? ? ? IH]; [done|]. intros Hk.
  rewrite IH by lia. apply lookup_swap_other; lia.
Qed.

Lemma swims_heap_ordered l n i l' :
  i < length l -> swims R l i l' -> up_inv R l n i -> heap_ordered R l' n.
Proof.
  intros Hi Hs. induction Hs as [l i Hstop|l i l' ? ? ? IH]; intros Hinv.
  - by eapply up_inv_exit.
  - apply IH; [rewrite length_swap; lia|]. apply up_inv_step; [done|lia|done..].
Qed.

Lemma down_inv_step l n i j :
  i < length l -> j < length l -> 2 <= j <= n -> j / 2 = i ->
  down_inv R l n i ->
  (forall c, 2 <= c <= n -> c / 2 = i -> c <> j -> R (l !!! j) (l !!! c)) ->
  R (l !!! j) (l !!! i) ->
  down_inv R (swap l i j) n j.
Proof.
  intros Hi Hj Hjn Hji [Hpc Hgc] Hmin Hlt.
  assert (i < j) by lia.
  split.
  - intros c Hc Hne. rewrite !lookup_total_swap by done.
    repeat case_decide; subst; try lia; eauto;
      first [apply Hgc; lia | apply Hmin; lia | apply Hpc; lia].
  - intros c Hc Hcj Hj2. rewrite !lookup_total_swap by done.
    repeat case_decide; subst; try lia. apply Hpc; lia.
Qed.

Lemma down_inv_exit l n i :
  down_inv R l n i ->
  (forall c, 2 <= c <= n -> c / 2 = i -> R (l !!! i) (l !!! c)) ->
  heap_ordered R l n.
Proof.
  intros [Hpc _] Hstop c Hc.
  destruct (decide (c / 2 = i)) as [<-|]; eauto.
Qed.

Lemma sinks_length n l i l' : sinks R n l i l' -> length l' = length l.
Proof.
  induction 1 as [|l i j l' ? ? ? ? ? IH]; [done|].
  by rewrite IH, length_swap.
Qed.

Lemma sinks_Permutation n l i l' :
  n < length l -> sinks R n l i l' -> l' ≡ₚ l.
Proof.
  intros Hn Hs. induction Hs as [|l i j l' ? ? ? ? ? IH]; [done|].
  rewrite IH by (rewrite length_swap; lia).
  apply swap_Permutation; lia.
Qed.

Lemma sinks_unchanged n l i l' k :
  sinks R n l i l' -> k < i \/ n < k -> l' !! k = l !! k.
Proof.
  intros Hs. induction Hs as [|l i j l' ? ? ? ? ? IH]; [done|]. intros Hk.
  rewrite IH by lia. apply lookup_swap_other; lia.
Qed.

Lemma sinks_heap_ordered n l i l' :
  n < length l -> sinks R n l i l' -> down_inv R l n i -> heap_ordered R l' n.
Proof.
  intros Hn Hs.
  induction Hs as [l i Hstop|l i j l' ? ? ? ? ? IH]; intros Hinv.
  - by eapply down_inv_exit.
  - apply IH; [rewrite length_swap; lia|].
    apply down_inv_step; [lia|lia|done..].
Qed.

(** Entries past the heap do not matter to a sift-down. *)
Lemma sinks_frame n l i l' k x :
  n < k -> n < length l -> sinks R n l i l' ->
  sinks R n (<[k := x]> l) i (<[k := x]> l').
Proof.
  intros Hk Hn Hs. induction Hs as [l i Hstop|l i j l' Hj Hji Hmin Hlt ? IH].
  - apply sinks_stop. intros c Hc Hci.
    rewrite !list_lookup_total_insert_ne by lia. by apply Hstop.
  - assert (Hsw : swap (<[k:=x]> l) i j = <[k:=x]> (swap l i j)).
    { unfold swap. rewrite !list_lookup_total_insert_ne by lia.
      rewrite (list_insert_insert_ne _ j k) by lia.
      by rewrite (list_insert_insert_ne _ i k) by lia. }
    eapply sinks_step; [done|done|..].
    + intros c Hc Hci Hne. rewrite !list_lookup_total_insert_ne by lia.
      by apply Hmin.
    + by rewrite !list_lookup_total_insert_ne by lia.
    + rewrite Hsw. apply IH. by rewrite length_swap.
Qed.

Lemma heap_ordered_top l n :
  heap_ordered R l n -> R (l !!! 1) (l !!! 1) ->
  forall j, 1 <= j <= n -> R (l !!! 1) (l !!! j).
Proof.
  intros Hh Hrefl j. induction (lt_wf j) as [j _ IH]. intros Hj.
  destruct (decide (j = 1)) as [->|]; [done|].
  etrans; [apply (IH (j / 2)); lia|]. apply Hh. lia.
Qed.

Lemma heap_ordered_down_inv l n x :
  heap_ordered R l n -> down_inv R (<[1 := x]> l) n 1.
Proof.
  intros Hh. split; [|lia].
  intros c Hc Hne. rewrite !list_lookup_total_insert_ne by lia.
  apply Hh. lia.
Qed.

Lemma heap_ordered_shrink l n n' :
  n' <= n -> heap_ordered R l n -> heap_ordered R l n'.
Proof. intros Hle Hh c Hc. apply Hh. lia. Qed.
End HeapOrderFacts.

Section Weaken.
Context {A : Type} `{!Inhabited A} (R R' : relation A).
Implicit Types l : list A.

Lemma elem_of_swap (l : list A) i j a :
  i < length l -> j < length l -> a ∈ swap l i j <-> a ∈ l.
Proof. intros Hi Hj. by rewrite swap_Permutation. Qed.

Lemma swims_weaken l i l' :
  i < length l ->
  (forall a b, a ∈ l -> b ∈ l -> R a b -> R' a b) ->
  swims R l i l' -> swims R' l i l'.
Proof.
  intros Hi HR Hs. induction Hs as [l i Hstop|l i l' Hp Hlt Hs IH].
  - apply swims_stop. destruct Hstop as [?|Hstop]; [by left|right].
    apply HR; [apply list_elem_of_lookup_total_2; lia..|done].
  - assert (i / 2 < length l) by lia.
    apply swims_step; [done| |].
    + apply HR; [by apply list_elem_of_lookup_total_2..|done].
    + apply IH; [by rewrite length_swap|].
      intros a b Ha Hb. rewrite elem_of_swap in Ha, Hb by done. by apply HR.
Qed.

Lemma sinks_weaken n l i l' :
  i < length l -> n < length l ->
  (forall a b, a ∈ l -> b ∈ l -> R a b -> R' a b) ->
  sinks R n l i l' -> sinks R' n l i l'.
Proof.
  intros Hi Hn HR Hs.
  induction Hs as [l i Hstop|l i j l' Hj Hji Hmin Hlt Hs IH].
  - apply sinks_stop. intros c Hc Hci.
    apply HR; [apply list_elem_of_lookup_total_2; lia..|by apply Hstop].
  - assert (j < length l) by lia.
    eapply sinks_step; [done|done| | |].
    + intros c Hc Hci Hne.
      apply HR; [apply list_elem_of_lookup_total_2; lia..|by apply Hmin].
    + apply HR; [by apply list_elem_of_lookup_total_2..|done].
    + apply IH; [by rewrite length_swap..|].
      intros a b Ha Hb. rewrite elem_of_swap in Ha, Hb by done. by apply HR.
Qed.
End Weaken.

Section Segments.
Context {A : Type} `{!Inhabited A}.
Implicit Types l : list A.

Lemma length_seg l n : n < length l -> length (seg l n) = n.
Proof. intros Hn. unfold seg. rewrite length_take, length_drop. lia. Qed.

Lemma lookup_seg l n i : i < n -> seg l n !! i = l !! S i.
Proof. intros Hi. unfold seg. by rewrite lookup_take_lt, lookup_drop. Qed.

Lemma elem_of_seg l n a :
  n < length l -> a ∈ seg l n <-> exists k, 1 <= k <= n /\ l !!! k = a.
Proof.
  intros Hn. rewrite list_elem_of_lookup. split.
  - intros [i Hi].
    assert (i < n).
    { apply lookup_lt_Some in Hi. rewrite length_seg in Hi; lia. }
    rewrite lookup_seg in Hi by done. exists (S i). split; [lia|].
    by apply list_lookup_total_correct.
  - intros (k & Hk & <-). exists (k - 1).
    rewrite lookup_seg by lia. replace (S (k - 1)) with k by lia.
    apply list_lookup_lookup_total_lt. lia.
Qed.

Lemma seg_snoc l n :
  S n < length l -> seg l (S n) = seg l n ++ [l !!! S n].
Proof.
  intros Hn. unfold seg. apply take_S_r. rewrite lookup_drop.
  apply list_lookup_lookup_total_lt. lia.
Qed.

Lemma seg_app_r l n x : length l = S n -> seg (l ++ [x]) (S n) = seg l n ++ [x].
Proof.
  intros Hl. rewrite seg_snoc by (rewrite length_app; simpl; lia).
  f_equal.
  - unfold seg. rewrite drop_app_le by lia. rewrite take_app_le; [done|].
    rewrite length_drop. lia.
  - f_equal. apply list_lookup_total_correct.
    rewrite lookup_app_r by lia. by rewrite Hl, Nat.sub_diag.
Qed.

Lemma seg_Permutation l l' n :
  l' ≡ₚ l -> (forall k, k = 0 \/ n < k -> l' !! k = l !! k) ->
  seg l' n ≡ₚ seg l n.
Proof.
  intros Hp Hout.
  assert (Hl : l = take 1 l ++ seg l n ++ drop (S n) l).
  { unfold seg. change (S n) with (1 + n). rewrite <-(drop_drop l n 1).
    by rewrite (take_drop n (drop 1 l)), take_drop. }
  assert (Hl' : l' = take 1 l' ++ seg l' n ++ drop (S n) l').
  { unfold seg. change (S n) with (1 + n). rewrite <-(drop_drop l' n 1).
    by rewrite (take_drop n (drop 1 l')), take_drop. }
  assert (Ht : take 1 l' = take 1 l).
  { apply list_eq. intros k. destruct (decide (k < 1)).
    - rewrite !lookup_take_lt by done. apply Hout. lia.
    - by rewrite !lookup_take_ge by lia. }
  assert (Hd : drop (S n) l' = drop (S n) l).
  { apply list_eq. intros k. rewrite !lookup_drop. apply Hout. lia. }
  rewrite Hl, Hl', Ht, Hd in Hp.
  apply Permutation_app_inv_l in Hp. by apply Permutation_app_inv_r in Hp.
Qed.
End Segments.

(** ** The methods of TopNCollection *)

Lemma shiftr_1 i : Nat.shiftr i 1 = i / 2.
Proof. by rewrite Nat.shiftr_div_pow2. Qed.

Lemma bind_Ok {S A B} (c : M S A) (k : A -> M S B) s a s' :
  c s = Ok a s' -> bind c k s = k a s'.
Proof. unfold bind. by intros ->. Qed.

Section ArrayFacts.
Context {A : Type} `{!Inhabited A}.

Lemma array_get_Some (l : list A) i :
  i < length l -> array_get (Some <$> l) i = Some (l !!! i).
Proof.
  intros Hi. unfold array_get. rewrite list_lookup_fmap.
  by rewrite (list_lookup_lookup_total_lt l i Hi).
Qed.

Lemma array_get_fmap (l : list A) i :
  array_get (Some <$> l) i = l !! i.
Proof.
  unfold array_get. rewrite list_lookup_fmap. by destruct (l !! i).
Qed.

Lemma array_set_Some (l : list A) i x :
  i < length l -> array_set (Some <$> l) i (Some x) = Some <$> <[i := x]> l.
Proof.
  intros Hi. unfold array_set. rewrite length_fmap.
  destruct (Nat.ltb_spec i (length l)); [|lia].
  by rewrite list_fmap_insert.
Qed.

Lemma array_push_Some (l : list A) x :
  array_push (Some <$> l) (Some x) = Some <$> (l ++ [x]).
Proof. unfold array_push. by rewrite fmap_app. Qed.
End ArrayFacts.

Section Removal.
Context {A : Type} `{!Inhabited A} (R : relation A).

(** Taking the top out of a heap of [n] entries: the last entry moves to
    the top and sinks; with the old top written back at position [n], the
    array is the original with positions 1 and [n] exchanged, sunk. *)
Lemma sinks_removeTop (l l1 : list A) n :
  1 <= n -> n < length l ->
  sinks R (n - 1) (<[1 := l !!! n]> l) 1 l1 ->
  sinks R (n - 1) (swap l 1 n) 1 (<[n := l !!! 1]> l1).
Proof.
  intros H1 Hn Hs.
  assert (Hsw : swap l 1 n = <[n := l !!! 1]> (<[1 := l !!! n]> l)).
  { unfold swap. destruct (decide (n = 1)) as [->|Hne]; [done|].
    by rewrite list_insert_insert_ne by lia. }
  rewrite Hsw. apply sinks_frame; [lia| |done]. rewrite length_insert. lia.
Qed.

Lemma heap_ordered_swap_down_inv (l : list A) n :
  1 <= n -> n < length l ->
  heap_ordered R l n -> down_inv R (swap l 1 n) (n - 1) 1.
Proof.
  intros H1 Hn Hh. split; [|lia].
  intros c Hc Hne. rewrite !lookup_total_swap by lia.
  repeat case_decide; try lia. apply Hh. lia.
Qed.

Lemma heap_ordered_ext (R' : relation A) (l l' : list A) n :
  (forall c, 1 <= c <= n -> l' !!! c = l !!! c) ->
  (forall c d, 1 <= c <= n -> 1 <= d <= n ->
               R (l !!! c) (l !!! d) -> R' (l !!! c) (l !!! d)) ->
  heap_ordered R l n -> heap_ordered R' l' n.
Proof.
  intros Heq HR Hh c Hc. rewrite !Heq by lia. apply HR; [lia..|].
  by apply Hh.
Qed.

Lemma removal_facts (l l1 : list A) n :
  1 <= n -> n < length l ->
  sinks R (n - 1) (<[1 := l !!! n]> l) 1 l1 ->
  let l3 := <[n := l !!! 1]> l1 in
  length l3 = length l /\ l3 ≡ₚ l /\ l3 !!! n = l !!! 1 /\
  (forall k, k = 0 \/ n < k -> l3 !! k = l !! k) /\
  seg l3 n ≡ₚ seg l n.
Proof.
  intros H1 Hn Hs l3.
  pose proof (sinks_removeTop _ _ _ H1 Hn Hs) as Hs3. fold l3 in Hs3.
  assert (Hlen : length l3 = length l).
  { erewrite sinks_length by exact Hs3. apply length_swap. }
  assert (Hperm : l3 ≡ₚ l).
  { etrans; [eapply sinks_Permutation; [|exact Hs3]|].
    - rewrite length_swap. lia.
    - apply swap_Permutation; lia. }
  assert (Hout : forall k, k = 0 \/ n < k -> l3 !! k = l !! k).
  { intros k Hk. erewrite sinks_unchanged; [|exact Hs3|lia].
    apply lookup_swap_other; lia. }
  split; [done|]. split; [done|]. split; [|split; [done|]].
  - unfold l3. apply list_lookup_total_insert_eq.
    unfold l3 in Hlen. rewrite length_insert in Hlen. lia.
  - by apply seg_Permutation.
Qed.

Lemma removal_heap_ordered `{!Transitive R} (l l1 : list A) n :
  1 <= n -> n < length l ->
  sinks R (n - 1) (<[1 := l !!! n]> l) 1 l1 ->
  heap_ordered R l n ->
  heap_ordered R (<[n := l !!! 1]> l1) (n - 1).
Proof.
  intros H1 Hn Hs Hh.
  eapply sinks_heap_ordered; [|by apply sinks_removeTop|].
  - rewrite length_swap. lia.
  - by apply heap_ordered_swap_down_inv.
Qed.
End Removal.

Section Refs.
Import TopNCollection.
Context {T : Type}.
Implicit Types (σ : list (IScoredValue T)) (r x : ref) (rs : list ref).
Implicit Types (s : t T).

Global Instance le_key_trans σ : Transitive (le_key σ).
Proof. intros a b c. apply number_le_trans. Qed.

Lemma valid_lt σ r : valid σ r <-> r < length σ.
Proof. apply lookup_lt_is_Some. Qed.

Lemma le_key_refl σ r : numeric σ r -> le_key σ r r.
Proof. apply number_le_refl. Qed.

Lemma ngt_le_key σ a b :
  numeric σ a -> numeric σ b -> ngt_key σ a b -> le_key σ a b.
Proof. intros Ha Hb H. by apply number_lt_false_le. Qed.

Lemma items_get_Some σ rs n m i :
  i < length rs ->
  items_get i (mk σ (Some <$> rs) n m)
  = Ok (Some (rs !!! i)) (mk σ (Some <$> rs) n m).
Proof. intros Hi. unfold items_get. simpl. by rewrite array_get_Some. Qed.

Lemma items_set_Some σ rs n m i x :
  i < length rs ->
  items_set i (Some x) (mk σ (Some <$> rs) n m)
  = Ok tt (mk σ (Some <$> <[i := x]> rs) n m).
Proof. intros Hi. unfold items_set. simpl. by rewrite array_set_Some. Qed.

Lemma score_of_valid σ items n m r :
  valid σ r ->
  score_of (Some r) (mk σ items n m) = Ok (key σ r) (mk σ items n m).
Proof. intros [o Ho]. unfold score_of, key. simpl. by rewrite Ho. Qed.

Lemma Forall_valid_lookup σ rs i :
  Forall (valid σ) rs -> i < length rs -> valid σ (rs !!! i).
Proof.
  intros Hv Hi. eapply Forall_lookup_1; [done|].
  by apply list_lookup_lookup_total_lt.
Qed.

Lemma swap_hole rs i p x :
  i <> p -> i < length rs -> p < length rs ->
  <[p := x]> (<[i := rs !!! p]> rs) = swap (<[i := x]> rs) i p.
Proof.
  intros Hne Hi Hp. unfold swap.
  rewrite list_lookup_total_insert_eq by done.
  rewrite list_lookup_total_insert_ne by done.
  rewrite (list_insert_insert_ne _ p i) by done.
  rewrite (list_insert_insert_ne (<[i:=x]> rs) i p) by done.
  rewrite list_insert_insert_eq. by rewrite list_insert_insert_ne.
Qed.

Lemma upHeap_loop_spec σ n m x fuel : forall rs i,
  i < length rs -> i < fuel ->
  Forall (valid σ) (<[i := x]> rs) ->
  exists i' rs',
    upHeap_loop fuel (Some x) i (i / 2) (mk σ (Some <$> rs) n m)
    = Ok i' (mk σ (Some <$> rs') n m) /\
    i' < length rs' /\
    swims (ngt_key σ) (<[i := x]> rs) i (<[i' := x]> rs').
Proof.
  induction fuel as [|fuel IH]; intros rs i Hi Hfuel Hv; [lia|].
  cbn [upHeap_loop]. destruct (Nat.ltb_spec 0 (i / 2)) as [Hp|Hp].
  - assert (Hpi : i / 2 < i) by lia.
    assert (Hpl : i / 2 < length rs) by lia.
    assert (Hvp : valid σ (rs !!! (i / 2))).
    { rewrite <-(list_lookup_total_insert_ne rs i (i / 2) x) by lia.
      apply Forall_valid_lookup; [done|]. rewrite length_insert. lia. }
    assert (Hvx : valid σ x).
    { rewrite <-(list_lookup_total_insert_eq rs i x) by done.
      apply Forall_valid_lookup; [done|]. by rewrite length_insert. }
    rewrite (bind_Ok _ _ _ _ _ (items_get_Some _ _ _ _ _ Hpl)).
    rewrite (bind_Ok _ _ _ _ _ (score_of_valid _ _ _ _ _ Hvp)).
    rewrite (bind_Ok _ _ _ _ _ (score_of_valid _ _ _ _ _ Hvx)).
    unfold Number.gt. destruct (PrimFloat.ltb _ _) eqn:Hlt.
    + rewrite (bind_Ok _ _ _ _ _ (items_get_Some _ _ _ _ _ Hpl)).
      rewrite (bind_Ok _ _ _ _ _ (items_set_Some _ _ _ _ _ _ Hi)).
      rewrite shiftr_1.
      assert (Hsw : <[i / 2 := x]> (<[i := rs !!! (i / 2)]> rs)
                    = swap (<[i := x]> rs) i (i / 2))
        by (apply swap_hole; lia).
      destruct (IH (<[i := rs !!! (i / 2)]> rs) (i / 2))
        as (i' & rs' & Hrun & Hi' & Hsw').
      { rewrite length_insert. lia. }
      { lia. }
      { rewrite Hsw, swap_Permutation; [done|rewrite length_insert; lia..]. }
      exists i', rs'. split; [done|]. split; [done|].
      eapply swims_step; [lia| |by rewrite <-Hsw].
      unfold ngt_key. rewrite list_lookup_total_insert_eq by done.
      rewrite list_lookup_total_insert_ne by lia.
      by apply number_lt_asym.
    + exists i, rs. split; [done|]. split; [done|].
      apply swims_stop. right.
      unfold ngt_key. rewrite list_lookup_total_insert_eq by done.
      by rewrite list_lookup_total_insert_ne by lia.
  - exists i, rs. split; [done|]. split; [done|].
    apply swims_stop. left. lia.
Qed.

Lemma upHeap_spec σ n m rs k :
  k < length rs -> Forall (valid σ) rs ->
  exists rs',
    upHeap k (mk σ (Some <$> rs) n m) = Ok tt (mk σ (Some <$> rs') n m) /\
    swims (ngt_key σ) rs k rs'.
Proof.
  intros Hk Hv. unfold upHeap.
  rewrite (bind_Ok _ _ _ _ _ (items_get_Some _ _ _ _ _ Hk)).
  assert (Hid : <[k := rs !!! k]> rs = rs).
  { apply list_insert_id. by apply list_lookup_lookup_total_lt. }
  destruct (upHeap_loop_spec σ n m (rs !!! k) (S k) rs k)
    as (i' & rs' & Hrun & Hi' & Hsw); [done|lia|by rewrite Hid|].
  rewrite shiftr_1, (bind_Ok _ _ _ _ _ Hrun).
  rewrite items_set_Some by done.
  exists (<[i' := rs !!! k]> rs'). split; [done|]. by rewrite Hid in Hsw.
Qed.

Lemma get_count_eq σ items n m :
  get_count (mk σ items n m) = Ok n (mk σ items n m).
Proof. done. Qed.

Lemma downHeap_loop_spec σ n m x fuel : forall rs i,
  1 <= i -> i < length rs -> n < length rs -> n - i < fuel ->
  Forall (valid σ) (<[i := x]> rs) ->
  exists i' rs',
    downHeap_loop fuel (Some x) (n / 2) i (mk σ (Some <$> rs) n m)
    = Ok i' (mk σ (Some <$> rs') n m) /\
    i' < length rs' /\
    sinks (ngt_key σ) n (<[i := x]> rs) i (<[i' := x]> rs').
Proof.
  induction fuel as [|fuel IH]; intros rs i Hi1 Hi Hn Hfuel Hv; [lia|].
  cbn [downHeap_loop]. destruct (Nat.leb_spec i (n / 2)) as [Hp|Hp].
  - assert (Hvx : valid σ x).
    { rewrite <-(list_lookup_total_insert_eq rs i x) by done.
      apply Forall_valid_lookup; [done|]. by rewrite length_insert. }
    assert (Hvc : forall c, c <> i -> c < length rs -> valid σ (rs !!! c)).
    { intros c Hne Hc.
      rewrite <-(list_lookup_total_insert_ne rs i c x) by lia.
      apply Forall_valid_lookup; [done|]. by rewrite length_insert. }
    assert (Hc0 : i + i < length rs) by lia.
    rewrite (bind_Ok _ _ _ _ _ (items_get_Some _ _ _ _ _ Hc0)).
    rewrite (bind_Ok _ _ _ _ _ (score_of_valid _ _ _ _ _
                                  (Hvc (i + i) ltac:(lia) Hc0))).
    rewrite (bind_Ok _ _ _ _ _ (get_count_eq _ _ _ _)).
    match goal with
    | |- context [bind (if ?b then ?c1 else ?c2) ?k ?s] =>
        assert (Hsm : exists j,
          (if b then c1 else c2) s = Ok (j, key σ (rs !!! j)) s /\
          2 <= j <= n /\ j / 2 = i /\
          forall c, 2 <= c <= n -> c / 2 = i -> c <> j ->
                    ngt_key σ (rs !!! j) (rs !!! c))
    end.
    { destruct (Nat.ltb_spec (i + i) n) as [Hc1|Hc1].
      - assert (Hc1' : i + i + 1 < length rs) by lia.
        rewrite (bind_Ok _ _ _ _ _ (items_get_Some _ _ _ _ _ Hc1')).
        rewrite (bind_Ok _ _ _ _ _ (score_of_valid _ _ _ _ _
                                      (Hvc (i + i + 1) ltac:(lia) Hc1'))).
        unfold Number.gt. destruct (PrimFloat.ltb _ _) eqn:Hlt.
        + rewrite (bind_Ok _ _ _ _ _ (items_get_Some _ _ _ _ _ Hc1')).
          rewrite (bind_Ok _ _ _ _ _ (score_of_valid _ _ _ _ _
                                        (Hvc (i + i + 1) ltac:(lia) Hc1'))).
          exists (i + i + 1). split; [done|]. split; [lia|]. split; [lia|].
          intros c Hc Hci Hne. replace c with (i + i) by lia.
          by apply number_lt_asym.
        + exists (i + i). split; [done|]. split; [lia|]. split; [lia|].
          intros c Hc Hci Hne. by replace c with (i + i + 1) by lia.
      - exists (i + i). split; [done|]. split; [lia|]. split; [lia|].
        intros c Hc Hci Hne. lia. }
    destruct Hsm as (j & Hsm & Hj & Hji & Hmin).
    rewrite (bind_Ok _ _ _ _ _ Hsm).
    rewrite (bind_Ok _ _ _ _ _ (score_of_valid _ _ _ _ _ Hvx)).
    assert (Hjl : j < length rs) by lia.
    destruct (Number.le _ _) eqn:Hle.
    + exists i, rs. split; [done|]. split; [done|].
      apply sinks_stop. intros c Hc Hci.
      unfold ngt_key. rewrite list_lookup_total_insert_eq by done.
      rewrite list_lookup_total_insert_ne by lia.
      destruct (decide (c = j)) as [->|Hne]; [by apply number_le_lt_false|].
      eapply number_le_nlt_nlt; [apply Hle|]. by apply Hmin.
    + rewrite (bind_Ok _ _ _ _ _ (items_get_Some _ _ _ _ _ Hjl)).
      rewrite (bind_Ok _ _ _ _ _ (items_set_Some _ _ _ _ _ _ Hi)).
      assert (Hsw : <[j := x]> (<[i := rs !!! j]> rs)
                    = swap (<[i := x]> rs) i j)
        by (apply swap_hole; lia).
      destruct (IH (<[i := rs !!! j]> rs) j)
        as (i' & rs' & Hrun & Hi' & Hsw').
      { lia. }
      { by rewrite length_insert. }
      { by rewrite length_insert. }
      { lia. }
      { rewrite Hsw, swap_Permutation; [done|rewrite length_insert; lia..]. }
      exists i', rs'. split; [done|]. split; [done|].
      eapply (sinks_step _ _ _ i j); [done|done| | |by rewrite <-Hsw].
      * intros c Hc Hci Hne.
        rewrite !list_lookup_total_insert_ne by lia. by apply Hmin.
      * unfold ngt_key. rewrite list_lookup_total_insert_eq by done.
        rewrite list_lookup_total_insert_ne by lia.
        by apply number_le_false_nlt.
  - exists i, rs. split; [done|]. split; [done|].
    apply sinks_stop. intros c Hc Hci. lia.
Qed.

Lemma downHeap_spec σ n m rs :
  1 < length rs -> n < length rs -> Forall (valid σ) rs ->
  exists rs',
    downHeap 1 (mk σ (Some <$> rs) n m) = Ok tt (mk σ (Some <$> rs') n m) /\
    sinks (ngt_key σ) n rs 1 rs'.
Proof.
  intros H1 Hn Hv. unfold downHeap.
  rewrite (bind_Ok _ _ _ _ _ (get_count_eq _ _ _ _)).
  rewrite (bind_Ok _ _ _ _ _ (items_get_Some _ _ _ _ _ H1)).
  assert (Hid : <[1 := rs !!! 1]> rs = rs).
  { apply list_insert_id. by apply list_lookup_lookup_total_lt. }
  destruct (downHeap_loop_spec σ n m (rs !!! 1) (S n) rs 1)
    as (i' & rs' & Hrun & Hi' & Hsw); [done|done|done|lia|by rewrite Hid|].
  rewrite shiftr_1, (bind_Ok _ _ _ _ _ Hrun).
  rewrite items_set_Some by done.
  exists (<[i' := rs !!! 1]> rs'). split; [done|]. by rewrite Hid in Hsw.
Qed.

Lemma set_count_eq σ items n m k :
  set_count k (mk σ items n m) = Ok tt (mk σ items k m).
Proof. done. Qed.

Lemma incr_count_eq σ items n m :
  incr_count (mk σ items n m) = Ok tt (mk σ items (n + 1) m).
Proof. done. Qed.

Lemma decr_count_eq σ items n m :
  decr_count (mk σ items n m) = Ok tt (mk σ items (n - 1) m).
Proof. done. Qed.

Lemma removeTop_run σ n m rs :
  1 <= n -> n < length rs -> Forall (valid σ) rs ->
  exists rs1,
    removeTop (mk σ (Some <$> rs) n m)
    = Ok (Some (rs !!! 1)) (mk σ (Some <$> rs1) (n - 1) m) /\
    sinks (ngt_key σ) (n - 1) (<[1 := rs !!! n]> rs) 1 rs1.
Proof.
  intros H1 Hn Hv. unfold removeTop.
  rewrite (bind_Ok _ _ _ _ _ (get_count_eq _ _ _ _)).
  destruct (Nat.eqb_spec n 0) as [?|_]; [lia|].
  assert (H1l : 1 < length rs) by lia.
  rewrite (bind_Ok _ _ _ _ _ (items_get_Some _ _ _ _ _ H1l)).
  rewrite (bind_Ok _ _ _ _ _ (items_get_Some _ _ _ _ _ Hn)).
  rewrite (bind_Ok _ _ _ _ _ (items_set_Some _ _ _ _ _ _ H1l)).
  rewrite (bind_Ok _ _ _ _ _ (decr_count_eq _ _ _ _)).
  destruct (downHeap_spec σ (n - 1) m (<[1 := rs !!! n]> rs))
    as (rs1 & Hrun & Hs).
  { by rewrite length_insert. }
  { rewrite length_insert. lia. }
  { apply Forall_insert; [done|]. by apply Forall_valid_lookup. }
  rewrite (bind_Ok _ _ _ _ _ Hrun). by exists rs1.
Qed.

(** *** Well-formed states *)

Lemma slots_mk σ rs n m : slots (mk σ (Some <$> rs) n m) = rs.
Proof.
  unfold slots. simpl. induction rs as [|r rs IH]; [done|].
  simpl. by f_equal.
Qed.

Lemma get_value_mk σ rs n m i :
  get_value (mk σ (Some <$> rs) n m) i = rs !! (i + 1) ≫= (σ !!.).
Proof. unfold get_value, deref. simpl. by rewrite array_get_fmap. Qed.

Lemma omap_get_value σ rs n m k :
  k < length rs ->
  omap (get_value (mk σ (Some <$> rs) n m)) (seq 0 k) = objs σ (seg rs k).
Proof.
  unfold objs. induction k as [|k IH]; intros Hk; [done|].
  rewrite seq_S, seg_snoc, !omap_app by done. rewrite IH by lia.
  f_equal. simpl. rewrite get_value_mk.
  replace (k + 1) with (S k) by lia.
  by rewrite (list_lookup_lookup_total_lt rs (S k)) by done.
Qed.

Lemma retained_mk σ rs n m :
  n < length rs -> retained (mk σ (Some <$> rs) n m) = objs σ (seg rs n).
Proof. apply omap_get_value. Qed.

Lemma sortDescending_loop_spec σ m fuel : forall rs k,
  k < length rs -> k < fuel -> Forall (valid σ) rs ->
  exists rs',
    sortDescending_loop fuel k (mk σ (Some <$> rs) k m)
    = Ok tt (mk σ (Some <$> rs') 0 m) /\
    rs' ≡ₚ rs /\
    (forall p, p = 0 \/ k < p -> rs' !! p = rs !! p) /\
    (Forall (numeric σ) rs -> heap_ordered (le_key σ) rs k ->
     forall p, 1 <= p < k -> le_key σ (rs' !!! S p) (rs' !!! p)).
Proof.
  induction fuel as [|fuel IH]; intros rs k Hk Hfuel Hv; [lia|].
  cbn [sortDescending_loop].
  rewrite (bind_Ok _ _ _ _ _ (get_count_eq _ _ _ _)).
  destruct (Nat.ltb_spec 0 k) as [Hk0|Hk0].
  - destruct (removeTop_run σ k m rs) as (rs1 & Hrun & Hs); [lia|done|done|].
    rewrite (bind_Ok _ _ _ _ _ Hrun).
    destruct (removal_facts _ _ _ _ Hk0 Hk Hs)
      as (Hlen & Hperm & Htop & Hout & Hseg).
    set (rs3 := <[k := rs !!! 1]> rs1) in *.
    assert (Hk1 : k < length rs1).
    { unfold rs3 in Hlen. rewrite length_insert in Hlen. lia. }
    rewrite (bind_Ok _ _ _ _ _ (items_set_Some _ _ _ _ _ _ Hk1)). fold rs3.
    destruct (IH rs3 (k - 1)) as (rs' & Hrun' & Hperm' & Hout' & Hord');
      [lia|lia|by rewrite Hperm|].
    exists rs'. split; [done|]. split; [by rewrite Hperm'|].
    split; [intros p Hp; rewrite Hout' by lia; apply Hout; lia|].
    intros Hnum Hh p Hp.
    assert (Hh3 : heap_ordered (le_key σ) rs3 (k - 1)).
    { apply removal_heap_ordered; [apply _|lia|done| |done].
      eapply sinks_weaken; [| | |done]; rewrite ?length_insert; [lia..|].
      intros a b Ha Hb. apply ngt_le_key.
      - eapply Forall_forall; [|done].
        by apply Forall_insert, Forall_lookup_total_1.
      - eapply Forall_forall; [|done].
        by apply Forall_insert, Forall_lookup_total_1. }
    destruct (decide (S p = k)) as [Hpk|Hpk].
    + (* the old top, now at [k], against the last of the sorted part *)
      rewrite Hpk.
      assert (Hk' : rs' !!! k = rs !!! 1).
      { rewrite <-Htop. rewrite !list_lookup_total_alt, Hout' by lia. done. }
      rewrite Hk'.
      assert (Hin : rs' !!! p ∈ seg rs k).
      { rewrite <-Hseg.
        assert (Hin' : rs' !!! p ∈ seg rs' (k - 1)).
        { apply elem_of_seg; [rewrite Hperm', Hlen; lia|].
          exists p. split; [lia|done]. }
        rewrite (seg_Permutation rs3 rs' (k - 1)) in Hin' by done.
        apply elem_of_seg in Hin' as (q & Hq & Hq'); [|lia].
        apply elem_of_seg; [lia|]. exists q. split; [lia|done]. }
      apply elem_of_seg in Hin as (q & Hq & <-); [|done].
      apply (heap_ordered_top (le_key σ) rs k); [done| |done].
      apply le_key_refl. eapply Forall_forall; [done|].
      apply list_elem_of_lookup_total_2. lia.
    + apply Hord'; [by rewrite Hperm|done|lia].
  - exists rs. assert (k = 0) as -> by lia.
    split; [done|]. split; [done|]. split; [done|]. intros. lia.
Qed.

(** *** One call of [add], case by case *)

Lemma get_maxCount_eq σ items n m :
  get_maxCount (mk σ items n m) = Ok m (mk σ items n m).
Proof. done. Qed.

Lemma alloc_eq σ items n m o :
  alloc o (mk σ items n m)
  = Ok (Some (length σ)) (mk (σ ++ [o]) items n m).
Proof. done. Qed.

Lemma items_push_Some σ rs n m x :
  items_push (Some x) (mk σ (Some <$> rs) n m)
  = Ok tt (mk σ (Some <$> (rs ++ [x])) n m).
Proof. unfold items_push. simpl. by rewrite array_push_Some. Qed.

Lemma set_value_eq σ items n m r o v :
  σ !! r = Some o ->
  set_value (Some r) v (mk σ items n m)
  = Ok tt (mk (<[r := {| value := v; score := score o |}]> σ) items n m).
Proof. intros Ho. unfold set_value, update_object. simpl. by rewrite Ho. Qed.

Lemma set_score_eq σ items n m r o sc :
  σ !! r = Some o ->
  set_score (Some r) sc (mk σ items n m)
  = Ok tt (mk (<[r := {| value := value o; score := sc |}]> σ) items n m).
Proof. intros Ho. unfold set_score, update_object. simpl. by rewrite Ho. Qed.

Lemma valid_app σ o r : valid σ r -> valid (σ ++ [o]) r.
Proof. rewrite !valid_lt, length_app. lia. Qed.

Lemma valid_insert σ t o r : valid (<[t := o]> σ) r <-> valid σ r.
Proof. by rewrite !valid_lt, length_insert. Qed.

Lemma add_push_run σ rs n m v sc :
  length rs = S n -> Forall (valid σ) rs -> n < m ->
  let o := {| value := v; score := sc |} in
  exists rs',
    add v sc (mk σ (Some <$> rs) n m)
    = Ok tt (mk (σ ++ [o]) (Some <$> rs') (S n) m) /\
    swims (ngt_key (σ ++ [o])) (rs ++ [length σ]) (S n) rs'.
Proof.
  intros Hlen Hv Hnm o. unfold add.
  rewrite (bind_Ok _ _ _ _ _ (get_count_eq _ _ _ _)).
  rewrite (bind_Ok _ _ _ _ _ (get_maxCount_eq _ _ _ _)).
  destruct (Nat.eqb_spec n m) as [?|_]; [lia|].
  rewrite (bind_Ok _ _ _ _ _ (incr_count_eq _ _ _ _)).
  rewrite (bind_Ok _ _ _ _ _ (alloc_eq _ _ _ _ _)).
  rewrite (bind_Ok _ _ _ _ _ (items_push_Some _ _ _ _ _)).
  rewrite (bind_Ok _ _ _ _ _ (get_count_eq _ _ _ _)).
  replace (n + 1) with (S n) by lia.
  apply upHeap_spec.
  - rewrite length_app. simpl. lia.
  - apply Forall_app. split.
    + eapply Forall_impl; [done|]. intros r. apply valid_app.
    + apply Forall_singleton, valid_lt. rewrite length_app. simpl. lia.
Qed.

Lemma add_reject_run σ rs n m v sc :
  length rs = S n -> Forall (valid σ) rs -> 0 < m -> n = m ->
  Number.lt sc (key σ (rs !!! 1)) = true ->
  add v sc (mk σ (Some <$> rs) n m) = Ok tt (mk σ (Some <$> rs) n m).
Proof.
  intros Hlen Hv Hm Hnm Hlt. unfold add, top.
  rewrite (bind_Ok _ _ _ _ _ (get_count_eq _ _ _ _)).
  rewrite (bind_Ok _ _ _ _ _ (get_maxCount_eq _ _ _ _)).
  destruct (Nat.eqb_spec n m) as [_|?]; [|lia].
  assert (H1 : 1 < length rs) by lia.
  rewrite (bind_Ok _ _ _ _ _ (items_get_Some _ _ _ _ _ H1)).
  rewrite (bind_Ok _ _ _ _ _ (score_of_valid _ _ _ _ _
                                (Forall_valid_lookup _ _ _ Hv H1))).
  by rewrite Hlt.
Qed.

Lemma add_replace_run σ rs n m v sc :
  length rs = S n -> Forall (valid σ) rs -> 0 < m -> n = m ->
  Number.lt sc (key σ (rs !!! 1)) = false ->
  let o := {| value := v; score := sc |} in
  let σ' := <[rs !!! 1 := o]> σ in
  exists rs1 rs',
    add v sc (mk σ (Some <$> rs) n m) = Ok tt (mk σ' (Some <$> rs') n m) /\
    sinks (ngt_key σ) (n - 1) (<[1 := rs !!! n]> rs) 1 rs1 /\
    swims (ngt_key σ') (<[n := rs !!! 1]> rs1) n rs'.
Proof.
  intros Hlen Hv Hm Hnm Hlt o σ'. unfold add, top, count.
  rewrite (bind_Ok _ _ _ _ _ (get_count_eq _ _ _ _)).
  rewrite (bind_Ok _ _ _ _ _ (get_maxCount_eq _ _ _ _)).
  destruct (Nat.eqb_spec n m) as [_|?]; [|lia].
  assert (H1 : 1 < length rs) by lia.
  pose proof (Forall_valid_lookup _ _ _ Hv H1) as Hvt.
  rewrite (bind_Ok _ _ _ _ _ (items_get_Some _ _ _ _ _ H1)).
  rewrite (bind_Ok _ _ _ _ _ (score_of_valid _ _ _ _ _ Hvt)).
  rewrite Hlt.
  destruct (removeTop_run σ n m rs) as (rs1 & Hrun & Hs); [lia|lia|done|].
  rewrite (bind_Ok _ _ _ _ _ Hrun).
  destruct Hvt as [ot Hot].
  rewrite (bind_Ok _ _ _ _ _ (set_value_eq _ _ _ _ _ _ v Hot)).
  assert (Hot1 : <[rs !!! 1 := {| value := v; score := score ot |}]> σ
                 !! (rs !!! 1) = Some {| value := v; score := score ot |}).
  { apply list_lookup_insert_eq. by eapply lookup_lt_Some. }
  rewrite (bind_Ok _ _ _ _ _ (set_score_eq _ _ _ _ _ _ sc Hot1)).
  rewrite list_insert_insert_eq. simpl. fold o. fold σ'.
  rewrite (bind_Ok _ _ _ _ _ (incr_count_eq _ _ _ _)).
  rewrite (bind_Ok _ _ _ _ _ (get_count_eq _ _ _ _)).
  replace (n - 1 + 1) with n by lia.
  assert (Hl1 : length rs1 = length rs).
  { erewrite sinks_length by exact Hs. by rewrite length_insert. }
  assert (Hn1 : n < length rs1) by lia.
  rewrite (bind_Ok _ _ _ _ _ (items_set_Some _ _ _ _ _ _ Hn1)).
  rewrite (bind_Ok _ _ _ _ _ (get_count_eq _ _ _ _)).
  destruct (upHeap_spec σ' n m (<[n := rs !!! 1]> rs1) n)
    as (rs' & Hrun' & Hsw).
  { by rewrite length_insert. }
  { assert (Hv1 : Forall (valid σ) rs1).
    { erewrite sinks_Permutation; [| |exact Hs];
        rewrite ?length_insert; [|lia].
      apply Forall_insert; [done|]. apply Forall_valid_lookup; [done|lia]. }
    apply Forall_insert.
    - eapply Forall_impl; [done|]. intros r Hr. by apply valid_insert.
    - apply valid_insert. by eexists. }
  exists rs1, rs'. done.
Qed.

(** *** What the three cases do to the heap *)

Lemma key_app σ o r : valid σ r -> key (σ ++ [o]) r = key σ r.
Proof.
  intros Hr. unfold key. rewrite lookup_app_l; [done|]. by apply valid_lt.
Qed.

Lemma key_app_new σ o : key (σ ++ [o]) (length σ) = score o.
Proof.
  unfold key. rewrite lookup_app_r by lia. by rewrite Nat.sub_diag.
Qed.

Lemma key_insert_ne σ t o r : r <> t -> key (<[t := o]> σ) r = key σ r.
Proof. intros Hne. unfold key. by rewrite list_lookup_insert_ne. Qed.

Lemma key_insert_eq σ t o : valid σ t -> key (<[t := o]> σ) t = score o.
Proof.
  intros Ht. unfold key. rewrite list_lookup_insert_eq; [done|].
  by apply valid_lt.
Qed.

Global Instance objs_Permutation σ : Proper ((≡ₚ) ==> (≡ₚ)) (objs σ).
Proof. intros l l' Hl. unfold objs. by rewrite Hl. Qed.

Lemma objs_snoc σ l r :
  objs σ (l ++ [r]) = objs σ l ++ option_list (σ !! r).
Proof. unfold objs. rewrite omap_app. csimpl. by destruct (σ !! r). Qed.

Lemma objs_app σ o l : Forall (valid σ) l -> objs (σ ++ [o]) l = objs σ l.
Proof.
  unfold objs. induction 1 as [|r l Hr _ IH]; [done|]. csimpl.
  rewrite IH, lookup_app_l; [done|]. by apply valid_lt.
Qed.

Lemma objs_insert_ne σ t o l : t ∉ l -> objs (<[t := o]> σ) l = objs σ l.
Proof.
  unfold objs. induction l as [|r l IH]; [done|].
  rewrite not_elem_of_cons. intros [Hne Hl]. csimpl.
  by rewrite IH, list_lookup_insert_ne.
Qed.

Lemma push_facts σ rs n o rs' :
  length rs = S n -> NoDup rs -> Forall (valid σ) rs ->
  swims (ngt_key (σ ++ [o])) (rs ++ [length σ]) (S n) rs' ->
  length rs' = S (S n) /\ NoDup rs' /\ Forall (valid (σ ++ [o])) rs' /\
  objs (σ ++ [o]) (seg rs' (S n)) ≡ₚ o :: objs σ (seg rs n) /\
  (Forall (numeric σ) rs -> heap_ordered (le_key σ) rs n ->
   Number.isNaN (score o) = false ->
   Forall (numeric (σ ++ [o])) rs' /\
   heap_ordered (le_key (σ ++ [o])) rs' (S n)).
Proof.
  intros Hlen Hnd Hv Hsw.
  assert (Hl : S n < length (rs ++ [length σ])).
  { rewrite length_app. simpl. lia. }
  pose proof (swims_Permutation _ _ _ _ Hl Hsw) as Hperm.
  split; [|split; [|split; [|split]]].
  - erewrite swims_length by exact Hsw. rewrite length_app. simpl. lia.
  - rewrite Hperm. apply NoDup_app. split; [done|].
    split; [|apply NoDup_singleton].
    intros r Hr ->%list_elem_of_singleton.
    eapply Forall_forall in Hr; [|exact Hv]. apply valid_lt in Hr. lia.
  - rewrite Hperm. apply Forall_app. split.
    + eapply Forall_impl; [done|]. intros r. apply valid_app.
    + apply Forall_singleton, valid_lt. rewrite length_app. simpl. lia.
  - rewrite (seg_Permutation (rs ++ [length σ]) rs' (S n)); [|done|].
    + rewrite seg_app_r, objs_snoc by done. rewrite objs_app.
      * rewrite lookup_app_r by lia. rewrite Nat.sub_diag. simpl.
        by rewrite <-Permutation_cons_append.
      * eapply Forall_forall. intros r Hr%elem_of_seg; [|lia].
        destruct Hr as (k & Hk & <-). apply Forall_valid_lookup; [done|lia].
    + intros k Hk. eapply swims_unchanged; [exact Hsw|done].
  - intros Hnum Hh Ho.
    assert (Hnum' : Forall (numeric (σ ++ [o])) (rs ++ [length σ])).
    { apply Forall_app. split.
      - apply Forall_forall. intros r Hr. unfold numeric.
        rewrite key_app; [by eapply Forall_forall in Hnum|].
        by eapply Forall_forall in Hv.
      - apply Forall_singleton. unfold numeric. by rewrite key_app_new. }
    split; [by rewrite Hperm|].
    eapply swims_heap_ordered; [apply _|exact Hl| |].
    + eapply swims_weaken; [exact Hl| |exact Hsw].
      intros a b Ha Hb. apply ngt_le_key; by eapply Forall_forall.
    + apply heap_ordered_up_inv.
      apply (heap_ordered_ext (le_key σ) _ rs); [| |done].
      * intros c Hc. apply lookup_total_app_l. lia.
      * intros c d Hc Hd. unfold le_key.
        rewrite !key_app; [done|apply Forall_valid_lookup; [done|lia]..].
Qed.

Lemma replace_facts σ rs n o rs1 rs' :
  1 <= n -> length rs = S n -> NoDup rs -> Forall (valid σ) rs ->
  let t := rs !!! 1 in
  let σ' := <[t := o]> σ in
  sinks (ngt_key σ) (n - 1) (<[1 := rs !!! n]> rs) 1 rs1 ->
  swims (ngt_key σ') (<[n := t]> rs1) n rs' ->
  length rs' = S n /\ NoDup rs' /\ Forall (valid σ') rs' /\
  (forall ot, σ !! t = Some ot ->
     ot :: objs σ' (seg rs' n) ≡ₚ o :: objs σ (seg rs n)) /\
  (Forall (numeric σ) rs -> heap_ordered (le_key σ) rs n ->
   Number.isNaN (score o) = false ->
   Forall (numeric σ') rs' /\ heap_ordered (le_key σ') rs' n).
Proof.
  intros H1 Hlen Hnd Hv t σ' Hs Hsw.
  assert (Hn : n < length rs) by lia.
  destruct (removal_facts _ _ _ _ H1 Hn Hs)
    as (Hlen3 & Hperm3 & Htop3 & Hout3 & Hseg3).
  fold t in Hlen3, Hperm3, Htop3, Hout3, Hseg3.
  set (rs3 := <[n := t]> rs1) in *.
  assert (Hl3 : n < length rs3) by lia.
  pose proof (swims_Permutation _ _ _ _ Hl3 Hsw) as Hperm.
  assert (Hnd3 : NoDup rs3) by (by rewrite Hperm3).
  assert (Hvt : valid σ t) by (apply Forall_valid_lookup; [done|lia]).
  assert (Hne : forall c, c < length rs3 -> c <> n -> rs3 !!! c <> t).
  { intros c Hc Hcn Heq. apply Hcn.
    eapply (NoDup_lookup rs3 c n t); [done|..].
    - rewrite <-Heq. by apply list_lookup_lookup_total_lt.
    - rewrite <-Htop3. by apply list_lookup_lookup_total_lt. }
  assert (Hnotin : t ∉ seg rs3 (n - 1)).
  { intros (k & Hk & Hkt)%elem_of_seg; [|lia]. apply (Hne k); [lia|lia|done]. }
  assert (Hsnoc : seg rs3 n = seg rs3 (n - 1) ++ [t]).
  { replace n with (S (n - 1)) at 1 by lia. rewrite seg_snoc by lia.
    replace (S (n - 1)) with n by lia. by rewrite Htop3. }
  split; [|split; [|split; [|split]]].
  - erewrite swims_length by exact Hsw. lia.
  - by rewrite Hperm.
  - rewrite Hperm, Hperm3. eapply Forall_impl; [done|].
    intros r Hr. by apply valid_insert.
  - intros ot Hot.
    rewrite (seg_Permutation rs3 rs' n); [|done|].
    + rewrite <-Hseg3, Hsnoc, !objs_snoc.
      unfold σ'. rewrite objs_insert_ne by done.
      rewrite list_lookup_insert_eq by (by apply valid_lt). rewrite Hot.
      simpl. rewrite <-!Permutation_cons_append. apply Permutation_swap.
    + intros k Hk. eapply swims_unchanged; [exact Hsw|done].
  - intros Hnum Hh Ho.
    assert (Hnum3 : Forall (numeric σ') rs3).
    { apply (Forall_lookup_total_2 (numeric σ')). intros c Hc.
      unfold numeric, σ'.
      destruct (decide (c = n)) as [->|Hcn].
      - by rewrite Htop3, key_insert_eq.
      - rewrite key_insert_ne by (by apply Hne).
        eapply (Forall_lookup_total_1 (numeric σ)); [by rewrite Hperm3|done]. }
    split; [by rewrite Hperm|].
    eapply swims_heap_ordered; [apply _|exact Hl3| |].
    + eapply swims_weaken; [exact Hl3| |exact Hsw].
      intros a b Ha Hb. apply ngt_le_key; by eapply Forall_forall.
    + apply heap_ordered_up_inv_pred.
      apply (heap_ordered_ext (le_key σ) _ rs3); [done| |].
      * intros c d Hc Hd. unfold le_key, σ'.
        rewrite !key_insert_ne; [done|apply Hne; lia..].
      * apply removal_heap_ordered; [apply _|done|done| |done].
        eapply sinks_weaken; [| | |exact Hs]; rewrite ?length_insert; [lia..|].
        intros a b Ha Hb. apply ngt_le_key.
        -- eapply Forall_forall; [|exact Ha].
           by apply Forall_insert, Forall_lookup_total_1.
        -- eapply Forall_forall; [|exact Hb].
           by apply Forall_insert, Forall_lookup_total_1.
Qed.

(** *** The invariants, at the level of states *)

Lemma wf_inv s :
  wf s ->
  exists σ rs n m,
    s = mk σ (Some <$> rs) n m /\ length rs = S n /\ NoDup rs /\
    Forall (valid σ) rs /\ n <= m /\ 0 < m.
Proof.
  destruct s as [σ items n m]. unfold wf. simpl.
  intros (Hitems & Hlen & Hnd & Hv & Hcap & Hpos).
  exists σ, (slots (mk σ items n m)), n, m. by rewrite <-Hitems.
Qed.

Lemma wf_mk σ rs n m :
  length rs = S n -> NoDup rs -> Forall (valid σ) rs -> n <= m -> 0 < m ->
  wf (mk σ (Some <$> rs) n m).
Proof. intros. unfold wf. rewrite slots_mk. by simpl. Qed.

Lemma ordered_mk σ rs n m :
  ordered (mk σ (Some <$> rs) n m)
  <-> Forall (numeric σ) rs /\ heap_ordered (le_key σ) rs n.
Proof. unfold ordered. by rewrite slots_mk. Qed.

Lemma wf_fresh m : 0 < m -> wf (fresh (T:=T) m).
Proof.
  intros Hm. apply (wf_mk _ [0]); [done|apply NoDup_singleton| |lia|done].
  apply Forall_singleton. by eexists.
Qed.

Lemma ordered_fresh m : ordered (fresh (T:=T) m).
Proof.
  apply (ordered_mk _ [0]). split.
  - by apply Forall_singleton.
  - intros c Hc. lia.
Qed.

Lemma get_value_top σ rs n m :
  1 < length rs -> Forall (valid σ) rs ->
  exists top,
    get_value (mk σ (Some <$> rs) n m) 0 = Some top /\
    σ !! (rs !!! 1) = Some top /\ score top = key σ (rs !!! 1).
Proof.
  intros H1 Hv. destruct (Forall_valid_lookup _ _ _ Hv H1) as [top Htop].
  exists top. rewrite get_value_mk. simpl.
  rewrite (list_lookup_lookup_total_lt rs 1) by done. simpl.
  split; [done|]. split; [done|]. unfold key. by rewrite Htop.
Qed.

Lemma add_spec s v sc :
  wf s ->
  let o := {| value := v; score := sc |} in
  exists s',
    add v sc s = Ok tt s' /\ wf s' /\ _maxCount s' = _maxCount s /\
    (ordered s -> Number.isNaN sc = false -> ordered s') /\
    ((_count s < _maxCount s /\ _count s' = S (_count s) /\
      retained s' ≡ₚ o :: retained s) \/
     (_count s = _maxCount s /\
      exists top, get_value s 0 = Some top /\
        ((Number.lt sc (score top) = true /\ s' = s) \/
         (Number.lt sc (score top) = false /\ _count s' = _count s /\
          top :: retained s' ≡ₚ o :: retained s)))).
Proof.
  intros Hwf o.
  destruct (wf_inv s Hwf)
    as (σ & rs & n & m & -> & Hlen & Hnd & Hv & Hcap & Hm).
  simpl. destruct (decide (n < m)) as [Hnm|Hnm].
  - destruct (add_push_run σ rs n m v sc Hlen Hv Hnm) as (rs' & Hrun & Hsw).
    fold o in Hrun, Hsw.
    destruct (push_facts σ rs n o rs' Hlen Hnd Hv Hsw)
      as (Hlen' & Hnd' & Hv' & Hret & Hord).
    eexists. split; [exact Hrun|]. split; [by apply wf_mk; try lia|].
    split; [done|]. split.
    + rewrite !ordered_mk. intros [Hnum Hh] Hsc. by apply Hord.
    + left. split; [done|]. split; [done|].
      by rewrite !retained_mk by lia.
  - assert (n = m) as Hnm' by lia.
    destruct (get_value_top σ rs n m) as (top & Htop & Hlook & Hkey);
      [lia|done|].
    destruct (Number.lt sc (key σ (rs !!! 1))) eqn:Hlt.
    + exists (mk σ (Some <$> rs) n m).
      split; [by apply add_reject_run|]. split; [done|]. split; [done|].
      split; [done|]. right. split; [done|]. exists top. split; [done|].
      left. by rewrite Hkey.
    + destruct (add_replace_run σ rs n m v sc Hlen Hv Hm Hnm' Hlt)
        as (rs1 & rs' & Hrun & Hs & Hsw).
      fold o in Hrun, Hsw.
      destruct (replace_facts σ rs n o rs1 rs' ltac:(lia) Hlen Hnd Hv Hs Hsw)
        as (Hlen' & Hnd' & Hv' & Hret & Hord).
      eexists. split; [exact Hrun|]. split; [by apply wf_mk|].
      split; [done|]. split.
      * rewrite !ordered_mk. intros [Hnum Hh] Hsc. by apply Hord.
      * right. split; [done|]. exists top. split; [done|]. right.
        rewrite Hkey. split; [done|]. split; [done|].
        rewrite !retained_mk by lia. by apply Hret.
Qed.

(** The top of an ordered heap has the least score. *)
Lemma top_least s top :
  wf s -> ordered s -> get_value s 0 = Some top ->
  forall o, o ∈ retained s -> Number.le (score top) (score o) = true.
Proof.
  intros Hwf Hord Htop o Ho.
  destruct (wf_inv s Hwf)
    as (σ & rs & n & m & -> & Hlen & Hnd & Hv & Hcap & Hm).
  apply ordered_mk in Hord as [Hnum Hh].
  rewrite retained_mk in Ho by lia.
  apply list_elem_of_omap in Ho as (r & Hr & Hro).
  apply elem_of_seg in Hr as (k & Hk & <-); [|lia].
  rewrite get_value_mk in Htop. simpl in Htop.
  rewrite (list_lookup_lookup_total_lt rs 1) in Htop by lia. simpl in Htop.
  pose proof (heap_ordered_top (le_key σ) rs n Hh) as Hmin.
  assert (Hn1 : numeric σ (rs !!! 1))
    by (apply (Forall_lookup_total_1 _ _ 1 Hnum); lia).
  specialize (Hmin (le_key_refl _ _ Hn1) k Hk).
  unfold le_key, key in Hmin. by rewrite Htop, Hro in Hmin.
Qed.

Lemma sortDescending_spec s :
  wf s ->
  exists s',
    sortDescending s = Ok tt s' /\
    _count s' = _count s /\ _maxCount s' = _maxCount s /\
    retained s' ≡ₚ retained s /\
    (ordered s ->
     forall i, i + 1 < _count s ->
       exists a b, get_value s' i = Some a /\ get_value s' (i + 1) = Some b /\
                   Number.ge (score a) (score b) = true).
Proof.
  intros Hwf.
  destruct (wf_inv s Hwf)
    as (σ & rs & n & m & -> & Hlen & Hnd & Hv & Hcap & Hm).
  unfold sortDescending.
  rewrite (bind_Ok _ _ _ _ _ (get_count_eq _ _ _ _)).
  destruct (sortDescending_loop_spec σ m (S n) rs n)
    as (rs' & Hrun & Hperm & Hout & Hord); [lia|lia|done|].
  rewrite (bind_Ok _ _ _ _ _ Hrun).
  exists (mk σ (Some <$> rs') n m). split; [done|]. simpl.
  assert (Hlen' : length rs' = S n) by (by rewrite Hperm).
  split; [done|]. split; [done|]. split.
  - rewrite !retained_mk by lia. by rewrite (seg_Permutation rs rs' n).
  - rewrite ordered_mk. intros [Hnum Hh] i Hi.
    assert (Hv' : Forall (valid σ) rs') by (by rewrite Hperm).
    destruct (Forall_valid_lookup σ rs' (i + 1) Hv' ltac:(lia)) as [a Ha].
    destruct (Forall_valid_lookup σ rs' (i + 1 + 1) Hv' ltac:(lia)) as [b Hb].
    exists a, b. rewrite !get_value_mk.
    rewrite (list_lookup_lookup_total_lt rs' (i + 1)) by lia.
    rewrite (list_lookup_lookup_total_lt rs' (i + 1 + 1)) by lia. simpl.
    split; [done|]. split; [done|].
    specialize (Hord Hnum Hh (i + 1) ltac:(lia)).
    replace (S (i + 1)) with (i + 1 + 1) in Hord by lia.
    unfold le_key, key in Hord. by rewrite Ha, Hb in Hord.
Qed.
End Refs.

(** ** Sequences of calls *)

Section Sequences.
Import TopNCollection.
Context {T : Type}.
Implicit Types (s : t T) (cs : list (option T * float)).

Lemma add_all_spec cs : forall s,
  wf s ->
  exists s',
    add_all cs s = Ok tt s' /\ wf s' /\ _maxCount s' = _maxCount s /\
    _count s' = Nat.min (_count s + length cs) (_maxCount s) /\
    (ordered s -> Forall numeric_candidate cs -> ordered s').
Proof.
  induction cs as [|[v sc] cs IH]; intros s Hwf.
  - exists s. split; [done|]. split; [done|]. split; [done|].
    split; [|done]. simpl. destruct Hwf as (_ & _ & _ & _ & ? & _). lia.
  - destruct (add_spec s v sc Hwf) as (s1 & Hrun & Hwf1 & Hm1 & Hord1 & Hcase).
    destruct (IH s1 Hwf1) as (s' & Hrun' & Hwf' & Hm' & Hcount' & Hord').
    exists s'. cbn [add_all]. rewrite (bind_Ok _ _ _ _ _ Hrun).
    split; [done|]. split; [done|]. split; [congruence|]. split.
    + rewrite Hcount', Hm1. simpl.
      destruct Hwf1 as (_ & _ & _ & _ & ? & _).
      destruct Hcase as [(? & ? & _)|(? & top & _ & [(_ & ->)|(_ & ? & _)])];
        lia.
    + intros Hord [Hsc Hcs]%Forall_cons. apply Hord'; [|done].
      by apply Hord1.
Qed.

Lemma length_retained s : wf s -> length (retained s) = _count s.
Proof.
  intros Hwf.
  destruct (wf_inv s Hwf)
    as (σ & rs & n & m & -> & Hlen & Hnd & Hv & Hcap & Hm).
  rewrite retained_mk by lia. simpl.
  rewrite <-(length_seg rs n) at 2 by lia.
  assert (Hvs : Forall (valid σ) (seg rs n)).
  { apply Forall_forall. intros r (k & Hk & <-)%elem_of_seg; [|lia].
    apply Forall_valid_lookup; [done|lia]. }
  unfold objs. induction Hvs as [|r l [o Ho] _ IH]; [done|].
  csimpl. rewrite Ho. simpl. by rewrite IH.
Qed.

Lemma retained_numeric s o :
  wf s -> ordered s -> o ∈ retained s -> Number.isNaN (score o) = false.
Proof.
  intros Hwf Hord Ho.
  destruct (wf_inv s Hwf)
    as (σ & rs & n & m & -> & Hlen & Hnd & Hv & Hcap & Hm).
  apply ordered_mk in Hord as [Hnum _].
  rewrite retained_mk in Ho by lia.
  apply list_elem_of_omap in Ho as (r & Hr & Hro).
  apply elem_of_seg in Hr as (k & Hk & <-); [|lia].
  pose proof (Forall_lookup_total_1 _ _ k Hnum ltac:(lia)) as Hn.
  unfold numeric, key in Hn. by rewrite Hro in Hn.
Qed.

Lemma top_retained s top :
  wf s -> 1 <= _count s -> get_value s 0 = Some top -> top ∈ retained s.
Proof.
  intros Hwf H1 Htop.
  destruct (wf_inv s Hwf)
    as (σ & rs & n & m & -> & Hlen & Hnd & Hv & Hcap & Hm).
  simpl in H1. rewrite retained_mk by lia.
  rewrite get_value_mk in Htop. simpl in Htop.
  rewrite (list_lookup_lookup_total_lt rs 1) in Htop by lia. simpl in Htop.
  apply list_elem_of_omap. exists (rs !!! 1). split; [|done].
  apply elem_of_seg; [lia|]. exists 1. split; [lia|done].
Qed.

(** *** The retained candidates are a selection of the highest scores *)

Lemma add_all_selects cs : forall s D,
  wf s -> ordered s -> Forall numeric_candidate cs ->
  (_count s < _maxCount s -> D = []) ->
  (forall d r, d ∈ D -> r ∈ retained s ->
               Number.le (score d) (score r) = true) ->
  exists s' D',
    add_all cs s = Ok tt s' /\
    retained s' ++ D' ≡ₚ retained s ++ D ++ (candidate <$> cs) /\
    (forall d r, d ∈ D' -> r ∈ retained s' ->
                 Number.le (score d) (score r) = true).
Proof.
  induction cs as [|[v sc] cs IH]; intros s D Hwf Hord Hcs HD Hle.
  - exists s, D. split; [done|]. split; [|done]. simpl.
    by rewrite (right_id_L [] (++)).
  - apply Forall_cons in Hcs as [Hsc Hcs]. unfold numeric_candidate in Hsc.
    simpl in Hsc.
    destruct (add_spec s v sc Hwf) as (s1 & Hrun & Hwf1 & Hm1 & Hord1 & Hcase).
    specialize (Hord1 Hord Hsc). cbn [add_all].
    rewrite (bind_Ok _ _ _ _ _ Hrun). set (o := {| value := v; score := sc |}).
    fold o in Hcase.
    destruct Hcase as [(Hlt & Hc1 & Hret)|(Hfull & top & Htop & Hcase)].
    + (* room left: nothing was dropped so far *)
      rewrite (HD Hlt) in *.
      destruct (IH s1 [] Hwf1 Hord1 Hcs) as (s' & D' & Hrun' & Hperm & Hle').
      { done. }
      { intros d r Hd. by apply not_elem_of_nil in Hd. }
      exists s', D'. split; [done|]. split; [|done].
      rewrite Hperm, Hret. csimpl. change (candidate (v, sc)) with o.
      solve_Permutation.
    + assert (Htopin : top ∈ retained s).
      { apply top_retained; [done| |done].
        destruct Hwf as (_ & _ & _ & _ & _ & ?). lia. }
      pose proof (top_least s top Hwf Hord Htop) as Hmin.
      destruct Hcase as [(Hlt & ->)|(Hlt & Hc1 & Hret)].
      * (* rejected: the candidate is dropped *)
        destruct (IH s (o :: D) Hwf Hord Hcs)
          as (s' & D' & Hrun' & Hperm & Hle').
        { lia. }
        { intros d r [->|Hd]%elem_of_cons Hr; [|by apply Hle].
          eapply number_le_trans; [apply number_lt_le, Hlt|]. by apply Hmin. }
        exists s', D'. split; [done|]. split; [|done].
        rewrite Hperm. csimpl. change (candidate (v, sc)) with o.
        solve_Permutation.
      * (* the top is evicted for the candidate *)
        assert (Htopo : Number.le (score top) sc = true).
        { apply number_lt_false_le; [done| |done].
          by apply (retained_numeric s). }
        destruct (IH s1 (top :: D) Hwf1 Hord1 Hcs)
          as (s' & D' & Hrun' & Hperm & Hle').
        { lia. }
        { intros d r Hd Hr.
          assert (Hr' : r ∈ o :: retained s).
          { rewrite <-Hret. by right. }
          apply elem_of_cons in Hd as [->|Hd];
            apply elem_of_cons in Hr' as [->|Hr']; simpl.
          - done.
          - by apply Hmin.
          - eapply number_le_trans; [by apply Hle|done].
          - by apply Hle. }
        exists s', D'. split; [done|]. split; [|done].
        rewrite Hperm. csimpl. change (candidate (v, sc)) with o.
        trans ((top :: retained s1) ++ D ++ (candidate <$> cs));
          [solve_Permutation|].
        rewrite Hret. solve_Permutation.
Qed.

(** *** Strictly increasing scores: the last candidates are retained *)

Global Instance lt_score_trans : Transitive (@lt_score T).
Proof. intros a b c. apply number_lt_trans. Qed.

Lemma increasing_numeric cs :
  2 <= length cs -> increasing cs -> Forall numeric_candidate cs.
Proof.
  intros Hlen Hinc. apply Sorted_StronglySorted in Hinc; [|apply _].
  destruct cs as [|c1 [|c2 cs]]; simpl in Hlen; [lia..|].
  csimpl in Hinc. apply StronglySorted_cons in Hinc as [Hall _].
  apply Forall_cons in Hall as Hall'. destruct Hall' as [H12 _].
  apply Forall_cons. split; [by apply number_lt_not_nan in H12 as [? _]|].
  change (candidate c2 :: (candidate <$> cs)) with (candidate <$> (c2 :: cs))
    in Hall.
  rewrite Forall_fmap in Hall. eapply Forall_impl; [exact Hall|].
  intros c Hc. by apply number_lt_not_nan in Hc as [_ ?].
Qed.

Lemma add_all_increasing cs : forall s old recent,
  wf s -> ordered s -> retained s ≡ₚ recent ->
  (_count s < _maxCount s -> old = []) ->
  StronglySorted lt_score (old ++ recent ++ (candidate <$> cs)) ->
  Forall numeric_candidate cs ->
  exists s' old' recent',
    add_all cs s = Ok tt s' /\ retained s' ≡ₚ recent' /\
    old' ++ recent' = old ++ recent ++ (candidate <$> cs).
Proof.
  induction cs as [|[v sc] cs IH];
    intros s old recent Hwf Hord Hret Hold Hs Hcs.
  - exists s, old, recent. split; [done|]. split; [done|]. simpl.
    by rewrite (right_id_L [] (++)).
  - apply Forall_cons in Hcs as [Hsc Hcs]. unfold numeric_candidate in Hsc.
    simpl in Hsc. csimpl in Hs. csimpl.
    destruct (add_spec s v sc Hwf) as (s1 & Hrun & Hwf1 & Hm1 & Hord1 & Hcase).
    specialize (Hord1 Hord Hsc). cbn [add_all].
    rewrite (bind_Ok _ _ _ _ _ Hrun).
    change (candidate (v, sc)) with {| value := v; score := sc |} in *.
    set (o := {| value := v; score := sc |}) in *.
    destruct Hcase as [(Hlt & Hc1 & Hret1)|(Hfull & top & Htop & Hcase)].
    + rewrite (Hold Hlt) in *. simpl in Hs.
      destruct (IH s1 [] (recent ++ [o]) Hwf1 Hord1)
        as (s' & old' & recent' & Hrun' & Hret' & Heq);
        [| |by rewrite <-app_assoc|done|].
      { rewrite Hret1, Hret. apply Permutation_cons_append. }
      { done. }
      exists s', old', recent'. split; [done|]. split; [done|].
      rewrite Heq. simpl. by rewrite <-app_assoc.
    + assert (H1 : 1 <= _count s).
      { destruct Hwf as (_ & _ & _ & _ & _ & ?). lia. }
      assert (Htopin : top ∈ recent).
      { rewrite <-Hret. by apply top_retained. }
      assert (Htopo : lt_score top o).
      { apply StronglySorted_app_1_r in Hs.
        eapply StronglySorted_app_1_elem_of; [exact Hs|done|by left]. }
      destruct Hcase as [(Hlt & _)|(Hlt & Hc1 & Hret1)].
      { apply number_lt_asym in Htopo. simpl in Htopo. congruence. }
      destruct recent as [|r0 rt]; [by apply not_elem_of_nil in Htopin|].
      assert (top = r0) as ->.
      { apply elem_of_cons in Htopin as [?|Hin]; [done|]. exfalso.
        assert (Hr0 : lt_score r0 top).
        { apply StronglySorted_app_1_r, StronglySorted_app_1_l in Hs.
          apply StronglySorted_cons in Hs as [Hall _].
          by eapply Forall_forall in Hall. }
        assert (Hle : Number.le (score top) (score r0) = true).
        { apply (top_least s top); [done..|]. rewrite Hret. by left. }
        apply number_le_lt_false in Hle. unfold lt_score in Hr0. congruence. }
      destruct (IH s1 (old ++ [r0]) (rt ++ [o]) Hwf1 Hord1)
        as (s' & old' & recent' & Hrun' & Hret' & Heq); [|lia| |done|].
      { rewrite Hret in Hret1.
        rewrite (Permutation_swap r0 o rt) in Hret1.
        apply Permutation_cons_inv in Hret1.
        rewrite Hret1. apply Permutation_cons_append. }
      { by rewrite <-!app_assoc. }
      exists s', old', recent'. split; [done|]. split; [done|].
      rewrite Heq. by rewrite <-!app_assoc.
Qed.
End Sequences.

(* ================================================================== *)
(** * The properties of the specification *)
(* ================================================================== *)

(** ** TopNCollection *)

Section TopNCollectionProperties.
Import TopNCollection.
Context {T : Type}.
Implicit Types (s : t T) (cs : list (option T * float)).

Lemma new_inr maxCount s0 :
  new (T:=T) maxCount = inr s0 -> 0 < maxCount /\ s0 = fresh maxCount.
Proof.
  unfold new. destruct (Nat.ltb_spec 0 maxCount); [|done].
  intros [= <-]. done.
Qed.

Lemma retained_fresh maxCount : retained (fresh (T:=T) maxCount) = [].
Proof. done. Qed.

(** The heap order, as [get] shows it. *)
Lemma ordered_get_value s :
  wf s -> ordered s ->
  forall i c, 1 <= i -> c = 2 * i \/ c = 2 * i + 1 -> c <= _count s ->
    exists a b, get_value s (i - 1) = Some a /\ get_value s (c - 1) = Some b /\
                Number.le (score a) (score b) = true.
Proof.
  intros Hwf Hord i c Hi Hc Hcn.
  destruct (wf_inv s Hwf)
    as (σ & rs & n & m & -> & Hlen & Hnd & Hv & Hcap & Hm).
  apply ordered_mk in Hord as [Hnum Hh]. simpl in Hcn.
  destruct (Forall_valid_lookup σ rs i Hv ltac:(lia)) as [a Ha].
  destruct (Forall_valid_lookup σ rs c Hv ltac:(lia)) as [b Hb].
  exists a, b. rewrite !get_value_mk.
  replace (i - 1 + 1) with i by lia. replace (c - 1 + 1) with c by lia.
  rewrite (list_lookup_lookup_total_lt rs i), (list_lookup_lookup_total_lt rs c)
    by lia.
  simpl. split; [done|]. split; [done|].
  specialize (Hh c ltac:(lia)). replace (c / 2) with i in Hh by lia.
  unfold le_key, key in Hh. by rewrite Ha, Hb in Hh.
Qed.

(** C1, amended (bounded retention).  On a collection of capacity
    [maxCount], any sequence of [add] calls succeeds and leaves
    [min (number of calls) maxCount] occupants: the count never exceeds
    the capacity, after any prefix of the calls, and equals it once that
    many candidates were added.  When the scores are numbers (none is
    NaN), the occupants are a selection of the highest scores seen: no
    candidate left out scores more than one that is retained.  When more
    than [maxCount] candidates come with strictly increasing scores, the
    occupants are exactly the last [maxCount] of them, the highest-scoring
    ones. *)
Theorem add_bounded_retention maxCount cs s0 :
  new maxCount = inr s0 ->
  exists s,
    add_all cs s0 = Ok tt s /\
    _count s = Nat.min (length cs) maxCount /\
    (forall k, exists sk,
        add_all (take k cs) s0 = Ok tt sk /\ _count sk <= maxCount) /\
    (Forall numeric_candidate cs ->
     exists dropped,
       retained s ++ dropped ≡ₚ candidate <$> cs /\
       forall r d, r ∈ retained s -> d ∈ dropped ->
                   Number.le (score d) (score r) = true) /\
    (increasing cs -> maxCount < length cs ->
     _count s = maxCount /\
     retained s ≡ₚ candidate <$> drop (length cs - maxCount) cs).
Proof.
  intros [Hm ->]%new_inr.
  pose proof (wf_fresh (T:=T) maxCount Hm) as Hwf.
  pose proof (ordered_fresh (T:=T) maxCount) as Hord.
  destruct (add_all_spec cs _ Hwf) as (s & Hrun & Hwf' & Hm' & Hcount & _).
  simpl in Hcount, Hm'.
  exists s. split; [done|]. split; [done|]. split; [|split].
  - intros k.
    destruct (add_all_spec (take k cs) _ Hwf) as (sk & Hrunk & _ & _ & Hck & _).
    exists sk. split; [done|]. simpl in Hck. lia.
  - intros Hnum.
    destruct (add_all_selects cs _ [] Hwf Hord Hnum)
      as (s' & D & Hrun' & Hp & Hle).
    { done. }
    { intros d r Hd. by apply not_elem_of_nil in Hd. }
    rewrite Hrun in Hrun'. injection Hrun' as <-.
    exists D. split; [by rewrite Hp|]. intros r d Hr Hd. by apply Hle.
  - intros Hinc Hlen. split; [lia|].
    assert (Hnum : Forall numeric_candidate cs)
      by (apply increasing_numeric; [lia|done]).
    destruct (add_all_increasing cs _ [] [] Hwf Hord)
      as (s' & old & recent & Hrun' & Hret & Heq); [done|done| |done|].
    { simpl. apply Sorted_StronglySorted; [apply _|done]. }
    rewrite Hrun in Hrun'. injection Hrun' as <-. simpl in Heq.
    assert (Hlr : length recent = maxCount).
    { rewrite <-Hret, length_retained by done. lia. }
    rewrite Hret, fmap_drop, <-Heq.
    assert (Hlo : length cs - maxCount = length old).
    { apply (f_equal length) in Heq.
      rewrite length_app, length_fmap in Heq. lia. }
    by rewrite Hlo, drop_app_length.
Qed.

(** C2, amended (heap invariant).  After any sequence of [add] calls whose
    scores are numbers (none is NaN), the score at each occupied position
    [i] is at most the scores at [2 i] and [2 i + 1], where those positions
    are occupied; position [i] is what [get (i - 1)] returns. *)
Theorem add_heap_invariant maxCount cs s0 :
  new maxCount = inr s0 ->
  Forall numeric_candidate cs ->
  exists s,
    add_all cs s0 = Ok tt s /\
    forall i c, 1 <= i -> c = 2 * i \/ c = 2 * i + 1 -> c <= _count s ->
      exists a b, get_value s (i - 1) = Some a /\
                  get_value s (c - 1) = Some b /\
                  Number.le (score a) (score b) = true.
Proof.
  intros [Hm ->]%new_inr Hnum.
  destruct (add_all_spec cs _ (wf_fresh maxCount Hm))
    as (s & Hrun & Hwf & _ & _ & Hord).
  exists s. split; [done|].
  apply ordered_get_value; [done|]. apply Hord; [apply ordered_fresh|done].
Qed.

(** C3, amended (sortDescending).  After any sequence of [add] calls whose
    scores are numbers (none is NaN), [sortDescending] succeeds, restores
    [count], keeps the occupants (as a multiset of value and score pairs)
    and leaves them in descending order of score: the score of [get i] is
    at least that of [get (i + 1)].  The count and the occupants are kept
    whatever the scores. *)
Theorem sortDescending_sorted maxCount cs s0 :
  new maxCount = inr s0 ->
  Forall numeric_candidate cs ->
  exists s s',
    add_all cs s0 = Ok tt s /\
    sortDescending s = Ok tt s' /\
    _count s' = _count s /\
    retained s' ≡ₚ retained s /\
    forall i, i + 1 < _count s' ->
      exists a b, get_value s' i = Some a /\ get_value s' (i + 1) = Some b /\
                  Number.ge (score a) (score b) = true.
Proof.
  intros [Hm ->]%new_inr Hnum.
  destruct (add_all_spec cs _ (wf_fresh maxCount Hm))
    as (s & Hrun & Hwf & _ & _ & Hord).
  destruct (sortDescending_spec s Hwf) as (s' & Hsort & Hc & _ & Hret & Hdesc).
  exists s, s'. split; [done|]. split; [done|]. split; [done|].
  split; [done|]. rewrite Hc. apply Hdesc.
  apply Hord; [apply ordered_fresh|done].
Qed.

(** The count and the occupants are kept by [sortDescending] whatever the
    scores are. *)
Lemma sortDescending_keeps maxCount cs s0 :
  new maxCount = inr s0 ->
  exists s s',
    add_all cs s0 = Ok tt s /\ sortDescending s = Ok tt s' /\
    _count s' = _count s /\ retained s' ≡ₚ retained s.
Proof.
  intros [Hm ->]%new_inr.
  destruct (add_all_spec cs _ (wf_fresh maxCount Hm))
    as (s & Hrun & Hwf & _ & _ & _).
  destruct (sortDescending_spec s Hwf) as (s' & Hsort & Hc & _ & Hret & _).
  by exists s, s'.
Qed.

(** C4, amended (ties).  On a collection at full capacity, [add] with a
    score equal to the score of the top (the least score retained) is not
    rejected: the candidate takes the place of the top entry, the other
    occupants and the count staying as they were. *)
Theorem add_tie_replaces_top maxCount cs s0 s v sc top :
  new maxCount = inr s0 ->
  add_all cs s0 = Ok tt s ->
  _count s = _maxCount s ->
  get_value s 0 = Some top ->
  PrimFloat.eqb sc (score top) = true ->
  exists s',
    add v sc s = Ok tt s' /\
    _count s' = _count s /\
    top :: retained s' ≡ₚ {| value := v; score := sc |} :: retained s.
Proof.
  intros [Hm ->]%new_inr Hrun Hfull Htop Heq.
  destruct (add_all_spec cs _ (wf_fresh maxCount Hm))
    as (s1 & Hrun1 & Hwf & _ & _ & _).
  rewrite Hrun in Hrun1. injection Hrun1 as <-.
  destruct (add_spec s v sc Hwf) as (s' & Hadd & _ & _ & _ & Hcase).
  exists s'. split; [done|].
  destruct Hcase as [(Hlt & _)|(_ & top' & Htop' & Hcase)]; [lia|].
  rewrite Htop in Htop'. injection Htop' as <-.
  apply number_eqb_lt_false in Heq.
  destruct Hcase as [(Hlt & _)|(_ & Hc & Hret)]; [congruence|done].
Qed.

(** Only a score strictly below the top's is rejected. *)
Lemma add_below_top_rejected maxCount cs s0 s v sc top :
  new maxCount = inr s0 ->
  add_all cs s0 = Ok tt s ->
  _count s = _maxCount s ->
  get_value s 0 = Some top ->
  Number.lt sc (score top) = true ->
  add v sc s = Ok tt s.
Proof.
  intros [Hm ->]%new_inr Hrun Hfull Htop Hlt.
  destruct (add_all_spec cs _ (wf_fresh maxCount Hm))
    as (s1 & Hrun1 & Hwf & _ & _ & _).
  rewrite Hrun in Hrun1. injection Hrun1 as <-.
  destruct (add_spec s v sc Hwf) as (s' & Hadd & _ & _ & _ & Hcase).
  destruct Hcase as [(Hlt' & _)|(_ & top' & Htop' & Hcase)]; [lia|].
  rewrite Htop in Htop'. injection Htop' as <-.
  destruct Hcase as [(_ & ->)|(Hlt' & _)]; [done|congruence].
Qed.

(** C8, amended (empty collection).  With [count = 0], [removeTop] throws
    the exception "Empty queue" and [sortDescending] returns normally; each
    leaves the collection as it was. *)
Theorem empty_removeTop_sortDescending s :
  _count s = 0 ->
  removeTop s = Throw (ArgumentException "Empty queue") s /\
  sortDescending s = Ok tt s.
Proof.
  destruct s as [σ items n m]. simpl. intros ->. done.
Qed.

(** What [clear] does: the array is cut down to its first slot, and
    [_count] and [_maxCount] stay as they were. *)
Lemma clear_spec s :
  clear s =
  Ok tt (mk (objects s) (array_set_length (_items s) 1) (_count s)
           (_maxCount s)).
Proof. done. Qed.

End TopNCollectionProperties.

(** ** Embedding *)

Section EmbeddingProperties.
Variable vector : VectorMath.

(** C9 (normalization).  [normalize] is idempotent: a second call changes
    nothing; after [normalize] the flag is set and [euclideanLength] returns
    1.0 exactly, without computing. *)
Theorem normalize_idempotent (e : Embedding.t) :
  Embedding.normalize vector (Embedding.normalize vector e)
  = Embedding.normalize vector e /\
  Embedding.isNormalized (Embedding.normalize vector e) = true /\
  Embedding.euclideanLength vector (Embedding.normalize vector e) = 1.0%float.
Proof.
  unfold Embedding.normalize, Embedding.euclideanLength, Embedding.isNormalized.
  by destruct e as [v []].
Qed.

End EmbeddingProperties.

(** ** VectorizedList *)

Section VectorizedListProperties.
Import VectorizedList.
Context {T : Type} (vector : VectorMath).
Implicit Types (this : VectorizedList.t T) (other : Embedding.t).

Lemma search_loop_fed this other minScore embeddings : forall i matches,
  search_loop vector this other minScore embeddings i matches
  = TopNCollection.add_all (fed vector this other minScore embeddings i)
      matches.
Proof.
  induction embeddings as [|e rest IH]; intros i matches; [done|].
  cbn [search_loop fed]. destruct (Number.ge _ _).
  - cbn [TopNCollection.add_all]. unfold bind.
    destruct (TopNCollection.add _ _ _); [apply IH|done..].
  - unfold bind, ret. apply IH.
Qed.

(** [search] adds the stored items whose score is at least the threshold,
    in storage order; the default threshold is [Number.MIN_VALUE]. *)
Lemma search_fed this other matches minScore :
  search vector this other matches minScore
  = TopNCollection.add_all
      (fed vector this other (default Number.MIN_VALUE minScore)
         (_embeddings this) 0)
      matches.
Proof. apply search_loop_fed. Qed.

Lemma nearest_loop_below other embeddings : forall i,
  Forall (fun e =>
            Number.lt (Embedding.cosineSimilarity vector e other)
              Number.MIN_VALUE = true) embeddings ->
  nearest_loop vector other embeddings i Number.MIN_VALUE (-1) = (-1)%Z.
Proof.
  induction embeddings as [|e rest IH]; intros i Hall; [done|].
  apply Forall_cons in Hall as [He Hrest]. cbn [nearest_loop].
  unfold Number.ge. fold (Number.le Number.MIN_VALUE
                            (Embedding.cosineSimilarity vector e other)).
  destruct (Number.le _ _) eqn:Hle.
  - apply number_le_lt_false in Hle. congruence.
  - by apply IH.
Qed.

(** C10 (nearest below the initial best score).  When every stored
    embedding has a cosine similarity to the query strictly below
    [Number.MIN_VALUE], zero and negative similarities among them, the test
    [score >= bestScore] never holds, the best index stays -1 and [nearest]
    returns [undefined], whatever the list holds. *)
Theorem nearest_below_MIN_VALUE this other :
  Forall (fun e =>
            Number.lt (Embedding.cosineSimilarity vector e other)
              Number.MIN_VALUE = true) (_embeddings this) ->
  nearest vector this other = None.
Proof.
  intros Hall. unfold nearest. by rewrite nearest_loop_below.
Qed.

(** On a list with no embedding, [nearest] returns [undefined]. *)
Lemma nearest_empty this other :
  _embeddings this = [] -> nearest vector this other = None.
Proof. intros Hall. unfold nearest. by rewrite Hall. Qed.

End VectorizedListProperties.

Section NearestGreatest.
Import VectorizedList.
Context {T : Type} (vector : VectorMath).
Implicit Types (this : VectorizedList.t T) (other : Embedding.t).

Lemma nearest_loop_before other ej pre : forall rest i best iNearest,
  Number.isNaN best = false ->
  Number.lt (Embedding.cosineSimilarity vector ej other) best = false ->
  Forall (fun e =>
            Number.lt (Embedding.cosineSimilarity vector ej other)
              (Embedding.cosineSimilarity vector e other) = false) pre ->
  exists best' iNearest',
    nearest_loop vector other (pre ++ rest) i best iNearest
    = nearest_loop vector other rest (i + length pre) best' iNearest' /\
    Number.isNaN best' = false /\
    Number.lt (Embedding.cosineSimilarity vector ej other) best' = false.
Proof.
  induction pre as [|e pre IH]; intros rest i best iNearest Hnum Hlt Hpre.
  - exists best, iNearest. simpl. by rewrite Nat.add_0_r.
  - apply Forall_cons in Hpre as [He Hpre]. cbn [app nearest_loop length].
    replace (i + S (length pre)) with (i + 1 + length pre) by lia.
    destruct (Number.ge _ _) eqn:Hge.
    + apply IH; [|done|done]. by apply number_le_not_nan in Hge as [_ ?].
    + by apply IH.
Qed.

Lemma nearest_loop_after other (sj : float) post : forall i iNearest,
  Forall (fun e =>
            Number.le sj (Embedding.cosineSimilarity vector e other) = false)
    post ->
  nearest_loop vector other post i sj iNearest = iNearest.
Proof.
  induction post as [|e post IH]; intros i iNearest Hpost; [done|].
  apply Forall_cons in Hpost as [He Hpost]. cbn [nearest_loop].
  unfold Number.ge.
  fold (Number.le sj (Embedding.cosineSimilarity vector e other)).
  rewrite He. by apply IH.
Qed.

(** X19 ([nearest], the last of the greatest).  What [nearest] returns when
    some score reaches [Number.MIN_VALUE]: the item at the last index whose
    score is greatest (no earlier score is greater, no later score is
    greater or equal). *)
Lemma nearest_last_greatest this other pre ej post :
  _embeddings this = pre ++ ej :: post ->
  Number.ge (Embedding.cosineSimilarity vector ej other) Number.MIN_VALUE
  = true ->
  Forall (fun e =>
            Number.lt (Embedding.cosineSimilarity vector ej other)
              (Embedding.cosineSimilarity vector e other) = false) pre ->
  Forall (fun e =>
            Number.le (Embedding.cosineSimilarity vector ej other)
              (Embedding.cosineSimilarity vector e other) = false) post ->
  nearest vector this other = _items this !! length pre.
Proof.
  intros Hemb Hge Hpre Hpost. unfold nearest. rewrite Hemb.
  destruct (nearest_loop_before other ej pre (ej :: post) 0 Number.MIN_VALUE
              (-1)) as (best & iN & -> & Hnum & Hlt); [done| |done|].
  { by apply number_le_lt_false. }
  assert (Hge' : Number.ge (Embedding.cosineSimilarity vector ej other) best
                 = true).
  { apply number_lt_false_le; [|done..].
    by apply number_le_not_nan in Hge as [_ ?]. }
  cbn [nearest_loop]. rewrite Hge'.
  rewrite nearest_loop_after by done. simpl.
  destruct (Z.ltb_spec (Z.of_nat (length pre)) 0); [lia|].
  by rewrite Nat2Z.id.
Qed.

End NearestGreatest.

(** ** The properties at the sample inputs *)

Section Instances.
Import TopNCollection Samples.
Local Open Scope string_scope.

Example xy_built :
  match VectorizedList.add SpecVectorMath.vector VectorizedList.new "x"
          (Some (Embedding.new [1; 0; 0]%float)) with
  | inr l =>
      VectorizedList.add SpecVectorMath.vector l "y"
        (Some (Embedding.new [0; 1; 0]%float))
  | inl e => inl e
  end = inr xy.
Proof. vm_compute. reflexivity. Qed.

Example only_y_built :
  VectorizedList.add SpecVectorMath.vector VectorizedList.new "y"
    (Some (Embedding.new [0; 1; 0]%float)) = inr only_y.
Proof. vm_compute. reflexivity. Qed.

Example full_A_built : add_all [(Some "A", 1%float)] (fresh 1) = Ok tt full_A.
Proof. vm_compute. reflexivity. Qed.

(** The scenario of the specification: the members are C, B and D, and
    [sortDescending] lists D, B, C. *)
Example scenario_run :
  exists s s',
    add_all scenario (fresh 3) = Ok tt s /\
    retained s
    = candidate <$> [(Some "C", 0.3%float); (Some "B", 0.5%float);
                     (Some "D", 0.9%float)] /\
    sortDescending s = Ok tt s' /\
    retained s'
    = candidate <$> [(Some "D", 0.9%float); (Some "B", 0.5%float);
                     (Some "C", 0.3%float)].
Proof.
  eexists _, _. split; [vm_compute; reflexivity|].
  split; [vm_compute; reflexivity|].
  split; vm_compute; reflexivity.
Qed.

(** The second scenario of the specification: [nearest] returns "x" and
    [similar] with threshold 0.5 yields "x" alone, with score 1. *)
Example scenario_nearest :
  VectorizedList.nearest SpecVectorMath.vector xy query = Some "x" /\
  VectorizedList.similar SpecVectorMath.vector xy query 0.5%float
  = [ {| value := Some "x"; score := 1%float |} ].
Proof. split; vm_compute; reflexivity. Qed.

(** [add_bounded_retention] at capacity 3 and the five rising candidates:
    C, D and E stay. *)
Lemma add_bounded_retention_witness :
  new (T:=string) 3 = inr (fresh 3) /\
  increasing rising /\ 3 < length rising /\
  exists s,
    add_all rising (fresh 3) = Ok tt s /\ _count s = 3 /\
    retained s
    ≡ₚ candidate <$> [(Some "C", 0.3%float); (Some "D", 0.5%float);
                      (Some "E", 0.9%float)].
Proof.
  assert (Hnew : new (T:=string) 3 = inr (fresh 3)) by reflexivity.
  assert (Hinc : increasing rising) by (repeat constructor).
  assert (Hlen : 3 < length rising) by (simpl; lia).
  destruct (add_bounded_retention 3 rising (fresh 3) Hnew)
    as (s & Hrun & _ & _ & _ & Hlast).
  destruct (Hlast Hinc Hlen) as [Hc Hret].
  split; [exact Hnew|]. split; [exact Hinc|]. split; [exact Hlen|].
  exists s. split; [exact Hrun|]. split; [exact Hc|]. exact Hret.
Defined.

(** With a NaN score the occupants are not the highest-scoring candidates
    seen: at capacity 1, after [add("A", 1)], [add("B", NaN)] and
    [add("C", 0.5)], the only occupant is ("C", 0.5), and ("A", 1) scored
    more.  Each of the two later candidates takes the place of the top,
    since no comparison with NaN holds. *)
Lemma add_bounded_retention_counterexample :
  exists s,
    add_all NaN_between (fresh 1) = Ok tt s /\
    _count s = 1 /\
    retained s = [ {| value := Some "C"; score := 0.5%float |} ] /\
    (candidate (Some "A", 1%float) ∈ candidate <$> NaN_between) /\
    Number.lt 0.5%float 1%float = true.
Proof.
  eexists. split; [vm_compute; reflexivity|]. split; [reflexivity|].
  split; [vm_compute; reflexivity|]. split; [by left|reflexivity].
Qed.

(** [add_heap_invariant] at capacity 3 and the candidates of the
    scenario. *)
Lemma add_heap_invariant_witness :
  new (T:=string) 3 = inr (fresh 3) /\
  Forall numeric_candidate scenario /\
  exists s,
    add_all scenario (fresh 3) = Ok tt s /\
    forall i c, 1 <= i -> c = 2 * i \/ c = 2 * i + 1 -> c <= _count s ->
      exists a b, get_value s (i - 1) = Some a /\
                  get_value s (c - 1) = Some b /\
                  Number.le (score a) (score b) = true.
Proof.
  assert (Hnew : new (T:=string) 3 = inr (fresh 3)) by reflexivity.
  assert (Hnum : Forall numeric_candidate scenario)
    by (repeat constructor).
  split; [exact Hnew|]. split; [exact Hnum|].
  exact (add_heap_invariant 3 scenario (fresh 3) Hnew Hnum).
Defined.

(** With a NaN score the order of the heap fails: after [add("A", NaN)]
    and [add("B", 1)] position 1 holds NaN, position 2 holds 1, and
    [NaN <= 1] is false. *)
Lemma add_heap_invariant_counterexample :
  exists s a b,
    add_all with_NaN (fresh 2) = Ok tt s /\ _count s = 2 /\
    get_value s 0 = Some a /\ get_value s 1 = Some b /\
    Number.le (score a) (score b) = false.
Proof.
  eexists _, _, _. split; [vm_compute; reflexivity|].
  split; [reflexivity|]. split; [vm_compute; reflexivity|].
  split; vm_compute; reflexivity.
Qed.

(** [sortDescending_sorted] at capacity 3 and the candidates of the
    scenario. *)
Lemma sortDescending_sorted_witness :
  new (T:=string) 3 = inr (fresh 3) /\
  Forall numeric_candidate scenario /\
  exists s s',
    add_all scenario (fresh 3) = Ok tt s /\
    sortDescending s = Ok tt s' /\
    _count s' = _count s /\
    retained s' ≡ₚ retained s /\
    forall i, i + 1 < _count s' ->
      exists a b, get_value s' i = Some a /\ get_value s' (i + 1) = Some b /\
                  Number.ge (score a) (score b) = true.
Proof.
  assert (Hnew : new (T:=string) 3 = inr (fresh 3)) by reflexivity.
  assert (Hnum : Forall numeric_candidate scenario)
    by (repeat constructor).
  split; [exact Hnew|]. split; [exact Hnum|].
  exact (sortDescending_sorted 3 scenario (fresh 3) Hnew Hnum).
Defined.

(** With a NaN score the sorted order fails: after [add("A", NaN)] and
    [add("B", 1)], [sortDescending] leaves B before A, and [1 >= NaN] is
    false. *)
Lemma sortDescending_sorted_counterexample :
  exists s s' a b,
    add_all with_NaN (fresh 2) = Ok tt s /\
    sortDescending s = Ok tt s' /\ _count s' = 2 /\
    get_value s' 0 = Some a /\ get_value s' 1 = Some b /\
    Number.ge (score a) (score b) = false.
Proof.
  eexists _, _, _, _. split; [vm_compute; reflexivity|].
  split; [vm_compute; reflexivity|]. split; [reflexivity|].
  split; [vm_compute; reflexivity|]. split; vm_compute; reflexivity.
Qed.

(** [add_tie_replaces_top] on the collection of capacity 1 holding
    ("A", 1), for the candidate ("B", 1). *)
Lemma add_tie_replaces_top_witness :
  new (T:=string) 1 = inr (fresh 1) /\
  add_all [(Some "A", 1%float)] (fresh 1) = Ok tt full_A /\
  _count full_A = _maxCount full_A /\
  get_value full_A 0 = Some {| value := Some "A"; score := 1%float |} /\
  PrimFloat.eqb 1%float 1%float = true /\
  exists s',
    add (Some "B") 1%float full_A = Ok tt s' /\ _count s' = _count full_A /\
    {| value := Some "A"; score := 1%float |} :: retained s'
    ≡ₚ {| value := Some "B"; score := 1%float |} :: retained full_A.
Proof.
  assert (Hnew : new (T:=string) 1 = inr (fresh 1)) by reflexivity.
  assert (Hrun : add_all [(Some "A", 1%float)] (fresh 1) = Ok tt full_A)
    by (vm_compute; reflexivity).
  assert (Hfull : _count full_A = _maxCount full_A) by reflexivity.
  assert (Htop : get_value full_A 0
                 = Some {| value := Some "A"; score := 1%float |})
    by reflexivity.
  assert (Heq : PrimFloat.eqb 1%float 1%float = true) by reflexivity.
  split; [exact Hnew|]. split; [exact Hrun|]. split; [exact Hfull|].
  split; [exact Htop|]. split; [exact Heq|].
  exact (add_tie_replaces_top 1 _ _ full_A (Some "B") 1%float _
           Hnew Hrun Hfull Htop Heq).
Defined.

(** A tie changes the membership: on the collection of capacity 1 holding
    ("A", 1), [add("B", 1)] leaves ("B", 1) alone. *)
Lemma add_tie_counterexample :
  exists s',
    _count full_A = _maxCount full_A /\
    get_value full_A 0 = Some {| value := Some "A"; score := 1%float |} /\
    add (Some "B") 1%float full_A = Ok tt s' /\
    retained full_A = [ {| value := Some "A"; score := 1%float |} ] /\
    retained s' = [ {| value := Some "B"; score := 1%float |} ] /\
    ~ retained s' ≡ₚ retained full_A.
Proof.
  eexists. split; [reflexivity|]. split; [reflexivity|].
  split; [vm_compute; reflexivity|]. split; [reflexivity|].
  split; [reflexivity|].
  change (~ [ {| value := Some "B"; score := 1%float |} ]
            ≡ₚ [ {| value := Some "A"; score := 1%float |} ]).
  intros Hp. apply Permutation_singleton_inj in Hp. discriminate.
Qed.

(** [empty_removeTop_sortDescending] on a collection just built. *)
Lemma empty_removeTop_sortDescending_witness :
  _count (fresh (T:=string) 1) = 0 /\
  removeTop (fresh (T:=string) 1)
  = Throw (ArgumentException "Empty queue") (fresh 1) /\
  sortDescending (fresh (T:=string) 1) = Ok tt (fresh 1).
Proof.
  assert (H0 : _count (fresh (T:=string) 1) = 0) by reflexivity.
  split; [exact H0|].
  exact (empty_removeTop_sortDescending (fresh 1) H0).
Defined.

(** On an empty collection [sortDescending] returns normally: it throws
    nothing. *)
Lemma empty_sortDescending_counterexample :
  _count (fresh (T:=string) 1) = 0 /\
  sortDescending (fresh (T:=string) 1) = Ok tt (fresh 1) /\
  ~ exists e s', sortDescending (fresh (T:=string) 1) = Throw e s'.
Proof.
  split; [reflexivity|]. split; [reflexivity|]. intros (e & s' & H).
  discriminate.
Qed.

(** C5 (clear).  On the collection holding ("A", 1), [clear] cuts [_items]
    down to the sentinel and leaves [_count] at 1 and the capacity at 1:
    the count is not reset. *)
Theorem clear_keeps_count :
  exists s',
    clear full_A = Ok tt s' /\
    _items s' = [Some 0%nat] /\ _maxCount s' = 1 /\ _count s' = 1.
Proof. eexists. split; [reflexivity|]. done. Qed.

(** After [clear] the collection is at capacity with no top left: the
    next [add] reads the score of [undefined] and throws. *)
Example clear_then_add_throws :
  exists s' s'',
    clear full_A = Ok tt s' /\ add (Some "B") 2%float s' = Throw TypeError s''.
Proof. eexists _, _. split; vm_compute; reflexivity. Qed.

(** C6 (default threshold).  With the default threshold, [searchTopN] on
    the list holding "y" alone returns an empty collection for the query
    [1, 0, 0]: the score of "y" is 0, below [Number.MIN_VALUE], and "y" is
    not passed to [add]. *)
Theorem search_default_threshold_filters :
  Embedding.cosineSimilarity SpecVectorMath.vector
    {| Embedding.components := [0; 1; 0]%float; Embedding._normalized := true |}
    query = 0%float /\
  VectorizedList.searchTopN SpecVectorMath.vector only_y query 1 None
  = inr (Ok tt (fresh 1)) /\
  VectorizedList.search SpecVectorMath.vector only_y query (fresh 1) None
  = Ok tt (fresh 1) /\
  fed SpecVectorMath.vector only_y query Number.MIN_VALUE
    (VectorizedList._embeddings only_y) 0 = [].
Proof. repeat split; vm_compute; reflexivity. Qed.

(** C7 (nearest).  On the list holding "y" alone, [nearest] returns
    [undefined] for the query [1, 0, 0]: the only score, 0, is the greatest
    and it is below the initial best score [Number.MIN_VALUE]. *)
Theorem nearest_misses_greatest :
  VectorizedList._items only_y = ["y"] /\
  Embedding.cosineSimilarity SpecVectorMath.vector
    {| Embedding.components := [0; 1; 0]%float; Embedding._normalized := true |}
    query = 0%float /\
  VectorizedList.nearest SpecVectorMath.vector only_y query = None.
Proof. repeat split; vm_compute; reflexivity. Qed.

(** [nearest_below_MIN_VALUE] on the list holding "y" alone, whose score
    for the query is 0. *)
Lemma nearest_below_MIN_VALUE_witness :
  Forall (fun e =>
            Number.lt
              (Embedding.cosineSimilarity SpecVectorMath.vector e query)
              Number.MIN_VALUE = true)
    (VectorizedList._embeddings only_y) /\
  VectorizedList._embeddings only_y <> [] /\
  VectorizedList.nearest SpecVectorMath.vector only_y query = None.
Proof.
  assert (Hall : Forall (fun e =>
            Number.lt
              (Embedding.cosineSimilarity SpecVectorMath.vector e query)
              Number.MIN_VALUE = true)
    (VectorizedList._embeddings only_y)) by (repeat constructor).
  split; [exact Hall|]. split; [discriminate|].
  exact (nearest_below_MIN_VALUE SpecVectorMath.vector only_y query Hall).
Defined.

End Instances.

(* ================================================================== *)
(** * Further lemmas *)
(* ================================================================== *)

(** ** More on the methods of TopNCollection *)

Lemma number_isNaN_lt x y :
  Number.isNaN x = true \/ Number.isNaN y = true -> Number.lt x y = false.
Proof.
  intros H. destruct (Number.lt x y) eqn:E; [|done].
  apply number_lt_not_nan in E as [? ?]. destruct H; congruence.
Qed.

Section MoreRefs.
Import TopNCollection.
Context {T : Type}.
Implicit Types (σ : list (IScoredValue T)) (r x : nat) (rs : list nat).
Implicit Types (s : t T).

Lemma score_of_Throw (x : option nat) s e s' :
  score_of x s = Throw e s' -> e = TypeError /\ s' = s.
Proof.
  unfold score_of. destruct x as [r|]; [destruct (objects s !! r)|];
    intros [= <- <-]; done.
Qed.

Lemma score_of_Ok (x : option nat) s a s' :
  score_of x s = Ok a s' -> s' = s.
Proof.
  unfold score_of. destruct x as [r|]; [destruct (objects s !! r)|];
    intros [= _ <-]; done.
Qed.

Lemma score_of_not_OutOfFuel (x : option nat) s : score_of x s <> OutOfFuel.
Proof.
  unfold score_of. by destruct x as [r|]; [destruct (objects s !! r)|].
Qed.

Lemma sortDescending_run σ rs n m :
  length rs = S n -> Forall (valid σ) rs ->
  exists rs',
    sortDescending (mk σ (Some <$> rs) n m)
    = Ok tt (mk σ (Some <$> rs') n m) /\
    rs' ≡ₚ rs /\
    (forall p, p = 0 \/ n < p -> rs' !! p = rs !! p) /\
    (Forall (numeric σ) rs -> heap_ordered (le_key σ) rs n ->
     forall p, 1 <= p < n -> le_key σ (rs' !!! S p) (rs' !!! p)).
Proof.
  intros Hlen Hv. unfold sortDescending.
  rewrite (bind_Ok _ _ _ _ _ (get_count_eq _ _ _ _)).
  destruct (sortDescending_loop_spec σ m (S n) rs n)
    as (rs' & Hrun & Hperm & Hout & Hord); [lia|lia|done|].
  rewrite (bind_Ok _ _ _ _ _ Hrun). by exists rs'.
Qed.

Lemma sortDescending_wf s s' :
  wf s -> sortDescending s = Ok tt s' ->
  wf s' /\ objects s' = objects s /\ _count s' = _count s /\
  _maxCount s' = _maxCount s /\ slots s' ≡ₚ slots s /\
  slots s' !! 0 = slots s !! 0.
Proof.
  intros Hwf Hrun.
  destruct (wf_inv s Hwf)
    as (σ & rs & n & m & -> & Hlen & Hnd & Hv & Hcap & Hm).
  destruct (sortDescending_run σ rs n m Hlen Hv)
    as (rs' & Hrun' & Hperm & Hout & _).
  rewrite Hrun in Hrun'. injection Hrun' as ->.
  rewrite !slots_mk. simpl. split; [|by rewrite Hout by lia].
  apply wf_mk; [by rewrite Hperm|by rewrite Hperm|by rewrite Hperm|done..].
Qed.

(** What one call of [add] does to the object store and to slot 0. *)
Lemma add_effect s v sc s' :
  wf s -> add v sc s = Ok tt s' ->
  let o := {| value := v; score := sc |} in
  slots s' !! 0 = slots s !! 0 /\
  length (slots s') = S (_count s') /\
  ((_count s < _maxCount s /\ objects s' = objects s ++ [o]) \/
   (_count s = _maxCount s /\
    exists r old,
      top s = Ok (Some r) s /\ objects s !! r = Some old /\
      slots s !! 0 <> Some r /\
      ((Number.lt sc (score old) = true /\ s' = s) \/
       (Number.lt sc (score old) = false /\
        objects s' = <[r := o]> (objects s))))).
Proof.
  intros Hwf Hadd o.
  destruct (wf_inv s Hwf)
    as (σ & rs & n & m & -> & Hlen & Hnd & Hv & Hcap & Hm).
  rewrite slots_mk. simpl. destruct (decide (n < m)) as [Hnm|Hnm].
  - destruct (add_push_run σ rs n m v sc Hlen Hv Hnm) as (rs' & Hrun & Hsw).
    rewrite Hadd in Hrun. injection Hrun as ->. rewrite slots_mk. simpl.
    split; [|split].
    + rewrite (swims_unchanged _ _ _ _ 0 Hsw) by lia.
      apply lookup_app_l. lia.
    + erewrite swims_length by exact Hsw. rewrite length_app. simpl. lia.
    + by left.
  - assert (n = m) as Hnm' by lia.
    assert (H1 : 1 < length rs) by lia.
    destruct (Forall_valid_lookup _ _ _ Hv H1) as [ot Hot].
    assert (Hne : rs !! 0 <> Some (rs !!! 1)).
    { intros H0.
      pose proof (NoDup_lookup rs 0 1 (rs !!! 1) Hnd H0
                    (list_lookup_lookup_total_lt rs 1 H1)). lia. }
    assert (Htop : top (mk σ (Some <$> rs) n m)
                   = Ok (Some (rs !!! 1)) (mk σ (Some <$> rs) n m))
      by (by apply items_get_Some).
    assert (Hkey : key σ (rs !!! 1) = score ot)
      by (unfold key; by rewrite Hot).
    destruct (Number.lt sc (key σ (rs !!! 1))) eqn:Hlt.
    + rewrite (add_reject_run σ rs n m v sc Hlen Hv Hm Hnm' Hlt) in Hadd.
      injection Hadd as <-. rewrite slots_mk. simpl.
      split; [done|]. split; [done|]. right. split; [done|].
      exists (rs !!! 1), ot. split; [done|]. split; [done|].
      split; [done|]. left. by rewrite <-Hkey.
    + destruct (add_replace_run σ rs n m v sc Hlen Hv Hm Hnm' Hlt)
        as (rs1 & rs' & Hrun & Hs & Hsw).
      rewrite Hadd in Hrun. injection Hrun as ->. rewrite slots_mk. simpl.
      assert (Hl1 : length rs1 = length rs).
      { erewrite sinks_length by exact Hs. by rewrite length_insert. }
      split; [|split].
      * rewrite (swims_unchanged _ _ _ _ 0 Hsw) by lia.
        rewrite list_lookup_insert_ne by lia.
        rewrite (sinks_unchanged _ _ _ _ _ 0 Hs) by lia.
        by rewrite list_lookup_insert_ne by lia.
      * erewrite swims_length by exact Hsw. rewrite length_insert. lia.
      * right. split; [done|]. exists (rs !!! 1), ot.
        split; [done|]. split; [done|]. split; [done|]. right.
        by rewrite <-Hkey.
Qed.

Lemma store_inv_fresh m : store_inv (fresh (T:=T) m).
Proof. done. Qed.

Lemma store_inv_add s v sc s' :
  wf s -> store_inv s -> add v sc s = Ok tt s' -> store_inv s'.
Proof.
  intros Hwf (H0 & Hs & Hl) Hadd.
  destruct (add_spec s v sc Hwf) as (s1 & Hadd1 & Hwf' & _).
  rewrite Hadd in Hadd1. injection Hadd1 as <-.
  destruct (add_effect s v sc s' Hwf Hadd) as (H0' & Hlen' & Hcase).
  assert (Hlen : length (slots s) = S (_count s)) by apply Hwf.
  unfold store_inv. rewrite H0', H0. split; [done|].
  destruct Hcase as [(Hlt & ->)|(Hfull & r & old & _ & Hr & Hne & Hcase)].
  - split.
    + rewrite lookup_app_l; [done|]. by eapply lookup_lt_Some.
    + rewrite length_app. simpl.
      destruct (add_spec s v sc Hwf) as (s1 & Hadd1 & _ & _ & _ & Hc).
      rewrite Hadd in Hadd1. injection Hadd1 as <-.
      destruct Hc as [(_ & Hc & _)|(? & _)]; lia.
  - destruct Hcase as [(_ & ->)|(_ & ->)]; [done|].
    rewrite length_insert. split.
    + rewrite list_lookup_insert_ne; [done|]. congruence.
    + destruct (add_spec s v sc Hwf) as (s1 & Hadd1 & _ & _ & _ & Hc).
      rewrite Hadd in Hadd1. injection Hadd1 as <-.
      destruct Hc as [(? & _)|(_ & t' & _ & [(_ & ->)|(_ & Hc & _)])]; lia.
Qed.

Lemma store_inv_sortDescending s s' :
  wf s -> store_inv s -> sortDescending s = Ok tt s' -> store_inv s'.
Proof.
  intros Hwf (H0 & Hs & Hl) Hrun.
  destruct (sortDescending_wf s s' Hwf Hrun)
    as (_ & Ho & _ & _ & Hperm & H0').
  unfold store_inv. by rewrite Ho, H0', Hperm.
Qed.

Lemma reachable_inv s : reachable s -> wf s /\ store_inv s.
Proof.
  induction 1 as [maxCount s Hnew|s v sc s' _ [Hwf Hinv] Hadd
                 |s s' _ [Hwf Hinv] Hsort].
  - apply new_inr in Hnew as [Hm ->].
    split; [by apply wf_fresh|apply store_inv_fresh].
  - split; [|by eapply store_inv_add].
    destruct (add_spec s v sc Hwf) as (s1 & Hadd1 & Hwf' & _).
    rewrite Hadd in Hadd1. by injection Hadd1 as <-.
  - split; [|by eapply store_inv_sortDescending].
    by apply (sortDescending_wf s s').
Qed.

Lemma reachable_add_all cs : forall s s',
  reachable s -> add_all cs s = Ok tt s' -> reachable s'.
Proof.
  induction cs as [|[v sc] cs IH]; intros s s' Hr Hrun.
  - by injection Hrun as <-.
  - cbn [add_all] in Hrun. unfold bind in Hrun.
    destruct (add v sc s) as [[] s1| |] eqn:Hadd; [|done..].
    eapply IH; [|done]. by eapply reachable_add.
Qed.

Lemma seg_insert_ge {A} (l : list A) n k (x : A) :
  n < k -> seg (<[k := x]> l) n = seg l n.
Proof.
  intros Hk. unfold seg. rewrite drop_insert_ge by lia.
  apply take_insert_ge. lia.
Qed.

(** [removeTop] on a heap of [n >= 1] entries. *)
Lemma removeTop_facts σ rs n m :
  1 <= n -> length rs = S n -> Forall (valid σ) rs ->
  exists rs1,
    removeTop (mk σ (Some <$> rs) n m)
    = Ok (Some (rs !!! 1)) (mk σ (Some <$> rs1) (n - 1) m) /\
    length rs1 = S n /\ Forall (valid σ) rs1 /\
    seg rs1 (n - 1) ++ [rs !!! 1] ≡ₚ seg rs n /\
    (Forall (numeric σ) rs -> heap_ordered (le_key σ) rs n ->
     heap_ordered (le_key σ) rs1 (n - 1)).
Proof.
  intros H1 Hlen Hv.
  assert (Hn : n < length rs) by lia.
  destruct (removeTop_run σ n m rs H1 Hn Hv) as (rs1 & Hrun & Hs).
  destruct (removal_facts _ _ _ _ H1 Hn Hs)
    as (Hlen3 & Hperm3 & Htop3 & Hout3 & Hseg3).
  assert (Hl1 : length rs1 = S n).
  { rewrite length_insert in Hlen3. lia. }
  exists rs1. split; [done|]. split; [done|]. split; [|split].
  - erewrite sinks_Permutation; [| |exact Hs]; rewrite ?length_insert; [|lia].
    apply Forall_insert; [done|]. apply Forall_valid_lookup; [done|lia].
  - rewrite <-Hseg3. replace n with (S (n - 1)) at 3 by lia.
    rewrite seg_snoc by (rewrite length_insert; lia).
    replace (S (n - 1)) with n by lia.
    rewrite seg_insert_ge by lia. by rewrite Htop3.
  - intros Hnum Hh.
    apply (heap_ordered_ext (le_key σ) _ (<[n := rs !!! 1]> rs1)); [|done|].
    + intros c Hc. by rewrite list_lookup_total_insert_ne by lia.
    + apply removal_heap_ordered; [apply _|lia|done| |done].
      eapply sinks_weaken; [| | |done]; rewrite ?length_insert; [lia..|].
      intros a b Ha Hb. apply ngt_le_key.
      * eapply Forall_forall; [|done].
        by apply Forall_insert, Forall_lookup_total_1.
      * eapply Forall_forall; [|done].
        by apply Forall_insert, Forall_lookup_total_1.
Qed.

(** In an array sorted in descending order, the first entry is the
    greatest. *)
Lemma descending_first_greatest σ rs n :
  numeric σ (rs !!! 1) ->
  (forall p, 1 <= p < n -> le_key σ (rs !!! S p) (rs !!! p)) ->
  forall j, 1 <= j <= n -> le_key σ (rs !!! j) (rs !!! 1).
Proof.
  intros Hnum Hdesc j. induction j as [|j IH]; [lia|]. intros Hj.
  destruct (decide (j = 0)) as [->|Hj0]; [by apply le_key_refl|].
  etrans; [apply Hdesc; lia|apply IH; lia].
Qed.

(** The heap order of a state, as [get] shows it. *)
Lemma heap_ordered_get_value σ rs n m :
  n < length rs -> Forall (valid σ) rs -> heap_ordered (le_key σ) rs n ->
  forall i c, 1 <= i -> c = 2 * i \/ c = 2 * i + 1 -> c <= n ->
    exists a b,
      get_value (mk σ (Some <$> rs) n m) (i - 1) = Some a /\
      get_value (mk σ (Some <$> rs) n m) (c - 1) = Some b /\
      Number.le (score a) (score b) = true.
Proof.
  intros Hn Hv Hh i c Hi Hc Hcn.
  destruct (Forall_valid_lookup σ rs i Hv ltac:(lia)) as [a Ha].
  destruct (Forall_valid_lookup σ rs c Hv ltac:(lia)) as [b Hb].
  exists a, b. rewrite !get_value_mk.
  replace (i - 1 + 1) with i by lia. replace (c - 1 + 1) with c by lia.
  rewrite (list_lookup_lookup_total_lt rs i), (list_lookup_lookup_total_lt rs c)
    by lia.
  simpl. split; [done|]. split; [done|].
  specialize (Hh c ltac:(lia)). replace (c / 2) with i in Hh by lia.
  unfold le_key, key in Hh. by rewrite Ha, Hb in Hh.
Qed.

End MoreRefs.

Section MoreSequences.
Import TopNCollection.
Context {T : Type}.
Implicit Types (s : t T) (cs : list (option T * float)).

(** The occupants after a sequence of [add] calls, with the candidates
    left out: together they are the occupants before and the candidates;
    when the scores are numbers, no candidate left out scores more than
    an occupant. *)
Lemma add_all_partition cs : forall s D,
  wf s ->
  (_count s < _maxCount s -> D = []) ->
  exists s' D',
    add_all cs s = Ok tt s' /\
    retained s' ++ D' ≡ₚ retained s ++ D ++ (candidate <$> cs) /\
    (ordered s -> Forall numeric_candidate cs ->
     (forall d r, d ∈ D -> r ∈ retained s ->
                  Number.le (score d) (score r) = true) ->
     forall d r, d ∈ D' -> r ∈ retained s' ->
                 Number.le (score d) (score r) = true).
Proof.
  induction cs as [|[v sc] cs IH]; intros s D Hwf HD.
  - exists s, D. split; [done|]. split; [|done]. simpl.
    by rewrite (right_id_L [] (++)).
  - destruct (add_spec s v sc Hwf) as (s1 & Hrun & Hwf1 & Hm1 & Hord1 & Hcase).
    cbn [add_all]. rewrite (bind_Ok _ _ _ _ _ Hrun).
    set (o := {| value := v; score := sc |}). fold o in Hcase.
    destruct Hcase as [(Hlt & Hc1 & Hret)|(Hfull & old & Htop & Hcase)].
    + rewrite (HD Hlt) in *.
      destruct (IH s1 [] Hwf1) as (s' & D' & Hrun' & Hperm & Hle'); [done|].
      exists s', D'. split; [done|]. split.
      * rewrite Hperm, Hret. csimpl. change (candidate (v, sc)) with o.
        solve_Permutation.
      * intros Hord [Hsc Hcs]%Forall_cons _.
        apply Hle'; [by apply Hord1|done|].
        intros d r Hd. by apply not_elem_of_nil in Hd.
    + assert (Htopin : old ∈ retained s).
      { apply top_retained; [done| |done].
        destruct Hwf as (_ & _ & _ & _ & _ & ?). lia. }
      destruct Hcase as [(Hlt & ->)|(Hlt & Hc1 & Hret)].
      * destruct (IH s (o :: D) Hwf) as (s' & D' & Hrun' & Hperm & Hle');
          [lia|].
        exists s', D'. split; [done|]. split.
        -- rewrite Hperm. csimpl. change (candidate (v, sc)) with o.
           solve_Permutation.
        -- intros Hord [Hsc Hcs]%Forall_cons Hle.
           apply Hle'; [done|done|].
           intros d r [->|Hd]%elem_of_cons Hr; [|by apply Hle].
           eapply number_le_trans; [apply number_lt_le, Hlt|].
           by apply (top_least s old).
      * destruct (IH s1 (old :: D) Hwf1) as (s' & D' & Hrun' & Hperm & Hle');
          [lia|].
        exists s', D'. split; [done|]. split.
        -- rewrite Hperm. csimpl. change (candidate (v, sc)) with o.
           trans ((old :: retained s1) ++ D ++ (candidate <$> cs));
             [solve_Permutation|].
           rewrite Hret. solve_Permutation.
        -- intros Hord [Hsc Hcs]%Forall_cons Hle.
           unfold numeric_candidate in Hsc. simpl in Hsc.
           apply Hle'; [by apply Hord1|done|].
           pose proof (top_least s old Hwf Hord Htop) as Hmin.
           assert (Htopo : Number.le (score old) sc = true).
           { apply number_lt_false_le; [done| |done].
             by apply (retained_numeric s). }
           intros d r Hd Hr.
           assert (Hr' : r ∈ o :: retained s).
           { rewrite <-Hret. by right. }
           apply elem_of_cons in Hd as [->|Hd];
             apply elem_of_cons in Hr' as [->|Hr']; simpl.
           ++ done.
           ++ by apply Hmin.
           ++ eapply number_le_trans; [by apply Hle|done].
           ++ by apply Hle.
Qed.

End MoreSequences.

(** ** The methods of VectorizedList *)

Lemma number_ge_NaN x y : Number.isNaN y = true -> Number.ge x y = false.
Proof.
  intros Hy. unfold Number.ge. fold (Number.le y x).
  destruct (Number.le y x) eqn:E; [|done].
  apply number_le_not_nan in E as [? _]. congruence.
Qed.

Lemma filter_none {A} (P : A -> Prop) `{!forall x, Decision (P x)} l :
  Forall (fun x => ~ P x) l -> filter P l = [].
Proof.
  induction 1 as [|x l Hx _ IH]; [done|]. by rewrite filter_cons_False.
Qed.

Section ListFacts.
Import VectorizedList.
Context {T : Type} (vector : VectorMath).
Implicit Types (this : VectorizedList.t T) (other : Embedding.t).
Implicit Types (entries : list (T * Embedding.t)).

Lemma add_each_app entries : forall this,
  add_each vector this entries
  = inr (mk (_items this ++ entries.*1)
            (_embeddings this
               ++ (Embedding.normalize vector <$> entries.*2))).
Proof.
  induction entries as [|[item e] entries IH]; intros [items embeddings].
  - simpl. by rewrite !(right_id_L [] (++)).
  - cbn [add_each add]. rewrite IH. simpl. by rewrite <-!app_assoc.
Qed.

Lemma normalize_isNormalized (e : Embedding.t) :
  Embedding.isNormalized (Embedding.normalize vector e) = true.
Proof. by destruct e as [v []]. Qed.

Lemma similar_loop_filter this other minScore embeddings : forall i,
  similar_loop vector this other minScore embeddings i
  = filter (fun o => Number.ge (score o) minScore = true)
      (imap (fun j => scored vector this other (i + j)) embeddings).
Proof.
  induction embeddings as [|e rest IH]; intros i; [done|].
  cbn [similar_loop]. rewrite imap_cons, filter_cons. cbn [scored score].
  rewrite Nat.add_0_r, IH.
  assert (Hext : imap (fun j => scored vector this other (i + 1 + j)) rest
                 = imap ((fun j => scored vector this other (i + j)) ∘ S) rest).
  { apply imap_ext. intros j x _. simpl. f_equal. lia. }
  rewrite Hext. destruct (Number.ge _ _); by case_decide.
Qed.

Lemma fed_similar_loop this other minScore embeddings : forall i,
  candidate <$> fed vector this other minScore embeddings i
  = similar_loop vector this other minScore embeddings i.
Proof.
  induction embeddings as [|e rest IH]; intros i; [done|].
  cbn [fed similar_loop]. destruct (Number.ge _ _); [|apply IH].
  csimpl. by rewrite IH.
Qed.

Lemma similar_loop_fed this other minScore embeddings i :
  (fun o => (value o, score o))
    <$> similar_loop vector this other minScore embeddings i
  = fed vector this other minScore embeddings i.
Proof.
  rewrite <-fed_similar_loop, <-list_fmap_compose.
  rewrite <-(list_fmap_id (fed _ _ _ _ _ _)) at 2.
  apply list_fmap_ext. by intros j [v sc] _.
Qed.

(** [search] passes to [add] what [similar] yields. *)
Lemma search_loop_similar this other minScore embeddings i matches :
  search_loop vector this other minScore embeddings i matches
  = TopNCollection.add_all
      ((fun o => (value o, score o))
         <$> similar_loop vector this other minScore embeddings i)
      matches.
Proof. rewrite similar_loop_fed. apply search_loop_fed. Qed.

(** The loop of [nearest] leaves the best index within the range of the
    indices seen, and does not go back to -1. *)
Lemma nearest_loop_range other embeddings : forall i best iNearest,
  (-1 <= iNearest < Z.of_nat i)%Z ->
  let r := nearest_loop vector other embeddings i best iNearest in
  (-1 <= r < Z.of_nat (i + length embeddings))%Z /\
  (0 <= iNearest -> 0 <= r)%Z.
Proof.
  induction embeddings as [|e rest IH]; intros i best iNearest Hi; simpl.
  - lia.
  - destruct (Number.ge _ _).
    + destruct (IH (i + 1) (Embedding.cosineSimilarity vector e other)
                  (Z.of_nat i)) as [Hr Hpos]; [lia|].
      simpl in Hr, Hpos. split; [lia|]. intros _. apply Hpos. lia.
    + destruct (IH (i + 1) best iNearest) as [Hr Hpos]; [lia|].
      simpl in Hr, Hpos. split; [lia|done].
Qed.

Lemma nearest_loop_found other embeddings : forall i best iNearest,
  (-1 <= iNearest < Z.of_nat i)%Z ->
  Exists (fun e =>
            Number.ge (Embedding.cosineSimilarity vector e other) best = true)
    embeddings ->
  (0 <= nearest_loop vector other embeddings i best iNearest)%Z.
Proof.
  induction embeddings as [|e rest IH]; intros i best iNearest Hi Hex.
  - by apply Exists_nil in Hex.
  - cbn [nearest_loop].
    destruct (Number.ge (Embedding.cosineSimilarity vector e other) best)
      eqn:Hge.
    + apply (nearest_loop_range other rest (i + 1)); lia.
    + apply Exists_cons in Hex as [?|Hex]; [congruence|].
      apply IH; [lia|done].
Qed.

(** One call of [add] on a collection of capacity 1: the first candidate
    is stored, a later one takes its place unless it scores less. *)
Lemma add_capacity_one_empty (v : option T) (sc : float) :
  TopNCollection.add v sc (TopNCollection.fresh 1)
  = Ok tt (TopNCollection.mk [sentinel; {| value := v; score := sc |}]
             [Some 0; Some 1] 1 1).
Proof. reflexivity. Qed.

Lemma add_capacity_one_full (v v' : option T) (sc sc' : float) :
  TopNCollection.add v' sc'
    (TopNCollection.mk [sentinel; {| value := v; score := sc |}]
       [Some 0; Some 1] 1 1)
  = Ok tt (TopNCollection.mk
             [sentinel; if Number.lt sc' sc
                        then {| value := v; score := sc |}
                        else {| value := v'; score := sc' |}]
             [Some 0; Some 1] 1 1).
Proof.
  unfold TopNCollection.add, bind. simpl. by destruct (Number.lt sc' sc).
Qed.

Lemma search_loop_top1 this other embeddings : forall i best iNearest,
  (-1 <= iNearest < Z.of_nat i)%Z ->
  Number.ge best Number.MIN_VALUE = true ->
  (iNearest = -1 -> best = Number.MIN_VALUE)%Z ->
  exists best',
    search_loop vector this other Number.MIN_VALUE embeddings i
      (top1 this best iNearest)
    = Ok tt (top1 this best'
               (nearest_loop vector other embeddings i best iNearest)).
Proof.
  induction embeddings as [|e rest IH]; intros i best iNearest Hi Hb H0.
  - by exists best.
  - cbn [search_loop nearest_loop].
    set (sc := Embedding.cosineSimilarity vector e other).
    assert (Hbn : Number.isNaN best = false).
    { unfold Number.ge in Hb. by apply number_le_not_nan in Hb as [_ ?]. }
    destruct (Number.ge sc best) eqn:Hge.
    + (* the score is at least the best: both take the entry *)
      assert (Hmin : Number.ge sc Number.MIN_VALUE = true).
      { unfold Number.ge in *. by eapply number_le_trans. }
      rewrite Hmin.
      assert (Hadd : TopNCollection.add (_items this !! i) sc
                       (top1 this best iNearest)
                     = Ok tt (top1 this sc (Z.of_nat i))).
      { unfold top1. destruct (Z.ltb_spec iNearest 0) as [?|?];
          destruct (Z.ltb_spec (Z.of_nat i) 0) as [?|_]; try lia;
          rewrite Nat2Z.id.
        - apply add_capacity_one_empty.
        - rewrite add_capacity_one_full.
          unfold Number.ge in Hge. apply number_le_lt_false in Hge.
          by rewrite Hge. }
      rewrite (bind_Ok _ _ _ _ _ Hadd). apply IH; [lia|done|lia].
    + destruct (Number.ge sc Number.MIN_VALUE) eqn:Hmin.
      * (* selected by [search], and rejected by [add] *)
        assert (Hfull : (0 <= iNearest)%Z).
        { destruct (decide (iNearest = -1)%Z) as [Hn|?]; [|lia].
          rewrite (H0 Hn) in Hge. congruence. }
        assert (Hlt : Number.lt sc best = true).
        { destruct (Number.lt sc best) eqn:Hlt; [done|].
          unfold Number.ge in Hge, Hmin.
          apply number_le_not_nan in Hmin as [_ Hsn].
          pose proof (number_lt_false_le _ _ Hsn Hbn Hlt) as Hle.
          unfold Number.le in Hle. congruence. }
        assert (Hadd : TopNCollection.add (_items this !! i) sc
                         (top1 this best iNearest)
                       = Ok tt (top1 this best iNearest)).
        { unfold top1. destruct (Z.ltb_spec iNearest 0) as [?|?]; [lia|].
          rewrite add_capacity_one_full. by rewrite Hlt. }
        rewrite (bind_Ok _ _ _ _ _ Hadd). apply IH; [lia|done|done].
      * unfold bind, ret. apply IH; [lia|done|done].
Qed.

End ListFacts.

(** ** The methods of EventHistory *)

Section HistoryFacts.
Import EventHistory.
Context {T Date : Type}.
Implicit Types (this : EventHistory.t T Date) (calls : list (@call T Date)).
Implicit Types (history : list (AgentEvent T Date)).

Lemma newest_first_eq history k :
  k <= length history ->
  newest_first history k = Some <$> reverse (take k history).
Proof.
  induction k as [|k IH]; intros Hk; [done|]. cbn [newest_first].
  destruct (lookup_lt_is_Some_2 history k ltac:(lia)) as [e He].
  rewrite (take_S_r _ _ _ He), reverse_snoc, IH by lia. csimpl.
  by rewrite He.
Qed.

Lemma oldest_first_eq history k : forall i,
  i + k <= length history ->
  oldest_first history i k = Some <$> take k (drop i history).
Proof.
  induction k as [|k IH]; intros i Hk; [by rewrite take_0|].
  cbn [oldest_first].
  destruct (lookup_lt_is_Some_2 history i ltac:(lia)) as [e He].
  rewrite IH by lia. rewrite (drop_S _ _ _ He). csimpl.
  rewrite He. do 2 f_equal. by rewrite Nat.add_1_r.
Qed.

Lemma array_splice_0_eq {A} (a : list A) (deleteCount : Z) :
  (deleteCount < Z.of_nat (length a))%Z ->
  array_splice_0 a deleteCount = drop (Z.to_nat deleteCount) a.
Proof. intros Hlt. unfold array_splice_0. f_equal. lia. Qed.

Lemma numbered_append this now d :
  numbered this -> numbered (append this now d).
Proof.
  intros Hn i e. unfold append. simpl. rewrite length_app. simpl.
  intros He. apply lookup_app_Some in He as [He|[Hi He]].
  - specialize (Hn i e He). lia.
  - apply list_lookup_singleton_Some in He as [Hi' <-]. simpl. lia.
Qed.

Lemma numbered_trim this count :
  numbered this -> numbered (trim this count).
Proof.
  intros Hn i e. unfold trim.
  destruct (Z.leb_spec (Z.of_nat (length (_history this))) count) as [?|Hlt];
    simpl; [done|].
  rewrite array_splice_0_eq by done. rewrite lookup_drop, length_drop.
  intros He. specialize (Hn _ e He). apply lookup_lt_Some in He. lia.
Qed.

Lemma run_snoc calls (c : @call T Date) :
  run (calls ++ [c]) = run_call (run calls) c.
Proof. unfold run. by rewrite fold_left_app. Qed.

End HistoryFacts.

(** ** Strings *)

Section StringFacts.
Import JsString.
Implicit Types (text : JsString.t) (c : N).

Lemma indexOf_from_spec text c : forall i,
  (indexOf_from text c i = (-1)%Z /\ c ∉ text) \/
  exists pre post,
    text = pre ++ (c :: post) /\ (c ∉ pre) /\
    indexOf_from text c i = (i + Z.of_nat (length pre))%Z.
Proof.
  induction text as [|u rest IH]; intros i.
  - left. split; [done|]. apply not_elem_of_nil.
  - cbn [indexOf_from]. destruct (N.eqb_spec u c) as [->|Hne].
    + right. exists [], rest. split; [done|]. split; [apply not_elem_of_nil|].
      simpl. lia.
    + destruct (IH (i + 1)%Z) as [[Hi Hnot]|(pre & post & -> & Hpre & Hi)].
      * left. split; [done|]. by apply not_elem_of_cons.
      * right. exists (u :: pre), post. split; [done|].
        split; [by apply not_elem_of_cons|]. rewrite Hi. simpl. lia.
Qed.

Lemma lastIndexOf_from_spec text c : forall i found,
  (lastIndexOf_from text c i found = found /\ c ∉ text) \/
  exists pre post,
    text = pre ++ (c :: post) /\ (c ∉ post) /\
    lastIndexOf_from text c i found = (i + Z.of_nat (length pre))%Z.
Proof.
  induction text as [|u rest IH]; intros i found.
  - left. split; [done|]. apply not_elem_of_nil.
  - cbn [lastIndexOf_from].
    destruct (IH (i + 1)%Z (if (u =? c)%N then i else found))
      as [[Hi Hnot]|(pre & post & -> & Hpost & Hi)].
    + destruct (N.eqb_spec u c) as [->|Hne].
      * right. exists [], rest. split; [done|]. split; [done|].
        rewrite Hi. simpl. lia.
      * left. split; [done|]. by apply not_elem_of_cons.
    + right. exists (u :: pre), post. split; [done|]. split; [done|].
      rewrite Hi. simpl. lia.
Qed.

Lemma indexOf_spec text c :
  (indexOf text c = (-1)%Z /\ c ∉ text) \/
  exists pre post,
    text = pre ++ (c :: post) /\ (c ∉ pre) /\
    indexOf text c = Z.of_nat (length pre).
Proof.
  destruct (indexOf_from_spec text c 0) as [?|(pre & post & ? & ? & Hi)];
    [by left|right].
  exists pre, post. split; [done|]. split; [done|]. unfold indexOf. lia.
Qed.

Lemma lastIndexOf_spec text c :
  (lastIndexOf text c = (-1)%Z /\ c ∉ text) \/
  exists pre post,
    text = pre ++ (c :: post) /\ (c ∉ post) /\
    lastIndexOf text c = Z.of_nat (length pre).
Proof.
  destruct (lastIndexOf_from_spec text c 0 (-1))
    as [?|(pre & post & ? & ? & Hi)]; [by left|right].
  exists pre, post. split; [done|]. split; [done|]. unfold lastIndexOf. lia.
Qed.

Lemma indexOf_le text c k :
  text !! k = Some c -> (0 <= indexOf text c <= Z.of_nat k)%Z.
Proof.
  intros Hk.
  destruct (indexOf_spec text c) as [[_ Hnot]|(pre & post & -> & Hpre & ->)].
  - exfalso. apply Hnot. by eapply list_elem_of_lookup_2.
  - split; [lia|]. destruct (decide (k < length pre)) as [Hlt|]; [|lia].
    exfalso. apply Hpre. rewrite lookup_app_l in Hk by done.
    by eapply list_elem_of_lookup_2.
Qed.

Lemma lastIndexOf_ge text c k :
  text !! k = Some c -> (Z.of_nat k <= lastIndexOf text c)%Z.
Proof.
  intros Hk.
  destruct (lastIndexOf_spec text c)
    as [[_ Hnot]|(pre & post & -> & Hpost & ->)].
  - exfalso. apply Hnot. by eapply list_elem_of_lookup_2.
  - destruct (decide (k <= length pre)) as [|Hgt]; [lia|].
    exfalso. apply Hpost. rewrite lookup_app_r in Hk by lia.
    destruct (k - length pre) as [|j] eqn:Hj; [lia|]. simpl in Hk.
    by eapply list_elem_of_lookup_2.
Qed.

(** The text between the first [open] and the last [close], when the one
    is before the other. *)
Lemma span_spec text open close :
  (0 <= indexOf text open < lastIndexOf text close)%Z ->
  exists pre body post,
    text = pre ++ [open] ++ body ++ [close] ++ post /\
    (open ∉ pre) /\ (close ∉ post) /\
    substring text (indexOf text open) (lastIndexOf text close + 1)
    = [open] ++ body ++ [close].
Proof.
  intros Hlt.
  destruct (indexOf_spec text open)
    as [[Hi _]|(pre & post0 & H0 & Hpre & Hi)]; [lia|].
  destruct (lastIndexOf_spec text close)
    as [[Hl _]|(pre1 & post & H1 & Hpost & Hl)]; [lia|].
  rewrite Hi, Hl in *.
  set (body := take (length pre1 - length pre - 1) post0).
  assert (Hpre1 : pre1 = pre ++ open :: body).
  { assert (Ht : take (length pre1) text = pre1)
      by (by rewrite H1, take_app_length).
    rewrite <-Ht, H0. rewrite take_app_ge by lia.
    replace (length pre1 - length pre)
      with (S (length pre1 - length pre - 1)) by lia.
    done. }
  assert (Htext : text = pre ++ [open] ++ body ++ [close] ++ post).
  { rewrite H1, Hpre1. by rewrite <-app_assoc. }
  exists pre, body, post. split; [done|]. split; [done|]. split; [done|].
  unfold substring.
  assert (Hlen : length text = length pre + (length body + 2 + length post)).
  { rewrite Htext, !length_app. simpl. lia. }
  assert (Hl1 : length pre1 = length pre + S (length body)).
  { rewrite Hpre1, length_app. simpl. lia. }
  replace (Z.to_nat _) with (length body + 2) by lia.
  replace (Z.to_nat _) with (length pre) by lia.
  rewrite Htext at 1. rewrite drop_app_length.
  replace ([open] ++ body ++ [close] ++ post)
    with (([open] ++ body ++ [close]) ++ post)
    by (by rewrite <-!app_assoc).
  replace (length body + 2) with (length ([open] ++ body ++ [close]))
    by (rewrite !length_app; simpl; lia).
  by rewrite take_app_length.
Qed.

End StringFacts.

(* ================================================================== *)
(** * Further properties of the code *)
(* ================================================================== *)

(** ** TopNCollection *)

Section TopNCollectionFurther.
Import TopNCollection.
Context {T : Type}.
Implicit Types (s : t T) (cs : list (option T * float)).

(** X1 (bounds of [get]).  On a collection built by the constructor, [add]
    and [sortDescending], [get(i)] returns an entry for every index below
    [count] and [undefined] for every index from [count] on: the array
    holds nothing past the occupied positions. *)
Theorem get_within_count s i :
  reachable s ->
  exists x,
    get i s = Ok x s /\
    (i < _count s -> is_Some (deref s x)) /\
    (_count s <= i -> x = None).
Proof.
  intros [Hwf _]%reachable_inv.
  destruct (wf_inv s Hwf)
    as (σ & rs & n & m & -> & Hlen & Hnd & Hv & Hcap & Hm).
  exists (rs !! (i + 1)). unfold get, items_get. simpl.
  rewrite array_get_fmap. split; [done|]. split.
  - intros Hi. rewrite (list_lookup_lookup_total_lt rs (i + 1)) by lia.
    simpl. apply Forall_valid_lookup; [done|lia].
  - intros Hi. apply lookup_ge_None. lia.
Qed.

(** X2 (the sentinel).  On a collection built by the constructor, [add] and
    [sortDescending], slot 0 of [_items] still holds the sentinel with the
    score [Number.MIN_VALUE] and no value: no call moves or changes it. *)
Theorem sentinel_kept s :
  reachable s ->
  exists x,
    items_get 0 s = Ok x s /\
    deref s x = Some {| value := None; score := Number.MIN_VALUE |}.
Proof.
  intros [Hwf (H0 & Hs & _)]%reachable_inv.
  destruct (wf_inv s Hwf)
    as (σ & rs & n & m & -> & Hlen & Hnd & Hv & Hcap & Hm).
  rewrite slots_mk in H0. simpl in Hs.
  exists (Some 0). unfold items_get. simpl.
  by rewrite array_get_fmap, H0.
Qed.

(** X3 (entries are recycled).  A collection built by the constructor,
    [add] and [sortDescending] has allocated one object for each occupant
    and the sentinel, no more: [add] allocates below capacity only, so the
    objects never outnumber [maxCount + 1]. *)
Theorem objects_bounded s :
  reachable s ->
  length (objects s) = S (_count s) /\ _count s <= _maxCount s.
Proof.
  intros [Hwf (_ & _ & Hl)]%reachable_inv.
  destruct Hwf as (_ & Hlen & _ & _ & Hcap & _). split; [|done].
  by rewrite Hl.
Qed.

(** X4 (what [add] does to the entry objects).  On a collection built by
    the constructor, [add] and [sortDescending], [add] returns.  Below
    capacity it allocates one new object and leaves the others as they
    are.  At capacity it allocates nothing: a candidate that scores less
    than the top leaves the collection unchanged, and any other candidate
    is written into the object that [top] returned before the call, so a
    caller that kept this object sees the new value and score in it. *)
Theorem add_recycles_top s v sc :
  reachable s ->
  exists s',
    add v sc s = Ok tt s' /\
    ((_count s < _maxCount s /\
      objects s' = objects s ++ [ {| value := v; score := sc |} ]) \/
     (_count s = _maxCount s /\
      exists r old,
        top s = Ok (Some r) s /\ objects s !! r = Some old /\
        ((Number.lt sc (score old) = true /\ s' = s) \/
         (Number.lt sc (score old) = false /\
          objects s' = <[r := {| value := v; score := sc |}]> (objects s))))).
Proof.
  intros [Hwf _]%reachable_inv.
  destruct (add_spec s v sc Hwf) as (s' & Hadd & _).
  exists s'. split; [done|].
  destruct (add_effect s v sc s' Hwf Hadd) as (_ & _ & Hcase).
  destruct Hcase as [?|(Hfull & r & old & Htop & Hr & _ & Hcase)];
    [by left|right].
  split; [done|]. by exists r, old.
Qed.

(** X5 (NaN is never rejected).  At capacity, a candidate whose score is
    NaN takes the place of the top entry, and so does any candidate when
    the score of the top is NaN: [score < top.score] is then false. *)
Theorem add_unordered_evicts_top s v sc old :
  reachable s ->
  _count s = _maxCount s ->
  get_value s 0 = Some old ->
  Number.isNaN sc = true \/ Number.isNaN (score old) = true ->
  exists s',
    add v sc s = Ok tt s' /\
    _count s' = _count s /\
    old :: retained s' ≡ₚ {| value := v; score := sc |} :: retained s.
Proof.
  intros [Hwf _]%reachable_inv Hfull Htop Hnan.
  destruct (add_spec s v sc Hwf) as (s' & Hadd & _ & _ & _ & Hcase).
  exists s'. split; [done|].
  destruct Hcase as [(Hlt & _)|(_ & top' & Htop' & Hcase)]; [lia|].
  rewrite Htop in Htop'. injection Htop' as <-.
  apply number_isNaN_lt in Hnan.
  destruct Hcase as [(Hlt & _)|(_ & Hc & Hret)]; [congruence|done].
Qed.

(** X6 ([top] is the least).  After any sequence of [add] calls whose
    scores are numbers, [top] returns an occupant whose score is at most
    the score of every occupant; it returns [undefined] only when nothing
    was added. *)
Theorem top_least_retained maxCount cs s0 s :
  new maxCount = inr s0 ->
  Forall numeric_candidate cs ->
  add_all cs s0 = Ok tt s ->
  exists x,
    top s = Ok x s /\
    match deref s x with
    | Some least =>
        least ∈ retained s /\
        forall o, o ∈ retained s ->
                  Number.le (score least) (score o) = true
    | None => cs = []
    end.
Proof.
  intros [Hm ->]%new_inr Hnum Hrun.
  destruct (add_all_spec cs _ (wf_fresh maxCount Hm))
    as (s1 & Hrun1 & Hwf & _ & Hcount & Hord).
  rewrite Hrun in Hrun1. injection Hrun1 as <-.
  specialize (Hord (ordered_fresh maxCount) Hnum). simpl in Hcount.
  exists (array_get (_items s) 1). split; [done|].
  change (deref s (array_get (_items s) 1)) with (get_value s 0).
  destruct (get_value s 0) as [least|] eqn:Htop.
  - split; [|by apply top_least].
    apply top_retained; [done| |done].
    destruct (wf_inv s Hwf)
      as (σ & rs & n & m & -> & Hlen & Hnd & Hv & Hcap & Hm').
    rewrite get_value_mk in Htop. simpl in *.
    destruct (rs !! 1) eqn:E; [|done]. apply lookup_lt_Some in E. lia.
  - destruct (wf_inv s Hwf)
      as (σ & rs & n & m & -> & Hlen & Hnd & Hv & Hcap & Hm').
    destruct (decide (n = 0)) as [->|Hn].
    + destruct cs; [done|]. cbn [_count length] in Hcount. lia.
    + destruct (get_value_top σ rs n m) as (t' & Ht & _); [lia|done|].
      congruence.
Qed.

(** X7 ([removeTop] takes the least out).  After a non-empty sequence of
    [add] calls whose scores are numbers, [removeTop] returns the entry
    that [top] returns, allocates and changes no object, decrements
    [count], leaves the other occupants (as a multiset), each of them
    scoring at least as much as the entry removed, and leaves them in heap
    order. *)
Theorem removeTop_extracts_least maxCount cs s0 s :
  new maxCount = inr s0 ->
  Forall numeric_candidate cs ->
  add_all cs s0 = Ok tt s ->
  cs <> [] ->
  exists x least s',
    top s = Ok x s /\
    removeTop s = Ok x s' /\
    deref s x = Some least /\
    objects s' = objects s /\
    _count s' = _count s - 1 /\
    least :: retained s' ≡ₚ retained s /\
    (forall o, o ∈ retained s' ->
               Number.le (score least) (score o) = true) /\
    (forall i c, 1 <= i -> c = 2 * i \/ c = 2 * i + 1 -> c <= _count s' ->
       exists a b, get_value s' (i - 1) = Some a /\
                   get_value s' (c - 1) = Some b /\
                   Number.le (score a) (score b) = true).
Proof.
  intros [Hm ->]%new_inr Hnum Hrun Hcs.
  destruct (add_all_spec cs _ (wf_fresh maxCount Hm))
    as (s1 & Hrun1 & Hwf & _ & Hcount & Hord).
  rewrite Hrun in Hrun1. injection Hrun1 as <-.
  specialize (Hord (ordered_fresh maxCount) Hnum).
  assert (H1 : 1 <= _count s).
  { rewrite Hcount. destruct cs; [done|]. unfold fresh.
    cbn [_count _maxCount length]. lia. }
  pose proof (top_least s) as Hleast.
  pose proof (top_retained s) as Hin.
  destruct (wf_inv s Hwf)
    as (σ & rs & n & m & -> & Hlen & Hnd & Hv & Hcap & Hm').
  simpl in H1. apply ordered_mk in Hord as Hord'. destruct Hord' as [Hnm Hh].
  destruct (removeTop_facts σ rs n m H1 Hlen Hv)
    as (rs1 & Hrem & Hl1 & Hv1 & Hseg & Hh1).
  destruct (get_value_top σ rs n m) as (least & Htop & Hlook & Hkey);
    [lia|done|].
  exists (Some (rs !!! 1)), least, (mk σ (Some <$> rs1) (n - 1) m).
  assert (Hret : least :: retained (mk σ (Some <$> rs1) (n - 1) m)
                 ≡ₚ retained (mk σ (Some <$> rs) n m)).
  { rewrite !retained_mk by lia. rewrite <-Hseg, objs_snoc, Hlook. simpl.
    by rewrite <-Permutation_cons_append. }
  split; [by apply items_get_Some; lia|]. split; [done|].
  split; [done|]. split; [done|]. split; [done|]. split; [done|]. split.
  - intros o Ho. apply (Hleast least Hwf Hord Htop).
    rewrite <-Hret. by right.
  - simpl. apply heap_ordered_get_value; [lia|done|by apply Hh1].
Qed.

(** X8 ([add] after [sortDescending]).  After [add] calls whose scores are
    numbers and [sortDescending], [get(0)], which is also [top], has the
    greatest score; at capacity, [add] then drops every candidate that
    scores less than this greatest score, whatever the other occupants
    score. *)
Theorem sortDescending_top_greatest maxCount cs s0 s s' :
  new maxCount = inr s0 ->
  Forall numeric_candidate cs ->
  add_all cs s0 = Ok tt s ->
  sortDescending s = Ok tt s' ->
  forall greatest,
    get_value s' 0 = Some greatest ->
    (forall o, o ∈ retained s' ->
               Number.le (score o) (score greatest) = true) /\
    (_count s' = _maxCount s' ->
     forall v sc, Number.lt sc (score greatest) = true ->
                  add v sc s' = Ok tt s').
Proof.
  intros [Hm ->]%new_inr Hnum Hrun Hsort greatest Hg.
  destruct (add_all_spec cs _ (wf_fresh maxCount Hm))
    as (s1 & Hrun1 & Hwf & _ & _ & Hord).
  rewrite Hrun in Hrun1. injection Hrun1 as <-.
  specialize (Hord (ordered_fresh maxCount) Hnum).
  destruct (wf_inv s Hwf)
    as (σ & rs & n & m & -> & Hlen & Hnd & Hv & Hcap & Hm').
  apply ordered_mk in Hord as [Hnm Hh].
  destruct (sortDescending_run σ rs n m Hlen Hv)
    as (rs' & Hsort' & Hperm & Hout & Hdesc).
  rewrite Hsort in Hsort'. injection Hsort' as ->.
  specialize (Hdesc Hnm Hh).
  assert (Hlen' : length rs' = S n) by (by rewrite Hperm).
  assert (Hv' : Forall (valid σ) rs') by (by rewrite Hperm).
  assert (Hnm' : Forall (numeric σ) rs') by (by rewrite Hperm).
  rewrite get_value_mk in Hg. simpl in Hg.
  destruct (rs' !! 1) as [r1|] eqn:E1; [|done]. simpl in Hg.
  pose proof (lookup_lt_Some _ _ _ E1) as H1.
  apply list_lookup_total_correct in E1 as E1'.
  assert (Hkey : key σ (rs' !!! 1) = score greatest)
    by (unfold key; by rewrite E1', Hg).
  pose proof (descending_first_greatest σ rs' n
                (Forall_lookup_total_1 _ _ 1 Hnm' H1) Hdesc) as Hmax.
  split.
  - intros o Ho. rewrite retained_mk in Ho by lia.
    apply list_elem_of_omap in Ho as (r & Hr & Hro).
    apply elem_of_seg in Hr as (k & Hk & <-); [|lia].
    specialize (Hmax k Hk). unfold le_key in Hmax. rewrite Hkey in Hmax.
    unfold key in Hmax. by rewrite Hro in Hmax.
  - simpl. intros -> v sc Hlt.
    apply add_reject_run; [done|done|done|done|by rewrite Hkey].
Qed.

(** X9 ([clear] and then [add]).  On a collection built by the
    constructor, [add] and [sortDescending]: [clear] leaves an empty
    collection unchanged; after [clear] on one that is not empty, the next
    [add] throws a [TypeError], whatever the candidate.  Thrown at
    capacity, the error leaves the collection as [clear] left it; thrown
    below capacity, it leaves [count] one more and the candidate at
    position 1: the call that failed has changed the collection. *)
Theorem clear_spoils_add s :
  reachable s ->
  (_count s = 0 -> clear s = Ok tt s) /\
  (1 <= _count s ->
   forall v sc, exists s1 s2,
     clear s = Ok tt s1 /\
     add v sc s1 = Throw TypeError s2 /\
     (_count s = _maxCount s -> s2 = s1) /\
     (_count s < _maxCount s ->
      _count s2 = S (_count s) /\
      get_value s2 0 = Some {| value := v; score := sc |})).
Proof.
  intros [Hwf _]%reachable_inv.
  destruct (wf_inv s Hwf)
    as (σ & rs & n & m & -> & Hlen & Hnd & Hv & Hcap & Hm).
  simpl. split.
  - intros ->. by destruct rs as [|r0 [|r1 rest]].
  - intros H1 v sc. destruct rs as [|r0 [|r1 rest]]; simpl in Hlen; [lia..|].
    set (s1 := mk σ [Some r0] n m).
    set (o := {| value := v; score := sc |}).
    enough (exists s2,
              add v sc s1 = Throw TypeError s2 /\
              (n = m -> s2 = s1) /\
              (n < m -> _count s2 = S n /\ get_value s2 0 = Some o))
      as (s2 & H2 & H3 & H4) by (by exists s1, s2).
    unfold s1, add.
    rewrite (bind_Ok _ _ _ _ _ (get_count_eq _ _ _ _)).
    rewrite (bind_Ok _ _ _ _ _ (get_maxCount_eq _ _ _ _)).
    destruct (Nat.eqb_spec n m) as [Hnm|Hnm].
    + exists (mk σ [Some r0] n m). split; [done|]. split; [done|]. lia.
    + set (st := mk (σ ++ [o]) [Some r0; Some (length σ)] (n + 1) m).
      exists st. split; [|split; [done|]].
      * rewrite (bind_Ok _ _ _ _ _ (incr_count_eq _ _ _ _)).
        rewrite (bind_Ok _ _ _ _ _ (alloc_eq _ _ _ _ _)).
        unfold items_push. cbn [bind _items objects _count _maxCount].
        unfold st, o. unfold array_push. cbn [app].
        rewrite (bind_Ok _ _ _ _ _ (get_count_eq _ _ _ _)).
        unfold upHeap, items_get at 1.
        cbn [bind _items objects _count _maxCount].
        replace (array_get [Some r0; Some (length σ)] (n + 1))
          with (@None nat).
        2:{ unfold array_get. rewrite lookup_ge_None_2; [done|]. simpl. lia. }
        cbn [upHeap_loop]. rewrite shiftr_1.
        destruct (Nat.ltb_spec 0 ((n + 1) / 2)) as [_|?]; [|lia].
        unfold bind at 1 2. unfold items_get at 1. unfold bind at 1.
        match goal with
        | |- context [score_of ?p ?st0] =>
            destruct (score_of p st0) as [a st'|e st'|] eqn:Hp
        end.
        -- apply score_of_Ok in Hp as ->. unfold bind. reflexivity.
        -- by apply score_of_Throw in Hp as [-> ->].
        -- by apply score_of_not_OutOfFuel in Hp.
      * intros _. split; [simpl; lia|].
        unfold get_value, deref. simpl.
        by rewrite lookup_app_r, Nat.sub_diag by lia.
Qed.

(** X10 ([upHeap]).  When the positions 1 to [k - 1] of [_items] are in
    heap order and the scores are numbers, [upHeap(k)] returns and leaves
    the positions 1 to [k] in heap order; it permutes these entries,
    changes no object and leaves slot 0 and the positions after [k] as
    they are. *)
Theorem upHeap_restores_heap (σ : list (IScoredValue T)) rs n m k :
  1 <= k < length rs ->
  Forall (valid σ) rs -> Forall (numeric σ) rs ->
  heap_ordered (le_key σ) rs (k - 1) ->
  exists rs',
    upHeap k (mk σ (Some <$> rs) n m) = Ok tt (mk σ (Some <$> rs') n m) /\
    rs' ≡ₚ rs /\
    (forall p, p = 0 \/ k < p -> rs' !! p = rs !! p) /\
    heap_ordered (le_key σ) rs' k.
Proof.
  intros Hk Hv Hnum Hh.
  destruct (upHeap_spec σ n m rs k) as (rs' & Hrun & Hsw); [lia|done|].
  exists rs'. split; [done|]. split; [|split].
  - eapply swims_Permutation; [|done]. lia.
  - intros p Hp. by eapply swims_unchanged.
  - apply (swims_heap_ordered (le_key σ) rs k k rs'); [lia| |].
    + eapply swims_weaken; [lia| |exact Hsw].
      intros a b Ha Hb. apply ngt_le_key; by eapply Forall_forall.
    + by apply heap_ordered_up_inv_pred.
Qed.

(** X11 ([downHeap]).  When the positions 1 to [count] of [_items] are in
    heap order but for the entry at the root, and the scores are numbers,
    [downHeap(1)] returns and leaves them in heap order; it permutes these
    entries, changes no object and leaves slot 0 and the positions after
    [count] as they are. *)
Theorem downHeap_restores_heap (σ : list (IScoredValue T)) rs n m :
  1 < length rs -> n < length rs ->
  Forall (valid σ) rs -> Forall (numeric σ) rs ->
  (forall c, 4 <= c <= n -> le_key σ (rs !!! (c / 2)) (rs !!! c)) ->
  exists rs',
    downHeap 1 (mk σ (Some <$> rs) n m) = Ok tt (mk σ (Some <$> rs') n m) /\
    rs' ≡ₚ rs /\
    (forall p, p = 0 \/ n < p -> rs' !! p = rs !! p) /\
    heap_ordered (le_key σ) rs' n.
Proof.
  intros H1 Hn Hv Hnum Hh.
  destruct (downHeap_spec σ n m rs) as (rs' & Hrun & Hs); [done..|].
  exists rs'. split; [done|]. split; [|split].
  - eapply sinks_Permutation; [|exact Hs]. lia.
  - intros p Hp. eapply sinks_unchanged; [exact Hs|lia].
  - apply (sinks_heap_ordered (le_key σ) n rs 1 rs'); [exact Hn| |].
    + eapply sinks_weaken; [lia|exact Hn| |exact Hs].
      intros a b Ha Hb. apply ngt_le_key; by eapply Forall_forall.
    + split; [|lia]. intros c Hc Hne. apply Hh. lia.
Qed.

(** X12 (no call fails).  On a collection built by the constructor, [add]
    and [sortDescending], in any order and whatever the scores: [add]
    returns, with [count] one more or at capacity; [sortDescending]
    returns and keeps [count], the capacity, the objects and the occupants
    (as a multiset). *)
Theorem reachable_calls_return s :
  reachable s ->
  (forall v sc, exists s',
     add v sc s = Ok tt s' /\
     _count s' = Nat.min (S (_count s)) (_maxCount s) /\
     _maxCount s' = _maxCount s) /\
  (exists s',
     sortDescending s = Ok tt s' /\
     _count s' = _count s /\ _maxCount s' = _maxCount s /\
     objects s' = objects s /\ retained s' ≡ₚ retained s).
Proof.
  intros [Hwf _]%reachable_inv. split.
  - intros v sc.
    destruct (add_spec s v sc Hwf) as (s' & Hadd & Hwf' & Hm & _ & Hcase).
    exists s'. split; [done|]. split; [|done].
    destruct Hwf as (_ & _ & _ & _ & Hcap & _).
    destruct Hcase as [(? & ? & _)|(? & old & _ & [(_ & ->)|(_ & ? & _)])];
      lia.
  - destruct (sortDescending_spec s Hwf) as (s' & Hsort & Hc & Hm & Hret & _).
    exists s'. split; [done|]. split; [done|]. split; [done|].
    split; [|done]. by apply (sortDescending_wf s s').
Qed.

(** X27 (the least score never goes down).  At capacity, after [add] calls
    whose scores are numbers, one more [add] with a score that is a number
    leaves a top entry that scores at least as much as the top entry
    before the call: the score needed to enter never decreases. *)
Theorem add_raises_top maxCount cs s0 s v sc old :
  new maxCount = inr s0 ->
  Forall numeric_candidate cs ->
  add_all cs s0 = Ok tt s ->
  _count s = _maxCount s ->
  Number.isNaN sc = false ->
  get_value s 0 = Some old ->
  exists s' least,
    add v sc s = Ok tt s' /\
    get_value s' 0 = Some least /\
    Number.le (score old) (score least) = true.
Proof.
  intros [Hm ->]%new_inr Hnum Hrun Hfull Hsc Htop.
  destruct (add_all_spec cs _ (wf_fresh maxCount Hm))
    as (s1 & Hrun1 & Hwf & _ & _ & Hord).
  rewrite Hrun in Hrun1. injection Hrun1 as <-.
  specialize (Hord (ordered_fresh maxCount) Hnum).
  pose proof (top_least s old Hwf Hord Htop) as Hmin.
  assert (Hold : Number.isNaN (score old) = false).
  { apply (retained_numeric s); [done..|]. apply top_retained; [done| |done].
    destruct Hwf as (_ & _ & _ & _ & _ & ?). lia. }
  destruct (add_spec s v sc Hwf) as (s' & Hadd & Hwf' & Hm' & _ & Hcase).
  destruct Hcase as [(Hlt & _)|(_ & old' & Htop' & Hcase)]; [lia|].
  rewrite Htop in Htop'. injection Htop' as <-.
  destruct Hcase as [(Hlt & ->)|(Hlt & Hc & Hret)].
  - exists s, old. split; [done|]. split; [done|]. by apply number_le_refl.
  - destruct (wf_inv s' Hwf')
      as (σ & rs & n & m & -> & Hlen & Hnd & Hv & Hcap & Hm'').
    destruct (get_value_top σ rs n m) as (least & Hl & _); [|done|].
    { simpl in Hc. destruct Hwf as (_ & _ & _ & _ & _ & ?). lia. }
    exists (mk σ (Some <$> rs) n m), least. split; [done|]. split; [done|].
    assert (Hin : least ∈ {| value := v; score := sc |} :: retained s).
    { rewrite <-Hret. right. apply top_retained; [done| |done].
      simpl in *. destruct Hwf as (_ & _ & _ & _ & _ & ?). lia. }
    apply elem_of_cons in Hin as [->|Hin]; [|by apply Hmin].
    simpl. by apply number_lt_false_le.
Qed.

End TopNCollectionFurther.

(** ** VectorizedList *)

Section VectorizedListFurther.
Import VectorizedList.
Context {T : Type} (vector : VectorMath).
Implicit Types (this : VectorizedList.t T) (other : Embedding.t).
Implicit Types (entries : list (T * Embedding.t)).

(** X13 ([add], then [get] and [embedding]).  After [add] on each entry of
    a list in turn, starting from a new list, [get(i)] is the item of the
    entry of index [i] and [embedding(i)] is its embedding, normalized;
    both are [undefined] from the number of entries on. *)
Theorem add_each_get entries :
  exists this,
    add_each vector new entries = inr this /\
    length (_items this) = length entries /\
    length (_embeddings this) = length entries /\
    forall i,
      get this i = fst <$> entries !! i /\
      embedding this i
      = (fun c => Embedding.normalize vector c.2) <$> entries !! i.
Proof.
  eexists. split; [apply add_each_app|]. simpl.
  rewrite !length_fmap. split; [done|]. split; [done|].
  intros i. unfold get, embedding. simpl.
  rewrite <-list_fmap_compose, !list_lookup_fmap. done.
Qed.

(** X14 (stored embeddings are normalized).  Every embedding of a list
    built by [add] has its flag set; its cosine similarity to a query is
    the dot product when the query is normalized as well, and is computed
    by [cosineSimilarity32] when it is not. *)
Theorem stored_embeddings_normalized entries other :
  exists this,
    add_each vector new entries = inr this /\
    Forall (fun e => Embedding.isNormalized e = true) (_embeddings this) /\
    Forall (fun e =>
              Embedding.cosineSimilarity vector e other
              = if Embedding.isNormalized other
                then Embedding.dotProduct vector e other
                else cosineSimilarity32 vector (Embedding.components e)
                       (Embedding.components other))
      (_embeddings this).
Proof.
  eexists. split; [apply add_each_app|]. simpl.
  assert (Hn : Forall (fun e => Embedding.isNormalized e = true)
                 (Embedding.normalize vector <$> entries.*2)).
  { apply Forall_fmap, Forall_true. intros e. apply normalize_isNormalized. }
  split; [done|]. eapply Forall_impl; [exact Hn|].
  intros e He. unfold Embedding.cosineSimilarity, Embedding.dotProduct.
  unfold Embedding.isNormalized in *. by rewrite He.
Qed.

(** X15 ([similar]).  [similar] yields, in the order of the indices, the
    scored values of the entries whose score is at least [minScore]: each
    with the item of its index and its cosine similarity to the query. *)
Theorem similar_filter this other minScore :
  similar vector this other minScore
  = filter (fun o => Number.ge (score o) minScore = true)
      (imap (scored vector this other) (_embeddings this)).
Proof. unfold similar. apply similar_loop_filter. Qed.

(** X16 ([search] and [similar]).  [search] calls [add] on [matches] with
    the values and scores that [similar] yields for the same threshold, in
    the same order; the threshold is [Number.MIN_VALUE] when none is
    given. *)
Theorem search_adds_similar this other matches minScore :
  search vector this other matches minScore
  = TopNCollection.add_all
      ((fun o => (value o, score o))
         <$> similar vector this other (default Number.MIN_VALUE minScore))
      matches.
Proof.
  unfold search, similar. apply search_loop_similar.
Qed.

(** X17 (a NaN threshold).  With a threshold that is NaN, [similar] yields
    nothing and [search] leaves [matches] as it is: [score >= minScore] is
    false for every score. *)
Theorem NaN_threshold_selects_nothing this other minScore matches :
  Number.isNaN minScore = true ->
  similar vector this other minScore = [] /\
  search vector this other matches (Some minScore) = Ok tt matches.
Proof.
  intros Hnan.
  assert (Hs : similar vector this other minScore = []).
  { unfold similar. rewrite similar_loop_filter.
    apply filter_none, Forall_forall. intros o _. by rewrite number_ge_NaN. }
  split; [done|]. unfold search. simpl. rewrite search_loop_similar.
  fold (similar vector this other minScore). by rewrite Hs.
Qed.

(** X18 ([searchTopN]).  For a positive [topNCount], [searchTopN] returns
    a collection of that capacity whose occupants are among the values
    [similar] yields for the same threshold, [topNCount] of them or all if
    there are fewer; when the scores are numbers, no value left out scores
    more than an occupant. *)
Theorem searchTopN_selects this other topNCount minScore :
  0 < topNCount ->
  let found :=
    similar vector this other (default Number.MIN_VALUE minScore) in
  exists s dropped,
    searchTopN vector this other topNCount minScore = inr (Ok tt s) /\
    TopNCollection._maxCount s = topNCount /\
    TopNCollection._count s = Nat.min (length found) topNCount /\
    TopNCollection.retained s ++ dropped ≡ₚ found /\
    (Forall (fun o => Number.isNaN (score o) = false) found ->
     forall r d, r ∈ TopNCollection.retained s -> d ∈ dropped ->
                 Number.le (score d) (score r) = true).
Proof.
  intros Hm found. unfold searchTopN, TopNCollection.new.
  destruct (Nat.ltb_spec 0 topNCount) as [_|?]; [|lia].
  unfold search. rewrite search_loop_similar.
  change (similar_loop vector this other (default Number.MIN_VALUE minScore)
            (_embeddings this) 0) with found.
  set (cs := (fun o : IScoredValue T => (value o, score o)) <$> found).
  assert (Hcs : candidate <$> cs = found).
  { unfold cs. rewrite <-list_fmap_compose.
    rewrite <-(list_fmap_id found) at 2.
    apply list_fmap_ext. by intros j [v sc] _. }
  pose proof (wf_fresh (T:=T) topNCount Hm) as Hwf.
  destruct (add_all_spec cs _ Hwf) as (s & Hrun & _ & Hmax & Hcount & _).
  destruct (add_all_partition cs _ [] Hwf) as (s' & D & Hrun' & Hperm & Hle);
    [done|].
  rewrite Hrun in Hrun'. injection Hrun' as <-.
  exists s, D. split; [by rewrite Hrun|]. split; [done|]. split; [|split].
  - rewrite Hcount. simpl. unfold cs. by rewrite length_fmap.
  - rewrite Hperm. simpl. by rewrite Hcs.
  - intros Hnum r d Hr Hd. apply Hle; [apply ordered_fresh| | |done..].
    + unfold cs. apply Forall_fmap. eapply Forall_impl; [exact Hnum|].
      by intros [v sc].
    + intros d' r' Hd'. by apply not_elem_of_nil in Hd'.
Qed.

(** X20 ([nearest] returning [undefined]).  On a list with as many items
    as embeddings, [nearest] returns [undefined] exactly when no stored
    embedding has a score that is at least [Number.MIN_VALUE]; a score
    that is NaN is not. *)
Theorem nearest_undefined_iff this other :
  length (_items this) = length (_embeddings this) ->
  nearest vector this other = None <->
  Forall (fun e =>
            Number.ge (Embedding.cosineSimilarity vector e other)
              Number.MIN_VALUE = false) (_embeddings this).
Proof.
  intros Hlen. unfold nearest. split.
  - intros Hnone.
    destruct (decide (Forall (fun e =>
                Number.ge (Embedding.cosineSimilarity vector e other)
                  Number.MIN_VALUE = false) (_embeddings this)))
      as [?|Hex]; [done|exfalso].
    apply not_Forall_Exists in Hex; [|apply _].
    assert (Hex' : Exists (fun e =>
                Number.ge (Embedding.cosineSimilarity vector e other)
                  Number.MIN_VALUE = true) (_embeddings this)).
    { eapply Exists_impl; [exact Hex|]. simpl. intros e He.
      by destruct (Number.ge _ _). }
    pose proof (nearest_loop_found vector other (_embeddings this) 0
                  Number.MIN_VALUE (-1) ltac:(lia) Hex') as Hpos.
    destruct (nearest_loop_range vector other (_embeddings this) 0
                Number.MIN_VALUE (-1) ltac:(lia)) as [Hr _].
    simpl in Hr.
    destruct (Z.ltb_spec
                (nearest_loop vector other (_embeddings this) 0
                   Number.MIN_VALUE (-1)) 0); [lia|].
    apply lookup_ge_None in Hnone. lia.
  - intros Hall. rewrite nearest_loop_after; [done|].
    eapply Forall_impl; [exact Hall|]. by intros e.
Qed.

(** X21 ([nearest] and [searchTopN]).  [nearest] returns the value of the
    only occupant of the collection that [searchTopN] returns for the
    capacity 1 and the default threshold, and [undefined] when that
    collection is empty. *)
Theorem nearest_is_top1 this other :
  exists s,
    searchTopN vector this other 1 None = inr (Ok tt s) /\
    nearest vector this other = TopNCollection.get_value s 0 ≫= value.
Proof.
  destruct (search_loop_top1 vector this other (_embeddings this) 0
              Number.MIN_VALUE (-1)) as [best Hrun]; [lia|done|done|].
  eexists. split; [unfold searchTopN, search; simpl; by rewrite <-Hrun|].
  unfold nearest, top1.
  by destruct (nearest_loop vector other (_embeddings this) 0
                 Number.MIN_VALUE (-1) <? 0)%Z.
Qed.

End VectorizedListFurther.

(** ** EventHistory *)

Section EventHistoryProperties.
Import EventHistory.
Context {T Date : Type}.
Implicit Types (this : EventHistory.t T Date) (calls : list (@call T Date)).

(** X22 ([append], then [get]).  After [append] on each of [n] data in
    turn, starting from a new history, [count] is [n] and [get(i)] is the
    event of the datum of index [i], with the sequence number [i + 1] and
    the time read at its call; [get(i)] is [undefined] from [n] on. *)
Theorem append_get (entries : list (Date * T)) :
  let this := run ((fun c => Append c.1 c.2) <$> entries) in
  count this = length entries /\
  forall i,
    get this i
    = (fun c => {| seqNumber := i + 1; createDate := c.1;
                   lastUsed := None; data := c.2 |}) <$> entries !! i.
Proof.
  simpl. unfold count, get.
  enough (_seqNumber (run ((fun c => Append c.1 c.2) <$> entries))
          = length entries /\
          _history (run ((fun c => Append c.1 c.2) <$> entries))
          = imap (fun i c => {| seqNumber := i + 1; createDate := c.1;
                                lastUsed := None; data := c.2 |}) entries)
    as [_ ->].
  { rewrite length_imap. split; [done|]. intros i. apply list_lookup_imap. }
  induction entries as [|[now d] entries [IHs IHh]] using rev_ind; [done|].
  rewrite fmap_app. csimpl. rewrite run_snoc. simpl.
  rewrite IHs, IHh, length_app, imap_app. simpl. split; [done|].
  by rewrite Nat.add_0_r.
Qed.

(** X23 (sequence numbers).  After any sequence of [append] and [trim]
    calls on a new history, the counter is the number of [append] calls,
    and the events kept carry consecutive sequence numbers that end at the
    counter: [trim] renumbers nothing and no number is given twice. *)
Theorem seqNumber_consecutive calls :
  let this := run calls in
  _seqNumber this = appends calls /\
  count this <= appends calls /\
  forall i e,
    get this i = Some e ->
    seqNumber e + count this = appends calls + i + 1.
Proof.
  simpl. unfold count, get.
  enough (_seqNumber (run calls) = appends calls /\
          length (_history (run calls)) <= _seqNumber (run calls) /\
          numbered (run calls)) as (Hs & Hl & Hn).
  { split; [done|]. split; [lia|]. intros i e He.
    rewrite <-Hs. by apply Hn. }
  induction calls as [|c calls (IHs & IHl & IHn)] using rev_ind.
  - split; [done|]. split; [done|]. by intros i e.
  - rewrite run_snoc. split; [|split].
    + destruct c as [now d|k]; simpl.
      * rewrite IHs. clear. induction calls as [|[] calls IH]; simpl; lia.
      * assert (Ha : appends (calls ++ [Trim k]) = appends calls).
        { clear. induction calls as [|[] calls IH]; simpl; lia. }
        rewrite Ha, <-IHs. unfold trim. by case_match.
    + destruct c as [now d|k]; simpl.
      * rewrite length_app. simpl. lia.
      * unfold trim. case_match; simpl; [lia|].
        unfold array_splice_0. rewrite length_drop. lia.
    + destruct c as [now d|k]; simpl.
      * by apply numbered_append.
      * by apply numbered_trim.
Qed.

(** X24 ([allEvents]).  [allEvents(false)] yields the events from the
    oldest to the newest, [allEvents(true)] yields the same events in the
    reverse order, and [allEvents()] is [allEvents(true)]. *)
Theorem allEvents_orders this :
  allEvents this (Some false) = Some <$> _history this /\
  allEvents this (Some true) = Some <$> reverse (_history this) /\
  allEvents this None = allEvents this (Some true).
Proof.
  unfold allEvents. simpl. split; [|split; [|done]].
  - rewrite oldest_first_eq by lia. by rewrite drop_0, firstn_all.
  - rewrite newest_first_eq by lia. by rewrite firstn_all.
Qed.

(** X25 ([trim]).  [trim(k)] keeps the counter of sequence numbers.  For
    [k <= 0] it changes nothing; for [0 <= k < count] it removes the [k]
    oldest events, the event of index [i] being the former event of index
    [k + i]; for [k >= count] it empties the history. *)
Theorem trim_drops_oldest this (k : Z) :
  _seqNumber (trim this k) = _seqNumber this /\
  ((k <= 0)%Z -> trim this k = this) /\
  ((0 <= k < Z.of_nat (count this))%Z ->
   count (trim this k) = count this - Z.to_nat k /\
   forall i, get (trim this k) i = get this (Z.to_nat k + i)) /\
  ((Z.of_nat (count this) <= k)%Z -> count (trim this k) = 0).
Proof.
  unfold trim, count, get. destruct this as [history seq]. simpl.
  destruct (Z.leb_spec (Z.of_nat (length history)) k) as [Hge|Hlt]; simpl.
  - split; [done|]. split; [|split; [lia|done]].
    intros Hk. destruct history; [done|]. simpl in Hge. lia.
  - split; [done|]. rewrite array_splice_0_eq by done.
    split; [|split; [|lia]].
    + intros Hk. by replace (Z.to_nat k) with 0 by lia.
    + intros Hk. rewrite length_drop. split; [done|].
      intros i. apply lookup_drop.
Qed.

End EventHistoryProperties.

(** ** parseAndValidateJsonText *)

Section ValidateProperties.
Import JsString Validate.
Context {json : Type}.
Variable JSON_parse : JsString.t -> error + json.
Variable semanticDiagnostics :
  json -> JsString.t -> JsString.t -> list JsString.t.

(** X26 ([parseAndValidateJsonText]).  When the text has an opening brace
    before a closing brace, [JSON.parse] gets the text from the first
    opening brace to the last closing brace, both included, and the result
    is its value if [validateJsonObject] accepts it and the error of the
    one or the other if not.  When the text has no opening brace before a
    closing brace, the call throws the error "Response is not a JSON
    string". *)
Theorem parseAndValidateJsonText_span text schema typeName :
  (exists pre body post,
     text = pre ++ [123%N] ++ body ++ [125%N] ++ post /\
     (123%N ∉ pre) /\ (125%N ∉ post) /\
     parseAndValidateJsonText JSON_parse semanticDiagnostics text schema
       typeName
     = match JSON_parse ([123%N] ++ body ++ [125%N]) with
       | inl e => inl e
       | inr j => validateJsonObject semanticDiagnostics j schema typeName
       end) \/
  ((forall pre body post,
      text <> pre ++ [123%N] ++ body ++ [125%N] ++ post) /\
   parseAndValidateJsonText JSON_parse semanticDiagnostics text schema
     typeName
   = inl (Error (of_literal "Response is not a JSON string"))).
Proof.
  unfold parseAndValidateJsonText.
  destruct (Z.leb_spec 0 (indexOf text 123%N)) as [H0|H0]; simpl;
    [destruct (Z.ltb_spec (indexOf text 123%N) (lastIndexOf text 125%N))
       as [Hlt|Hge]; simpl|].
  - left. destruct (span_spec text 123%N 125%N ltac:(lia))
      as (pre & body & post & Htext & Hpre & Hpost & ->).
    exists pre, body, post. split; [done|]. split; [done|]. split; [done|].
    destruct (JSON_parse _) as [e|j]; [done|].
    unfold validateJsonObject. by destruct (negb _).
  - right. split; [|done]. intros pre body post Htext.
    assert (Hc : text !! (length pre + 1 + length body) = Some 125%N).
    { rewrite Htext. rewrite lookup_app_r by lia.
      replace (length pre + 1 + length body - length pre)
        with (S (length body)) by lia.
      simpl. rewrite lookup_app_r by lia. by rewrite Nat.sub_diag. }
    assert (Ho : text !! length pre = Some 123%N).
    { rewrite Htext. rewrite lookup_app_r by lia. by rewrite Nat.sub_diag. }
    apply indexOf_le in Ho. apply lastIndexOf_ge in Hc. lia.
  - right. split; [|done]. intros pre body post Htext.
    assert (Ho : text !! length pre = Some 123%N).
    { rewrite Htext. rewrite lookup_app_r by lia. by rewrite Nat.sub_diag. }
    apply indexOf_le in Ho. lia.
Qed.

End ValidateProperties.

(** ** The further properties at the sample inputs *)

Section FurtherInstances.
Import TopNCollection Samples FurtherSamples.
Local Open Scope string_scope.

(** The sample states are the ones the methods compute. *)
(** The constructor of [Embedding] rounds to single precision: 0.1 is
    stored as 0x1.99999ap-4, and 1, 0 and 0.5 as they are. *)
Example new_rounds :
  Embedding.components (Embedding.new [0.1; 1; 0; 0.5]%float)
  = [0x1.99999ap-4; 1; 0; 0.5]%float.
Proof. vm_compute. reflexivity. Qed.

Example full_CBD_built : add_all scenario (fresh 3) = Ok tt full_CBD.
Proof. vm_compute. reflexivity. Qed.

Example sorted_DBC_built : sortDescending full_CBD = Ok tt sorted_DBC.
Proof. vm_compute. reflexivity. Qed.

Lemma reachable_full_CBD : reachable full_CBD.
Proof.
  apply (reachable_add_all scenario (fresh 3)); [|exact full_CBD_built].
  by apply (reachable_new 3).
Qed.

Lemma reachable_full_A : reachable full_A.
Proof.
  apply (reachable_add_all [(Some "A", 1%float)] (fresh 1));
    [|exact full_A_built].
  by apply (reachable_new 1).
Qed.

(** [get_within_count] on the collection of the scenario, at index 1. *)
Lemma get_within_count_witness :
  reachable full_CBD /\
  exists x,
    get 1 full_CBD = Ok x full_CBD /\
    (1 < _count full_CBD -> is_Some (deref full_CBD x)) /\
    (_count full_CBD <= 1 -> x = None).
Proof.
  split; [exact reachable_full_CBD|].
  exact (get_within_count full_CBD 1 reachable_full_CBD).
Defined.

(** [sentinel_kept] on the collection of the scenario. *)
Lemma sentinel_kept_witness :
  reachable full_CBD /\
  exists x,
    items_get 0 full_CBD = Ok x full_CBD /\
    deref full_CBD x = Some {| value := None; score := Number.MIN_VALUE |}.
Proof.
  split; [exact reachable_full_CBD|].
  exact (sentinel_kept full_CBD reachable_full_CBD).
Defined.

(** [objects_bounded] on the collection of the scenario: four objects for
    three occupants, after five calls of [add]. *)
Lemma objects_bounded_witness :
  reachable full_CBD /\
  length (objects full_CBD) = S (_count full_CBD) /\
  _count full_CBD <= _maxCount full_CBD.
Proof.
  split; [exact reachable_full_CBD|].
  exact (objects_bounded full_CBD reachable_full_CBD).
Defined.

(** [add_recycles_top] on the collection of the scenario, for the
    candidate ("E", 0.4). *)
Lemma add_recycles_top_witness :
  reachable full_CBD /\
  exists s',
    add (Some "E") 0.4%float full_CBD = Ok tt s' /\
    ((_count full_CBD < _maxCount full_CBD /\
      objects s'
      = (objects full_CBD
           ++ [ {| value := Some "E"; score := 0.4%float |} ])%list) \/
     (_count full_CBD = _maxCount full_CBD /\
      exists r old,
        top full_CBD = Ok (Some r) full_CBD /\
        objects full_CBD !! r = Some old /\
        ((Number.lt 0.4%float (score old) = true /\ s' = full_CBD) \/
         (Number.lt 0.4%float (score old) = false /\
          objects s'
          = <[r := {| value := Some "E"; score := 0.4%float |}]>
              (objects full_CBD))))).
Proof.
  split; [exact reachable_full_CBD|].
  exact (add_recycles_top full_CBD (Some "E") 0.4%float reachable_full_CBD).
Defined.

(** [add_unordered_evicts_top] on the collection of capacity 1 holding
    ("A", 1), for the candidate ("B", NaN). *)
Lemma add_unordered_evicts_top_witness :
  reachable full_A /\
  _count full_A = _maxCount full_A /\
  get_value full_A 0 = Some {| value := Some "A"; score := 1%float |} /\
  (Number.isNaN NaN = true \/ Number.isNaN 1%float = true) /\
  exists s',
    add (Some "B") NaN full_A = Ok tt s' /\
    _count s' = _count full_A /\
    {| value := Some "A"; score := 1%float |} :: retained s'
    ≡ₚ {| value := Some "B"; score := NaN |} :: retained full_A.
Proof.
  assert (Hfull : _count full_A = _maxCount full_A) by reflexivity.
  assert (Htop : get_value full_A 0
                 = Some {| value := Some "A"; score := 1%float |})
    by reflexivity.
  assert (Hnan : Number.isNaN NaN = true \/ Number.isNaN 1%float = true)
    by (left; reflexivity).
  split; [exact reachable_full_A|]. split; [exact Hfull|].
  split; [exact Htop|]. split; [exact Hnan|].
  exact (add_unordered_evicts_top full_A (Some "B") NaN _
           reachable_full_A Hfull Htop Hnan).
Defined.

(** [top_least_retained] at capacity 3 and the candidates of the
    scenario. *)
Lemma top_least_retained_witness :
  new (T:=string) 3 = inr (fresh 3) /\
  Forall numeric_candidate scenario /\
  add_all scenario (fresh 3) = Ok tt full_CBD /\
  exists x,
    top full_CBD = Ok x full_CBD /\
    match deref full_CBD x with
    | Some least =>
        least ∈ retained full_CBD /\
        forall o, o ∈ retained full_CBD ->
                  Number.le (score least) (score o) = true
    | None => scenario = []
    end.
Proof.
  assert (Hnew : new (T:=string) 3 = inr (fresh 3)) by reflexivity.
  assert (Hnum : Forall numeric_candidate scenario)
    by (repeat constructor).
  split; [exact Hnew|]. split; [exact Hnum|]. split; [exact full_CBD_built|].
  exact (top_least_retained 3 scenario (fresh 3) full_CBD Hnew Hnum
           full_CBD_built).
Defined.

(** [removeTop_extracts_least] at capacity 3 and the candidates of the
    scenario. *)
Lemma removeTop_extracts_least_witness :
  new (T:=string) 3 = inr (fresh 3) /\
  Forall numeric_candidate scenario /\
  add_all scenario (fresh 3) = Ok tt full_CBD /\
  scenario <> [] /\
  exists x least s',
    top full_CBD = Ok x full_CBD /\
    removeTop full_CBD = Ok x s' /\
    deref full_CBD x = Some least /\
    objects s' = objects full_CBD /\
    _count s' = _count full_CBD - 1 /\
    least :: retained s' ≡ₚ retained full_CBD /\
    (forall o, o ∈ retained s' ->
               Number.le (score least) (score o) = true) /\
    (forall i c, 1 <= i -> c = 2 * i \/ c = 2 * i + 1 -> c <= _count s' ->
       exists a b, get_value s' (i - 1) = Some a /\
                   get_value s' (c - 1) = Some b /\
                   Number.le (score a) (score b) = true).
Proof.
  assert (Hnew : new (T:=string) 3 = inr (fresh 3)) by reflexivity.
  assert (Hnum : Forall numeric_candidate scenario)
    by (repeat constructor).
  assert (Hne : scenario <> []) by discriminate.
  split; [exact Hnew|]. split; [exact Hnum|]. split; [exact full_CBD_built|].
  split; [exact Hne|].
  exact (removeTop_extracts_least 3 scenario (fresh 3) full_CBD Hnew Hnum
           full_CBD_built Hne).
Defined.

(** [sortDescending_top_greatest] at capacity 3 and the candidates of the
    scenario: every candidate below 0.9 is dropped after the sort. *)
Lemma sortDescending_top_greatest_witness :
  new (T:=string) 3 = inr (fresh 3) /\
  Forall numeric_candidate scenario /\
  add_all scenario (fresh 3) = Ok tt full_CBD /\
  sortDescending full_CBD = Ok tt sorted_DBC /\
  get_value sorted_DBC 0 = Some {| value := Some "D"; score := 0.9%float |} /\
  (forall o, o ∈ retained sorted_DBC ->
             Number.le (score o) 0.9%float = true) /\
  (_count sorted_DBC = _maxCount sorted_DBC ->
   forall v sc, Number.lt sc 0.9%float = true ->
                add v sc sorted_DBC = Ok tt sorted_DBC).
Proof.
  assert (Hnew : new (T:=string) 3 = inr (fresh 3)) by reflexivity.
  assert (Hnum : Forall numeric_candidate scenario)
    by (repeat constructor).
  assert (Htop : get_value sorted_DBC 0
                 = Some {| value := Some "D"; score := 0.9%float |})
    by reflexivity.
  split; [exact Hnew|]. split; [exact Hnum|]. split; [exact full_CBD_built|].
  split; [exact sorted_DBC_built|]. split; [exact Htop|].
  exact (sortDescending_top_greatest 3 scenario (fresh 3) full_CBD sorted_DBC
           Hnew Hnum full_CBD_built sorted_DBC_built _ Htop).
Defined.

(** [clear_spoils_add] on the collection of the scenario. *)
Lemma clear_spoils_add_witness :
  reachable full_CBD /\
  (_count full_CBD = 0 -> clear full_CBD = Ok tt full_CBD) /\
  (1 <= _count full_CBD ->
   forall v sc, exists s1 s2,
     clear full_CBD = Ok tt s1 /\
     add v sc s1 = Throw TypeError s2 /\
     (_count full_CBD = _maxCount full_CBD -> s2 = s1) /\
     (_count full_CBD < _maxCount full_CBD ->
      _count s2 = S (_count full_CBD) /\
      get_value s2 0 = Some {| value := v; score := sc |})).
Proof.
  split; [exact reachable_full_CBD|].
  exact (clear_spoils_add full_CBD reachable_full_CBD).
Defined.

(** [upHeap_restores_heap] for the entry ("C", 0.3) placed at position 3
    under ("B", 0.5). *)
Lemma upHeap_restores_heap_witness :
  1 <= 3 < length [0; 1; 2; 3] /\
  Forall (valid three) [0; 1; 2; 3] /\
  Forall (numeric three) [0; 1; 2; 3] /\
  heap_ordered (le_key three) [0; 1; 2; 3] (3 - 1) /\
  exists rs',
    upHeap 3 (mk three (Some <$> [0; 1; 2; 3]) 3 3)
    = Ok tt (mk three (Some <$> rs') 3 3) /\
    rs' ≡ₚ [0; 1; 2; 3] /\
    (forall p, p = 0 \/ 3 < p -> rs' !! p = [0; 1; 2; 3] !! p) /\
    heap_ordered (le_key three) rs' 3.
Proof.
  assert (Hk : 1 <= 3 < length [0; 1; 2; 3]) by (simpl; lia).
  assert (Hv : Forall (valid three) [0; 1; 2; 3])
    by (repeat constructor; by eexists).
  assert (Hn : Forall (numeric three) [0; 1; 2; 3])
    by (repeat constructor).
  assert (Hh : heap_ordered (le_key three) [0; 1; 2; 3] (3 - 1)).
  { intros c Hc. assert (c = 2) as -> by (simpl in Hc; lia).
    vm_compute. reflexivity. }
  split; [exact Hk|]. split; [exact Hv|]. split; [exact Hn|].
  split; [exact Hh|].
  exact (upHeap_restores_heap three [0; 1; 2; 3] 3 3 3 Hk Hv Hn Hh).
Defined.

(** [downHeap_restores_heap] for the entry ("D", 0.9) placed at the root
    over ("B", 0.5) and ("C", 0.3). *)
Lemma downHeap_restores_heap_witness :
  1 < length [0; 2; 1; 3] /\ 3 < length [0; 2; 1; 3] /\
  Forall (valid three) [0; 2; 1; 3] /\
  Forall (numeric three) [0; 2; 1; 3] /\
  (forall c, 4 <= c <= 3 ->
             le_key three ([0; 2; 1; 3] !!! (c / 2)) ([0; 2; 1; 3] !!! c)) /\
  exists rs',
    downHeap 1 (mk three (Some <$> [0; 2; 1; 3]) 3 3)
    = Ok tt (mk three (Some <$> rs') 3 3) /\
    rs' ≡ₚ [0; 2; 1; 3] /\
    (forall p, p = 0 \/ 3 < p -> rs' !! p = [0; 2; 1; 3] !! p) /\
    heap_ordered (le_key three) rs' 3.
Proof.
  assert (H1 : 1 < length [0; 2; 1; 3]) by (simpl; lia).
  assert (H3 : 3 < length [0; 2; 1; 3]) by (simpl; lia).
  assert (Hv : Forall (valid three) [0; 2; 1; 3])
    by (repeat constructor; by eexists).
  assert (Hn : Forall (numeric three) [0; 2; 1; 3])
    by (repeat constructor).
  assert (Hh : forall c, 4 <= c <= 3 ->
             le_key three ([0; 2; 1; 3] !!! (c / 2)) ([0; 2; 1; 3] !!! c))
    by (intros c Hc; lia).
  split; [exact H1|]. split; [exact H3|]. split; [exact Hv|].
  split; [exact Hn|]. split; [exact Hh|].
  exact (downHeap_restores_heap three [0; 2; 1; 3] 3 3 H1 H3 Hv Hn Hh).
Defined.

(** [NaN_threshold_selects_nothing] on the list of the scenario. *)
Lemma NaN_threshold_selects_nothing_witness :
  Number.isNaN NaN = true /\
  VectorizedList.similar SpecVectorMath.vector xy query NaN = [] /\
  VectorizedList.search SpecVectorMath.vector xy query (fresh 1) (Some NaN)
  = Ok tt (fresh 1).
Proof.
  assert (Hnan : Number.isNaN NaN = true) by reflexivity.
  split; [exact Hnan|].
  exact (NaN_threshold_selects_nothing SpecVectorMath.vector xy query NaN
           (fresh 1) Hnan).
Defined.

(** [searchTopN_selects] on the list of the scenario, for the capacity 1. *)
Lemma searchTopN_selects_witness :
  0 < 1 /\
  exists s dropped,
    VectorizedList.searchTopN SpecVectorMath.vector xy query 1 None
    = inr (Ok tt s) /\
    _maxCount s = 1 /\
    _count s
    = Nat.min
        (length (VectorizedList.similar SpecVectorMath.vector xy query
                   Number.MIN_VALUE)) 1 /\
    (retained s ++ dropped)%list
    ≡ₚ VectorizedList.similar SpecVectorMath.vector xy query
         Number.MIN_VALUE /\
    (Forall (fun o => Number.isNaN (score o) = false)
       (VectorizedList.similar SpecVectorMath.vector xy query
          Number.MIN_VALUE) ->
     forall r d, r ∈ retained s -> d ∈ dropped ->
                 Number.le (score d) (score r) = true).
Proof.
  assert (H1 : 0 < 1) by lia.
  split; [exact H1|].
  exact (searchTopN_selects SpecVectorMath.vector xy query 1 None H1).
Defined.

(** [nearest_undefined_iff] on the list holding "y" alone. *)
Lemma nearest_undefined_iff_witness :
  length (VectorizedList._items only_y)
  = length (VectorizedList._embeddings only_y) /\
  (VectorizedList.nearest SpecVectorMath.vector only_y query = None <->
   Forall (fun e =>
             Number.ge
               (Embedding.cosineSimilarity SpecVectorMath.vector e query)
               Number.MIN_VALUE = false)
     (VectorizedList._embeddings only_y)).
Proof.
  assert (Hlen : length (VectorizedList._items only_y)
                 = length (VectorizedList._embeddings only_y)) by reflexivity.
  split; [exact Hlen|].
  exact (nearest_undefined_iff SpecVectorMath.vector only_y query Hlen).
Defined.

(** [reachable_calls_return] on the collection of the scenario. *)
Lemma reachable_calls_return_witness :
  reachable full_CBD /\
  (forall v sc, exists s',
     add v sc full_CBD = Ok tt s' /\
     _count s' = Nat.min (S (_count full_CBD)) (_maxCount full_CBD) /\
     _maxCount s' = _maxCount full_CBD) /\
  (exists s',
     sortDescending full_CBD = Ok tt s' /\
     _count s' = _count full_CBD /\ _maxCount s' = _maxCount full_CBD /\
     objects s' = objects full_CBD /\ retained s' ≡ₚ retained full_CBD).
Proof.
  split; [exact reachable_full_CBD|].
  exact (reachable_calls_return full_CBD reachable_full_CBD).
Defined.

(** [nearest_last_greatest] on two items with the same embedding: the
    second is returned. *)
Lemma nearest_last_greatest_witness :
  VectorizedList._embeddings twins
  = ([ {| Embedding.components := [1; 0; 0]%float;
          Embedding._normalized := true |} ]
       ++ {| Embedding.components := [1; 0; 0]%float;
             Embedding._normalized := true |} :: [])%list /\
  VectorizedList.nearest SpecVectorMath.vector twins query = Some "second".
Proof.
  assert (Hemb : VectorizedList._embeddings twins
    = ([ {| Embedding.components := [1; 0; 0]%float;
            Embedding._normalized := true |} ]
         ++ {| Embedding.components := [1; 0; 0]%float;
               Embedding._normalized := true |} :: [])%list)
    by reflexivity.
  split; [exact Hemb|].
  refine (nearest_last_greatest SpecVectorMath.vector twins query _ _ _
            Hemb _ _ _).
  - vm_compute. reflexivity.
  - repeat constructor.
  - constructor.
Defined.

(** [add_raises_top] on the collection of the scenario, for the candidate
    ("E", 0.4). *)
Lemma add_raises_top_witness :
  new (T:=string) 3 = inr (fresh 3) /\
  Forall numeric_candidate scenario /\
  add_all scenario (fresh 3) = Ok tt full_CBD /\
  _count full_CBD = _maxCount full_CBD /\
  Number.isNaN 0.4%float = false /\
  get_value full_CBD 0 = Some {| value := Some "C"; score := 0.3%float |} /\
  exists s' least,
    add (Some "E") 0.4%float full_CBD = Ok tt s' /\
    get_value s' 0 = Some least /\
    Number.le 0.3%float (score least) = true.
Proof.
  assert (Hnew : new (T:=string) 3 = inr (fresh 3)) by reflexivity.
  assert (Hnum : Forall numeric_candidate scenario)
    by (repeat constructor).
  assert (Hfull : _count full_CBD = _maxCount full_CBD) by reflexivity.
  assert (Hsc : Number.isNaN 0.4%float = false) by reflexivity.
  assert (Htop : get_value full_CBD 0
                 = Some {| value := Some "C"; score := 0.3%float |})
    by reflexivity.
  split; [exact Hnew|]. split; [exact Hnum|]. split; [exact full_CBD_built|].
  split; [exact Hfull|]. split; [exact Hsc|]. split; [exact Htop|].
  exact (add_raises_top 3 scenario (fresh 3) full_CBD (Some "E") 0.4%float _
           Hnew Hnum full_CBD_built Hfull Hsc Htop).
Defined.

End FurtherInstances.
